(** * Market data simulator: order-book reconciliation and subscription lifecycle

    A shallow embedding of [market_data_client.cc] (the client's read loop,
    which rebuilds one order book per instrument from the update stream) and
    of [market_data_server.cc] (the per-connection [Subscribe] handler with
    its producer threads), followed by the properties of the specification
    that concern them.

    Layout:
    - [Double]   : IEEE binary64 values and their [operator<];
    - [StdMap]   : [std::map<double, double>] as the ascending list of its nodes;
    - [Wire]     : the protobuf messages exchanged on the stream;
    - [Client]   : [MarketDataClient::SubscribeToMarketData], read side;
    - [Server]   : [MarketDataServiceImpl::Subscribe] and
                   [StreamIncrementalUpdates] as a labelled transition system;
    - [Scenario] : concrete messages and runs;
    - [DoubleFacts], [StdMapFacts], [ClientSpec], [ServerSpec] : the proofs.

    How the code is read:
    - prices and quantities are doubles; a [std::map] keyed by doubles is
      only specified for keys on which [operator<] is a strict weak
      ordering, that is for keys other than NaN, and the statements about
      looking a price up say so;
    - the outer maps are keyed by [std::string]; every access in the client
      goes through [operator[]], which creates the entry it does not find;
    - the server runs one thread in [Subscribe] and one thread per started
      producer; a state of the connection records where each of them
      stands, and a step moves one thread from one call of [Read], [Write],
      [sleep_for] or [join], or one access to a stop signal, to the next;
      what [Read] delivers and whether a [Write] succeeds is part of the
      step's label;
    - a call of [Write] has a beginning and an end, and the code takes no
      lock around it. *)

From Stdlib Require Import ZArith Lia List Bool.
From Stdlib Require Import Floats.SpecFloat.
From stdpp Require Import gmap strings list fin_maps sorting.

Open Scope Z_scope.

(* ===================================================================== *)
(** * Part I: the embedding *)
(* ===================================================================== *)

(** ** IEEE doubles *)

Module Double.

(** A C++ [double] is a binary64 value.  [spec_float] is the Standard
    Library's specification of IEEE floats: signed zeros, signed
    infinities, NaN, and finite values [(-1)^s * m * 2^e]. *)
Definition double : Type := spec_float.

Definition prec : Z := 53.
Definition emax : Z := 1024.

(** The double nearest to [m * 2^e] (round to nearest, ties to even). *)
Definition of_scaled (m e : Z) : double := binary_normalize prec emax m e false.

(** Conversion of an [int] to [double], as in [set_quantity(200 + ...)]. *)
Definition of_int (n : Z) : double := of_scaled n 0.

Definition zero : double := S754_zero false.

(** A NaN, as a [double] field of a message may carry one. *)
Definition nan : double := S754_nan.

Definition add (x y : double) : double := SFadd prec emax x y.
Definition sub (x y : double) : double := SFsub prec emax x y.
Definition div (x y : double) : double := SFdiv prec emax x y.
Definition opp (x : double) : double := SFopp x.

Definition is_nan (x : double) : bool :=
  match x with S754_nan => true | _ => false end.

(** [a < b] on doubles; false as soon as one side is NaN. *)
Definition ltb (a b : double) : bool := SFltb a b.

(** [a == b] on doubles; false as soon as one side is NaN, true of [+0]
    and [-0]. *)
Definition eqb (a b : double) : bool := SFeqb a b.

(** [q > 0], the test of the incremental-update loops. *)
Definition positive (q : double) : bool := ltb zero q.

(** Equivalence of keys under [std::less<double>]: neither is less than
    the other.  On non-NaN values this is numeric equality ([+0] and [-0]
    are equivalent). *)
Definition equiv (a b : double) : bool := negb (ltb a b) && negb (ltb b a).

(** The order seen through a lexicographic rank (used in proofs only). *)
Definition rank (x : double) : Z * Z * Z :=
  match x with
  | S754_infinity true => (-2, 0, 0)
  | S754_finite true m e => (-1, - e, - Zpos m)
  | S754_zero _ => (0, 0, 0)
  | S754_nan => (0, 0, 0)
  | S754_finite false m e => (1, e, Zpos m)
  | S754_infinity false => (2, 0, 0)
  end.

Definition lex_lt (p q : Z * Z * Z) : Prop :=
  let '(a, b, c) := p in
  let '(a', b', c') := q in
  a < a' \/ (a = a' /\ (b < b' \/ (b = b' /\ c < c'))).

End Double.

(** ** [std::map<double, double>] *)

Module StdMap.
Import Double.

(** A [std::map<double, double>] is represented by the list of its nodes
    in iteration order, that is ascending by key under [operator<].  The
    operations below locate a key the way the container does: the first
    node whose key is not less than the argument ([lower_bound]), which
    holds the key when the argument is not less than it either, and the
    first node whose key is greater than the argument ([upper_bound]).

    [operator<] is false as soon as one side is NaN, so a NaN argument is
    less than no key and no key is less than it: [lower_bound] is then the
    first node and [upper_bound] the end, whatever the map holds.  The
    definitions below follow the comparisons also in that case; [built]
    gives the maps on which the list and the container's search agree,
    which are all the maps the three operations build from the empty map. *)
Abbreviation std_map := (list (double * double)).

(** [m.clear()] *)
Definition clear (m : std_map) : std_map := [].

(** [m.find(k)], returning the mapped value of the node found. *)
Fixpoint find (k : double) (m : std_map) : option double :=
  match m with
  | [] => None
  | (k', v') :: tl =>
      if ltb k' k then find k tl
      else if ltb k k' then None
      else Some v'
  end.

(** [m[k] = v]: [operator[]] inserts a node when no equivalent key exists,
    and the assignment overwrites the mapped value of the node returned. *)
Fixpoint assign (k v : double) (m : std_map) : std_map :=
  match m with
  | [] => [(k, v)]
  | (k', v') :: tl =>
      if ltb k' k then (k', v') :: assign k v tl
      else if ltb k k' then (k, v) :: (k', v') :: tl
      else (k', v) :: tl
  end.

(** The nodes from [m.upper_bound(k)] to the end: the first node whose key
    is greater than [k], and those after it. *)
Fixpoint upper_bound (k : double) (m : std_map) : std_map :=
  match m with
  | [] => []
  | (k', v') :: tl => if ltb k k' then m else upper_bound k tl
  end.

(** [m.erase(k)]: removes the nodes of [equal_range(k)], that is from
    [lower_bound(k)] up to [upper_bound(k)].  For a key that is not NaN
    and a map without NaN keys this is the node with the equivalent key,
    if there is one; for a NaN key it is every node. *)
Fixpoint erase (k : double) (m : std_map) : std_map :=
  match m with
  | [] => []
  | (k', v') :: tl =>
      if ltb k' k then (k', v') :: erase k tl
      else upper_bound k m
  end.

(** The representation invariant: keys strictly ascending, none of them
    NaN ([operator<] is a strict weak ordering only away from NaN, which
    [std::map] requires of its comparator). *)
Definition key_lt (a b : double * double) : Prop := ltb a.1 b.1 = true.

Definition wf (m : std_map) : Prop :=
  StronglySorted key_lt m /\ Forall (fun e => is_nan e.1 = false) m.

(** The maps that [operator[]], [erase] and [clear] build from the empty
    map, whatever the keys: an ordered map without NaN keys, or the single
    node that [operator[]] inserts into an empty map for a NaN key, which
    every later search then finds. *)
Definition built (m : std_map) : Prop :=
  wf m \/ exists k v, is_nan k = true /\ m = [(k, v)].

(** Every resting quantity is strictly positive. *)
Definition all_positive (m : std_map) : Prop :=
  Forall (fun e => positive e.2 = true) m.

End StdMap.

(** ** Wire messages *)

Module Wire.
Import Double.

(** Modelled from the spec: [market_data.proto] and the generated
    [market_data.pb.h] are not part of the sources; section 6 gives a price
    level as [(price: float64, quantity: float64)]. *)
Record PriceLevel : Type := {
  price : double;
  quantity : double
}.

(** Modelled from the spec: [Snapshot { instrument_id, bids, asks }] of
    section 6 (generated class [OrderBookSnapshot] is not in the sources). *)
Record OrderBookSnapshot : Type := {
  snapshot_instrument_id : string;
  bids : list PriceLevel;
  asks : list PriceLevel
}.

(** Modelled from the spec: [IncrementalUpdate { instrument_id, bid_updates,
    ask_updates }] of section 6 (generated class
    [OrderBookIncrementalUpdate] is not in the sources). *)
Record OrderBookIncrementalUpdate : Type := {
  incremental_instrument_id : string;
  bid_updates : list PriceLevel;
  ask_updates : list PriceLevel
}.

(** Modelled from the spec: [MarketDataUpdate], the tagged union of section
    6 (generated class not in the sources).  The client tests
    [has_snapshot()] and then [has_incremental_update()] and has no final
    [else]; [update_not_set] is the message for which both are false. *)
Inductive MarketDataUpdate : Type :=
| snapshot (s : OrderBookSnapshot)
| incremental_update (u : OrderBookIncrementalUpdate)
| update_not_set.

(** Modelled from the spec: [action: SUBSCRIBE | UNSUBSCRIBE] of section 6
    (generated enum not in the sources). *)
Inductive Action : Type := SUBSCRIBE | UNSUBSCRIBE.

(** Modelled from the spec: [SubscriptionRequest { action, instrument_id }]
    of section 6 (generated class not in the sources). *)
Record SubscriptionRequest : Type := {
  action : Action;
  instrument_id : string
}.

End Wire.

(** ** The client: [MarketDataClient::SubscribeToMarketData], read side *)

Module Client.
Import Double StdMap Wire.

(** The two private members holding the books. *)
Record MarketDataClient : Type := {
  order_books_bids_ : gmap string std_map;
  order_books_asks_ : gmap string std_map
}.

Definition empty_client : MarketDataClient :=
  {| order_books_bids_ := ∅; order_books_asks_ := ∅ |}.

(** [books[id]] followed by an operation [f] on the inner map:
    [std::map::operator[]] default-constructs an empty inner map when [id]
    has no entry, and [f] then acts on the entry in place. *)
Definition subscript (id : string) (f : std_map -> std_map)
    (books : gmap string std_map) : gmap string std_map :=
  <[id := f (default [] (books !! id))]> books.

(** One pass of the loops at lines 86-88 and 89-91:
    [books[id][level.price()] = level.quantity()]. *)
Definition snapshot_level (id : string) (books : gmap string std_map)
    (level : PriceLevel) : gmap string std_map :=
  subscript id (assign (price level) (quantity level)) books.

(** One pass of the loops at lines 102-109 and 111-118. *)
Definition incremental_level (id : string) (books : gmap string std_map)
    (level : PriceLevel) : gmap string std_map :=
  if positive (quantity level)
  then subscript id (assign (price level) (quantity level)) books
  else subscript id (erase (price level)) books.

(** The arguments [order_books_bids_[id]], [order_books_asks_[id]] of the
    call to [PrintOrderBook]: evaluating them goes through [operator[]]
    once more.  Printing itself leaves the books alone. *)
Definition print_argument (id : string)
    (books : gmap string std_map) : gmap string std_map :=
  subscript id (fun m => m) books.

(** Lines 77-93, the [has_snapshot()] branch. *)
Definition on_snapshot (s : OrderBookSnapshot)
    (c : MarketDataClient) : MarketDataClient :=
  let id := snapshot_instrument_id s in
  let b0 := subscript id clear (order_books_bids_ c) in
  let a0 := subscript id clear (order_books_asks_ c) in
  let b1 := fold_left (snapshot_level id) (bids s) b0 in
  let a1 := fold_left (snapshot_level id) (asks s) a0 in
  {| order_books_bids_ := print_argument id b1;
     order_books_asks_ := print_argument id a1 |}.

(** Lines 95-121, the [has_incremental_update()] branch. *)
Definition on_incremental (u : OrderBookIncrementalUpdate)
    (c : MarketDataClient) : MarketDataClient :=
  let id := incremental_instrument_id u in
  let b1 := fold_left (incremental_level id) (bid_updates u) (order_books_bids_ c) in
  let a1 := fold_left (incremental_level id) (ask_updates u) (order_books_asks_ c) in
  {| order_books_bids_ := print_argument id b1;
     order_books_asks_ := print_argument id a1 |}.

(** The body of the [while (stream_->Read(&update))] loop. *)
Definition process_update (c : MarketDataClient)
    (update : MarketDataUpdate) : MarketDataClient :=
  match update with
  | snapshot s => on_snapshot s c
  | incremental_update u => on_incremental u c
  | update_not_set => c
  end.

(** The read side of [SubscribeToMarketData]: the whole loop over the
    updates the stream delivers before [Read] returns false. *)
Definition SubscribeToMarketData (updates : list MarketDataUpdate)
    (c : MarketDataClient) : MarketDataClient :=
  fold_left process_update updates c.

(** *** Vocabulary for the statements *)

(** The book of one instrument on one side; an instrument without an entry
    reads as the empty book, which is what [operator[]] would create. *)
Definition book (books : gmap string std_map) (id : string) : std_map :=
  default [] (books !! id).

(** The effect of one changed level on the instrument's own inner map. *)
Definition level_step (m : std_map) (level : PriceLevel) : std_map :=
  if positive (quantity level)
  then assign (price level) (quantity level) m
  else erase (price level) m.

Definition apply_levels (levels : list PriceLevel) (m : std_map) : std_map :=
  fold_left level_step levels m.

(** The inner map a snapshot side builds, starting from the cleared map. *)
Definition build_side (levels : list PriceLevel) : std_map :=
  fold_left (fun m level => assign (price level) (quantity level) m) levels [].

(** Modelled from the spec: the levels of a snapshot side read as a book,
    in which a price has the quantity of the last level that carries it
    (two prices being the same when neither is less than the other). *)
Fixpoint last_quantity (p : double) (levels : list PriceLevel) : option double :=
  match levels with
  | [] => None
  | level :: rest =>
      match last_quantity p rest with
      | Some q => Some q
      | None => if equiv p (price level) then Some (quantity level) else None
      end
  end.

Definition ordered_prices (levels : list PriceLevel) : Prop :=
  Forall (fun level => is_nan (price level) = false) levels.

Definition ordered_update (update : MarketDataUpdate) : Prop :=
  match update with
  | snapshot s => ordered_prices (bids s) /\ ordered_prices (asks s)
  | incremental_update u =>
      ordered_prices (bid_updates u) /\ ordered_prices (ask_updates u)
  | update_not_set => True
  end.

Definition positive_quantities (levels : list PriceLevel) : Prop :=
  Forall (fun level => positive (quantity level) = true) levels.

Definition client_wf (c : MarketDataClient) : Prop :=
  (forall id m, order_books_bids_ c !! id = Some m -> wf m) /\
  (forall id m, order_books_asks_ c !! id = Some m -> wf m).

(** The invariant of section 3: no entry of any side of any instrument has
    a quantity that is not strictly positive. *)
Definition no_empty_level (c : MarketDataClient) : Prop :=
  (forall id m, order_books_bids_ c !! id = Some m -> all_positive m) /\
  (forall id m, order_books_asks_ c !! id = Some m -> all_positive m).

(** Snapshots whose levels all carry a strictly positive quantity. *)
Definition snapshot_positive (update : MarketDataUpdate) : Prop :=
  match update with
  | snapshot s => positive_quantities (bids s) /\ positive_quantities (asks s)
  | _ => True
  end.

End Client.

(** ** The server: [MarketDataServiceImpl::Subscribe] and its producers *)

Module Server.
Import Double Wire.

Definition price_level (p q : double) : PriceLevel :=
  {| price := p; quantity := q |}.

(** *** The messages the server builds *)

(** Lines 100-119: the snapshot sent on SUBSCRIBE, with its fixture levels
    99.5 x 100, 99.0 x 200 (bids) and 100.0 x 150, 100.5 x 250 (asks). *)
Definition snapshot_update (id : string) : MarketDataUpdate :=
  snapshot {|
    snapshot_instrument_id := id;
    bids := [price_level (of_scaled 199 (-1)) (of_int 100);
             price_level (of_int 99) (of_int 200)];
    asks := [price_level (of_int 100) (of_int 150);
             price_level (of_scaled 201 (-1)) (of_int 250)]
  |}.

(** Lines 148-150: the snapshot sent on UNSUBSCRIBE carries the instrument
    id and no level. *)
Definition unsubscribe_update (id : string) : MarketDataUpdate :=
  snapshot {| snapshot_instrument_id := id; bids := []; asks := [] |}.

(** The literal [0.1]: the double nearest to one tenth. *)
Definition tenth : double := div (of_int 1) (of_int 10).

(** The value a 32-bit [int] holds for [z]: [z] itself from [-2^31] to
    [2^31 - 1], and its two's-complement wrap-around outside. *)
Definition to_int (z : Z) : Z :=
  (z + 2147483648) mod 4294967296 - 2147483648.

(** Lines 40-53: the update built by the producer after [update_count]
    increments of its counter (line 61).  The [int] of that name holds
    [to_int update_count]; products and sums of lines 49 and 53 are [int]
    arithmetic, and their results are converted to [double] by
    [set_quantity].  [%] truncates towards zero, as [Z.rem] does. *)
Definition incremental (id : string) (update_count : Z) : MarketDataUpdate :=
  let count := to_int update_count in
  let price_change :=
    if Z.rem count 2 =? 0 then tenth else opp tenth in
  incremental_update {|
    incremental_instrument_id := id;
    bid_updates := [price_level (add (of_int 99) price_change)
                                (of_int (to_int (200 + to_int (count * 10))))];
    ask_updates := [price_level (sub (of_int 100) price_change)
                                (of_int (to_int (150 + to_int (count * 5))))]
  |}.

(** *** Threads *)

(** Where a producer thread stands inside [StreamIncrementalUpdates]. *)
Inductive producer_pc : Type :=
| AtLoopTest   (* line 39, about to evaluate the loop condition *)
| AtWrite      (* lines 40-53 done, about to call [stream->Write], line 56 *)
| InWrite      (* inside [stream->Write], line 56 *)
| InSleep      (* inside [sleep_for], line 62 *)
| Finished.    (* the function has returned, line 66 *)

(** One [std::thread] of [update_threads] together with the thread of
    execution it owns.  [joinable] is [std::thread::joinable()]: true from
    construction until [join()], whether or not the function has returned.
    [update_count] is the number of times line 61 has incremented the
    [int] of that name, which holds [to_int] of it: the two are the same
    number until the [int] overflows, and everything the producer sends
    depends on the counter through [to_int] only ([incremental]). *)
Record thread : Type := {
  joinable : bool;
  pc : producer_pc;
  update_count : Z
}.

(** Where the thread running [Subscribe] stands. *)
Inductive loop_pc : Type :=
| AtRead                           (* line 90, inside [stream->Read] *)
| AtWriteSnapshot (id : string)    (* about to call [Write], line 121 *)
| InWriteSnapshot (id : string)    (* inside [Write], line 121 *)
| AtWriteAck (id : string)         (* about to call [Write], line 152 *)
| InWriteAck (id : string)         (* inside [Write], line 152 *)
| AtSignalAll                      (* line 163, read loop left *)
| AtJoin (pending : list string)   (* line 171, entries still to visit *)
| Returned.                        (* line 179 *)

Inductive writer : Type :=
| ReadLoop
| Producer (id : string).

(** What an observer of the connection sees. *)
Inductive event : Type :=
| Received (r : SubscriptionRequest)
| WriteBegin (w : writer) (m : MarketDataUpdate)
| WriteEnd (w : writer) (m : MarketDataUpdate) (ok : bool)
| ThreadStart (id : string)
| ThreadJoin (id : string).

(** The locals of one call of [Subscribe], the cancellation flag of its
    [ServerContext], and the history of the connection. *)
Record state : Type := {
  loop : loop_pc;
  update_threads : gmap string thread;
  stop_signals : gmap string bool;
  cancelled : bool;
  history : list event
}.

Definition initial : state :=
  {| loop := AtRead; update_threads := ∅; stop_signals := ∅;
     cancelled := false; history := [] |}.

Definition set_loop (l : loop_pc) (s : state) : state :=
  {| loop := l; update_threads := update_threads s;
     stop_signals := stop_signals s; cancelled := cancelled s;
     history := history s |}.

Definition set_threads (ts : gmap string thread) (s : state) : state :=
  {| loop := loop s; update_threads := ts;
     stop_signals := stop_signals s; cancelled := cancelled s;
     history := history s |}.

Definition set_stop_signals (ss : gmap string bool) (s : state) : state :=
  {| loop := loop s; update_threads := update_threads s;
     stop_signals := ss; cancelled := cancelled s;
     history := history s |}.

Definition set_cancelled (s : state) : state :=
  {| loop := loop s; update_threads := update_threads s;
     stop_signals := stop_signals s; cancelled := true;
     history := history s |}.

Definition record (e : event) (s : state) : state :=
  {| loop := loop s; update_threads := update_threads s;
     stop_signals := stop_signals s; cancelled := cancelled s;
     history := history s ++ [e] |}.

Definition set_pc (p : producer_pc) (t : thread) : thread :=
  {| joinable := joinable t; pc := p; update_count := update_count t |}.

(** *** The thread running [Subscribe] *)

(** [update_threads.find(id) != update_threads.end() &&
     update_threads.at(id).joinable()], the test of lines 98 and 140. *)
Definition streaming (s : state) (id : string) : bool :=
  match update_threads s !! id with
  | Some t => joinable t
  | None => false
  end.

(** Lines 91-160 up to the call of [Write]: [Read] has returned [r]. *)
Definition on_request (r : SubscriptionRequest) (s : state) : state :=
  let id := instrument_id r in
  match action r with
  | SUBSCRIBE =>
      if negb (streaming s id)
      then set_loop (AtWriteSnapshot id) s
      else s                       (* "Already streaming updates" *)
  | UNSUBSCRIBE =>
      let s' :=
        if streaming s id
        then set_stop_signals (<[id := true]> (stop_signals s)) s
        else s in
      set_loop (AtWriteAck id) s'
  end.

(** Lines 130-132, after the snapshot was written. *)
Definition start_thread (id : string) (s : state) : state :=
  let s1 := set_stop_signals (<[id := false]> (stop_signals s)) s in
  let t := {| joinable := true; pc := AtLoopTest; update_count := 0 |} in
  let s2 := set_threads (<[id := t]> (update_threads s1)) s1 in
  set_loop AtRead (record (ThreadStart id) s2).

Definition string_le (a b : string) : Prop := String.leb a b = true.

#[global] Instance string_le_dec (a b : string) : Decision (string_le a b).
Proof. unfold string_le. apply _. Defined.

(** The keys of [update_threads] in iteration order. *)
Definition thread_ids (ts : gmap string thread) : list string :=
  merge_sort string_le (map fst (map_to_list ts)).

(** Lines 166-168. *)
Definition signal_all (s : state) : state :=
  set_loop (AtJoin (thread_ids (update_threads s)))
    (set_stop_signals ((fun _ => true) <$> stop_signals s) s).

(** One pass of the loop at lines 171-175.  [join()] returns once the
    thread's function has returned; until then the pass cannot complete. *)
Definition join_next (id : string) (rest : list string)
    (s : state) : option state :=
  match update_threads s !! id with
  | Some t =>
      if joinable t then
        match pc t with
        | Finished =>
            let t' := {| joinable := false; pc := Finished;
                         update_count := update_count t |} in
            Some (set_loop (AtJoin rest)
                    (record (ThreadJoin id)
                       (set_threads (<[id := t']> (update_threads s)) s)))
        | _ => None
        end
      else Some (set_loop (AtJoin rest) s)
  | None => Some (set_loop (AtJoin rest) s)
  end.

(** *** A producer thread: [StreamIncrementalUpdates] *)

Definition set_thread (id : string) (t : thread) (s : state) : state :=
  set_threads (<[id := t]> (update_threads s)) s.

(** [stop_streaming.load()], through the reference taken at line 132. *)
Definition stop_requested (s : state) (id : string) : bool :=
  default false (stop_signals s !! id).

(** *** Steps *)

(** What the scheduler and the transport decide: which thread moves, what
    [Read] delivers, whether a [Write] succeeds. *)
Inductive label : Type :=
| Read (r : option SubscriptionRequest)   (* [Read] returns; [None]: false *)
| LoopWriteBegin
| LoopWriteEnd (ok : bool)
| SignalAll
| Join
| LoopReturn
| ProducerTest (id : string)
| ProducerWriteBegin (id : string)
| ProducerWriteEnd (id : string) (ok : bool)
| ProducerWake (id : string)
| Cancel.                                  (* the context becomes cancelled *)

(** One step of the thread running [Subscribe]: from a call of [Read],
    [Write] or [join] to the next. *)
Definition Subscribe (l : label) (s : state) : option state :=
  match l, loop s with
  | Read (Some r), AtRead => Some (on_request r (record (Received r) s))
  | Read None, AtRead => Some (set_loop AtSignalAll s)
  | LoopWriteBegin, AtWriteSnapshot id =>
      Some (set_loop (InWriteSnapshot id)
              (record (WriteBegin ReadLoop (snapshot_update id)) s))
  | LoopWriteBegin, AtWriteAck id =>
      Some (set_loop (InWriteAck id)
              (record (WriteBegin ReadLoop (unsubscribe_update id)) s))
  | LoopWriteEnd ok, InWriteSnapshot id =>
      let s1 := record (WriteEnd ReadLoop (snapshot_update id) ok) s in
      Some (if ok then start_thread id s1 else set_loop AtSignalAll s1)
  | LoopWriteEnd ok, InWriteAck id =>
      let s1 := record (WriteEnd ReadLoop (unsubscribe_update id) ok) s in
      Some (set_loop (if ok then AtRead else AtSignalAll) s1)
  | SignalAll, AtSignalAll => Some (signal_all s)
  | Join, AtJoin (id :: rest) => join_next id rest s
  | LoopReturn, AtJoin [] => Some (set_loop Returned s)
  | _, _ => None
  end.

(** One step of the thread running [StreamIncrementalUpdates] for [id].
    After a write that succeeded the counter is incremented (line 61):
    the number of increments goes up by one, and with it the [int], which
    is [to_int] of that number. *)
Definition StreamIncrementalUpdates (id : string) (l : label) (t : thread)
    (s : state) : option state :=
  match l, pc t with
  | ProducerTest _, AtLoopTest =>
      let next :=
        if negb (stop_requested s id) && negb (cancelled s)
        then AtWrite else Finished in
      Some (set_thread id (set_pc next t) s)
  | ProducerWriteBegin _, AtWrite =>
      Some (record (WriteBegin (Producer id) (incremental id (update_count t)))
              (set_thread id (set_pc InWrite t) s))
  | ProducerWriteEnd _ ok, InWrite =>
      let t' :=
        if ok
        then {| joinable := joinable t; pc := InSleep;
                update_count := update_count t + 1 |}
        else set_pc Finished t in
      Some (record (WriteEnd (Producer id) (incremental id (update_count t)) ok)
              (set_thread id t' s))
  | ProducerWake _, InSleep => Some (set_thread id (set_pc AtLoopTest t) s)
  | _, _ => None
  end.

Definition producer_of (l : label) : option string :=
  match l with
  | ProducerTest id | ProducerWriteBegin id
  | ProducerWriteEnd id _ | ProducerWake id => Some id
  | _ => None
  end.

Definition step (l : label) (s : state) : option state :=
  match l with
  | Cancel => Some (set_cancelled s)
  | _ =>
      match producer_of l with
      | Some id =>
          match update_threads s !! id with
          | Some t => StreamIncrementalUpdates id l t s
          | None => None
          end
      | None => Subscribe l s
      end
  end.

Fixpoint exec (ls : list label) (s : state) : option state :=
  match ls with
  | [] => Some s
  | l :: ls' =>
      match step l s with
      | Some s' => exec ls' s'
      | None => None
      end
  end.

(** *** Vocabulary for the statements *)

Definition reachable (s : state) : Prop :=
  exists ls, exec ls initial = Some s.

(** The producer of [id] exists and its function has not returned. *)
Definition live (s : state) (id : string) : bool :=
  match update_threads s !! id with
  | Some t => match pc t with Finished => false | _ => true end
  | None => false
  end.

(** [w] is inside a call of [stream->Write]. *)
Definition writing (s : state) (w : writer) : bool :=
  match w with
  | ReadLoop =>
      match loop s with
      | InWriteSnapshot _ | InWriteAck _ => true
      | _ => false
      end
  | Producer id =>
      match update_threads s !! id with
      | Some t => match pc t with InWrite => true | _ => false end
      | None => false
      end
  end.

(** [w] is about to call [stream->Write]. *)
Definition about_to_write (s : state) (w : writer) : bool :=
  match w with
  | ReadLoop =>
      match loop s with
      | AtWriteSnapshot _ | AtWriteAck _ => true
      | _ => false
      end
  | Producer id =>
      match update_threads s !! id with
      | Some t => match pc t with AtWrite => true | _ => false end
      | None => false
      end
  end.

Definition write_begin (w : writer) : label :=
  match w with
  | ReadLoop => LoopWriteBegin
  | Producer id => ProducerWriteBegin id
  end.

(** Labels of the thread running [Subscribe]. *)
Definition is_loop_label (l : label) : bool :=
  match l with
  | Read _ | LoopWriteBegin | LoopWriteEnd _
  | SignalAll | Join | LoopReturn => true
  | _ => false
  end.

Definition is_thread_start (id : string) (e : event) : bool :=
  match e with
  | ThreadStart id' => String.eqb id id'
  | _ => false
  end.

(** A write of the read loop that carries the snapshot with levels of an
    instrument (as opposed to the empty one of an unsubscription). *)
Definition is_snapshot_begin (id : string) (e : event) : bool :=
  match e with
  | WriteBegin ReadLoop (snapshot sn) =>
      String.eqb id (snapshot_instrument_id sn) &&
      match bids sn with [] => false | _ => true end
  | _ => false
  end.

Definition is_snapshot_sent (id : string) (e : event) : bool :=
  match e with
  | WriteEnd ReadLoop (snapshot sn) true =>
      String.eqb id (snapshot_instrument_id sn) &&
      match bids sn with [] => false | _ => true end
  | _ => false
  end.

Definition is_producer_event (e : event) : bool :=
  match e with
  | WriteBegin (Producer _) _ | WriteEnd (Producer _) _ _ => true
  | _ => false
  end.

(** The events of a history that are not writes of a producer: what the
    thread running [Subscribe] did, in order. *)
Definition loop_events (h : list event) : list event :=
  List.filter (fun e => negb (is_producer_event e)) h.

Definition instrument_of (m : MarketDataUpdate) : option string :=
  match m with
  | snapshot sn => Some (snapshot_instrument_id sn)
  | incremental_update u => Some (incremental_instrument_id u)
  | update_not_set => None
  end.

(** [m], written by [w], is the acknowledgement of an unsubscription from
    [id]: the empty snapshot for [id], written by the read loop. *)
Definition is_acknowledgement (id : string) (w : writer)
    (m : MarketDataUpdate) : bool :=
  match w, m with
  | ReadLoop, snapshot sn =>
      String.eqb id (snapshot_instrument_id sn) &&
      match bids sn, asks sn with [], [] => true | _, _ => false end
  | _, _ => false
  end.

(** Reading a history from its start: [waiting] holds the instruments
    whose UNSUBSCRIBE has been received and for which no message has been
    written since.  The first message for such an instrument has to be the
    acknowledgement; [None] records that it was something else. *)
Definition scan (st : option (list string)) (e : event) : option (list string) :=
  match st with
  | None => None
  | Some waiting =>
      match e with
      | Received r =>
          match action r with
          | UNSUBSCRIBE => Some (instrument_id r :: waiting)
          | SUBSCRIBE => Some waiting
          end
      | WriteBegin w m =>
          match instrument_of m with
          | Some id =>
              if existsb (String.eqb id) waiting then
                if is_acknowledgement id w m
                then Some (List.filter (fun j => negb (String.eqb id j)) waiting)
                else None
              else Some waiting
          | None => Some waiting
          end
      | _ => Some waiting
      end
  end.

(** In [h], every UNSUBSCRIBE received is followed, as the next message
    for its instrument, by its acknowledgement. *)
Definition acknowledged_first (h : list event) : bool :=
  match fold_left scan h (Some []) with
  | Some _ => true
  | None => false
  end.

(** The instruments waiting for their acknowledgement, as the program
    counter of the read loop tells. *)
Definition waiting_of (l : loop_pc) : list string :=
  match l with
  | AtWriteAck id => [id]
  | _ => []
  end.

Definition count (p : event -> bool) (h : list event) : nat :=
  length (List.filter p h).

(** *** What holds of every reachable state *)

(** A [std::thread] that has been joined. *)
Definition joined (t : thread) : Prop :=
  joinable t = false /\ pc t = Finished.

Definition all_joinable (s : state) : Prop :=
  forall id t, update_threads s !! id = Some t -> joinable t = true.

Definition all_signalled (s : state) : Prop :=
  forall id b, stop_signals s !! id = Some b -> b = true.

Definition threads_have_signals (s : state) : Prop :=
  forall id, is_Some (update_threads s !! id) -> is_Some (stop_signals s !! id).

(** Until line 171 no thread is joined, so every entry of [update_threads]
    is joinable; a snapshot is only written for an instrument without an
    entry; during the joins the entries not yet visited are the joinable
    ones. *)
Definition invariant (s : state) : Prop :=
  threads_have_signals s /\
  match loop s with
  | AtWriteSnapshot id | InWriteSnapshot id =>
      all_joinable s /\ update_threads s !! id = None
  | AtJoin pending =>
      NoDup pending /\ all_signalled s /\
      forall id t, update_threads s !! id = Some t ->
                   (joinable t = true /\ id ∈ pending) \/ joined t
  | Returned =>
      all_signalled s /\
      forall id t, update_threads s !! id = Some t -> joined t
  | AtRead | AtWriteAck _ | InWriteAck _ | AtSignalAll => all_joinable s
  end.

Definition started (s : state) (id : string) : nat :=
  match update_threads s !! id with Some _ => 1%nat | None => 0%nat end.

(** A producer is started exactly when a snapshot has been written, and
    once per entry of [update_threads]. *)
Definition history_invariant (s : state) : Prop :=
  forall id,
    count (is_thread_start id) (history s) = count (is_snapshot_sent id) (history s) /\
    count (is_thread_start id) (history s) = started s id.

(** How a producer that finds its stop signal set runs to its end, every
    [Write] still pending being allowed to succeed. *)
Definition drain (id : string) (p : producer_pc) : list label :=
  match p with
  | AtLoopTest => [ProducerTest id]
  | AtWrite => [ProducerWriteBegin id; ProducerWriteEnd id true;
                ProducerWake id; ProducerTest id]
  | InWrite => [ProducerWriteEnd id true; ProducerWake id; ProducerTest id]
  | InSleep => [ProducerWake id; ProducerTest id]
  | Finished => []
  end.

Definition drain_and_join (ts : gmap string thread) (id : string) : list label :=
  match ts !! id with
  | Some t => (if joinable t then drain id (pc t) else []) ++ [Join]
  | None => [Join]
  end.

(** A schedule that takes the connection from line 163 to line 179. *)
Definition teardown_schedule (s : state) : list label :=
  SignalAll ::
  flat_map (drain_and_join (update_threads s)) (thread_ids (update_threads s))
  ++ [LoopReturn].

End Server.

(** ** Concrete runs *)

Module Scenario.
Import Double StdMap Wire Client Server.

(** A client that has received the snapshot of a subscription to AAPL. *)
Definition subscribed_client : MarketDataClient :=
  process_update empty_client (snapshot_update "AAPL").

(** An incremental update that removes the bid at 99.0, names the bid at
    99.5 twice, removes the ask at 100.0 and names an ask that is not in
    the book with quantity 0. *)
Definition mixed_update : OrderBookIncrementalUpdate :=
  {| incremental_instrument_id := "AAPL";
     bid_updates := [price_level (of_int 99) zero;
                     price_level (of_scaled 199 (-1)) (of_int 300);
                     price_level (of_scaled 199 (-1)) (of_int 120)];
     ask_updates := [price_level (of_int 100) zero;
                     price_level (of_int 101) zero] |}.

(** A snapshot one of whose levels carries quantity 0. *)
Definition zero_level_snapshot : OrderBookSnapshot :=
  {| snapshot_instrument_id := "AAPL";
     bids := [price_level (of_scaled 199 (-1)) zero];
     asks := [] |}.

(** A snapshot with the same price twice on the bid side. *)
Definition repeated_snapshot : OrderBookSnapshot :=
  {| snapshot_instrument_id := "MSFT";
     bids := [price_level (of_int 99) (of_int 10);
              price_level (of_int 98) (of_int 20);
              price_level (of_int 99) (of_int 30)];
     asks := [price_level (of_int 100) (of_int 40)] |}.

(** An incremental update whose only bid level has a NaN price and
    quantity 0, and one whose only bid level has a NaN price and
    quantity 7. *)
Definition nan_removal : OrderBookIncrementalUpdate :=
  {| incremental_instrument_id := "AAPL";
     bid_updates := [price_level nan zero];
     ask_updates := [] |}.

Definition nan_overwrite : OrderBookIncrementalUpdate :=
  {| incremental_instrument_id := "AAPL";
     bid_updates := [price_level nan (of_int 7)];
     ask_updates := [] |}.

(** Three bids and then a level with a NaN price and quantity 0. *)
Definition cleared_by_nan : OrderBookIncrementalUpdate :=
  {| incremental_instrument_id := "AAPL";
     bid_updates := [price_level (of_int 1) (of_int 1);
                     price_level (of_int 2) (of_int 2);
                     price_level (of_int 3) (of_int 3);
                     price_level nan zero];
     ask_updates := [] |}.

(** A snapshot whose first bid has a NaN price. *)
Definition nan_snapshot : OrderBookSnapshot :=
  {| snapshot_instrument_id := "AAPL";
     bids := [price_level nan (of_int 1);
              price_level (of_int 2) (of_int 2)];
     asks := [] |}.

Definition subscribe (id : string) : label :=
  Read (Some {| action := SUBSCRIBE; instrument_id := id |}).

Definition unsubscribe (id : string) : label :=
  Read (Some {| action := UNSUBSCRIBE; instrument_id := id |}).

(** SUBSCRIBE AAPL is served: its producer is live. *)
Definition active_run : list label :=
  [subscribe "AAPL"; LoopWriteBegin; LoopWriteEnd true].

(** A producer of AAPL is inside [Write]; SUBSCRIBE MSFT has arrived and
    the read loop is about to write the snapshot. *)
Definition contended_run : list label :=
  [subscribe "AAPL"; LoopWriteBegin; LoopWriteEnd true;
   ProducerTest "AAPL"; ProducerWriteBegin "AAPL";
   subscribe "MSFT"].

(** SUBSCRIBE AAPL is served; UNSUBSCRIBE AAPL is acknowledged; the
    producer sees its stop signal and returns. *)
Definition stopped_run : list label :=
  [subscribe "AAPL"; LoopWriteBegin; LoopWriteEnd true;
   unsubscribe "AAPL"; LoopWriteBegin; LoopWriteEnd true;
   ProducerTest "AAPL"].

(** The same, and then SUBSCRIBE AAPL arrives again. *)
Definition resubscribe_run : list label :=
  stopped_run ++ [subscribe "AAPL"].

(** SUBSCRIBE AAPL is served and its producer passes the loop test;
    UNSUBSCRIBE AAPL arrives and sets the stop signal; the producer, past
    its test, writes its update; the read loop writes the acknowledgement. *)
Definition straggler_run : list label :=
  [subscribe "AAPL"; LoopWriteBegin; LoopWriteEnd true;
   ProducerTest "AAPL";
   unsubscribe "AAPL";
   ProducerWriteBegin "AAPL"; ProducerWriteEnd "AAPL" true;
   LoopWriteBegin; LoopWriteEnd true].

(** SUBSCRIBE AAPL is served, its producer passes the loop test and
    enters [Write]; SUBSCRIBE MSFT arrives and the read loop enters
    [Write] for the snapshot. *)
Definition overlapping_run : list label :=
  [subscribe "AAPL"; LoopWriteBegin; LoopWriteEnd true;
   ProducerTest "AAPL"; ProducerWriteBegin "AAPL";
   subscribe "MSFT"; LoopWriteBegin].

(** Two subscriptions served, one producer mid-pass, then the peer closes. *)
Definition closing_run : list label :=
  [subscribe "MSFT"; LoopWriteBegin; LoopWriteEnd true;
   subscribe "AAPL"; LoopWriteBegin; LoopWriteEnd true;
   ProducerTest "AAPL";
   Read None].

End Scenario.

(** ** The rest of the client: display and commands *)

Module ClientIO.
Import Double StdMap Wire Client.

(** A [double] as [operator<<] writes it under [std::fixed] and
    [setprecision(2)] (line 33): a sign and a number of hundredths, shown
    as [ddd.dd], or one of the words for an infinity and for a NaN (the
    sign that may precede the latter is not kept by [double]). *)
Inductive fixed_text : Type :=
| Hundredths (negative : bool) (n : Z)
| Infinity (negative : bool)
| NotANumber.

(** [n / 2^k] rounded to the nearest integer, a tie going to the even
    one, for [n >= 0] and [k > 0]. *)
Definition nearest_even (n k : Z) : Z :=
  let q := n / 2 ^ k in
  let r := n mod 2 ^ k in
  match 2 * r ?= 2 ^ k with
  | Lt => q
  | Gt => q + 1
  | Eq => if Z.even q then q else q + 1
  end.

(** The value [m * 2^e] has [m * 2^e * 100] hundredths, rounded to the
    nearest one when that is not an integer. *)
Definition fixed2 (x : double) : fixed_text :=
  match x with
  | S754_zero s => Hundredths s 0
  | S754_infinity s => Infinity s
  | S754_nan => NotANumber
  | S754_finite s m e =>
      Hundredths s (if 0 <=? e then Zpos m * 100 * 2 ^ e
                    else nearest_even (Zpos m * 100) (- e))
  end.

(** What the read loop writes to [std::cout].  A [Level] line shows a
    price and a quantity, each as [fixed2] gives it. *)
Inductive line : Type :=
| ReceivedSnapshot (instrument_id : string)      (* line 80 *)
| ReceivedIncremental (instrument_id : string)   (* line 98 *)
| Header (instrument_id : string)                (* line 32 *)
| AsksLabel                                      (* line 35 *)
| BidsLabel                                      (* line 41 *)
| Level (price quantity : fixed_text)            (* lines 38 and 44 *)
| Footer.                                        (* line 46 *)

(** What a [Level] line shows of a node. *)
Definition shown (e : double * double) : fixed_text * fixed_text :=
  (fixed2 e.1, fixed2 e.2).

(** The loops of lines 37-39 and 43-45: from [rbegin()] to [rend()]. *)
Definition levels_from_rbegin (side : std_map) : list line :=
  map (fun e => Level (fixed2 e.1) (fixed2 e.2)) (rev side).

(** Lines 29-47. *)
Definition PrintOrderBook (instrument_id : string)
    (bids asks : std_map) : list line :=
  Header instrument_id ::
  AsksLabel :: levels_from_rbegin asks ++
  BidsLabel :: levels_from_rbegin bids ++
  [Footer].

(** What one pass of the read loop prints: the notice of line 80 or 98 and
    the book of the message's instrument as the pass leaves it. *)
Definition printed (c : MarketDataClient) (update : MarketDataUpdate) : list line :=
  match update with
  | snapshot s =>
      let id := snapshot_instrument_id s in
      let c' := on_snapshot s c in
      ReceivedSnapshot id ::
      PrintOrderBook id (book (order_books_bids_ c') id)
                        (book (order_books_asks_ c') id)
  | incremental_update u =>
      let id := incremental_instrument_id u in
      let c' := on_incremental u c in
      ReceivedIncremental id ::
      PrintOrderBook id (book (order_books_bids_ c') id)
                        (book (order_books_asks_ c') id)
  | update_not_set => []
  end.

(** The [Level] lines between [AsksLabel] and [BidsLabel], and those after
    [BidsLabel], of one printed book. *)
Fixpoint levels_until_label (out : list line) : list (fixed_text * fixed_text) :=
  match out with
  | Level p q :: rest => (p, q) :: levels_until_label rest
  | _ => []
  end.

Fixpoint after_label (label : line -> bool) (out : list line) : list line :=
  match out with
  | [] => []
  | l :: rest => if label l then rest else after_label label rest
  end.

Definition printed_asks (out : list line) : list (fixed_text * fixed_text) :=
  levels_until_label
    (after_label (fun l => match l with AsksLabel => true | _ => false end) out).

Definition printed_bids (out : list line) : list (fixed_text * fixed_text) :=
  levels_until_label
    (after_label (fun l => match l with BidsLabel => true | _ => false end) out).


(** The command built at lines 60-62. *)
Definition subscribe_request (id : string) : SubscriptionRequest :=
  {| action := SUBSCRIBE; instrument_id := id |}.

(** Lines 58-71, the writer thread: one SUBSCRIBE per instrument, in the
    order of the list, until a write fails.  [outcome k] is what the
    [k]-th call of [stream_->Write] by this thread returns; the result
    lists the calls made, each with what it returned. *)
Fixpoint writer_thread (instrument_ids : list string)
    (outcome : nat -> bool) (k : nat) : list (SubscriptionRequest * bool) :=
  match instrument_ids with
  | [] => []
  | id :: rest =>
      if outcome k
      then (subscribe_request id, true) :: writer_thread rest outcome (S k)
      else [(subscribe_request id, false)]
  end.

(** Lines 136-151: nothing is written while [stream_] is null, and one
    UNSUBSCRIBE for the instrument otherwise. *)
Definition UnsubscribeFromMarketData (stream_ : bool)
    (instrument_id : string) : option SubscriptionRequest :=
  if stream_
  then Some {| action := UNSUBSCRIBE; instrument_id := instrument_id |}
  else None.

(** The instruments named by a list of updates. *)
Definition instruments (updates : list MarketDataUpdate) : gset string :=
  list_to_set (omap Server.instrument_of updates).

(** Every level of the message, on either side, has a quantity [> 0]. *)
Definition all_levels_positive (update : MarketDataUpdate) : Prop :=
  match update with
  | snapshot s => positive_quantities (bids s) /\ positive_quantities (asks s)
  | incremental_update u =>
      positive_quantities (bid_updates u) /\ positive_quantities (ask_updates u)
  | update_not_set => True
  end.

End ClientIO.

(** ** The connection seen from outside *)

Module Connection.
Import Double Wire Server Scenario.

(** The largest [update_count] for which [200 + update_count * 10] at line
    49 (and [150 + update_count * 5] at line 53) fits an [int]. *)
Definition max_update_count : Z := 214748344.

(** [e] is a write of the producer of [id]. *)
Definition of_producer (id : string) (e : event) : bool :=
  match e with
  | WriteBegin (Producer j) _ | WriteEnd (Producer j) _ _ => String.eqb id j
  | _ => false
  end.

Definition is_begin_of (id : string) (e : event) : bool :=
  match e with
  | WriteBegin (Producer j) _ => String.eqb id j
  | _ => false
  end.

(** The updates the producer of [id] has delivered ([Write] returned true),
    in order. *)
Fixpoint delivered (id : string) (h : list event) : list MarketDataUpdate :=
  match h with
  | [] => []
  | WriteEnd (Producer j) m true :: rest =>
      if String.eqb id j then m :: delivered id rest else delivered id rest
  | _ :: rest => delivered id rest
  end.

(** Every message written with success on the connection, by whichever
    thread, in the order in which the calls of [Write] returned. *)
Fixpoint sent (h : list event) : list MarketDataUpdate :=
  match h with
  | [] => []
  | WriteEnd _ m true :: rest => m :: sent rest
  | _ :: rest => sent rest
  end.

(** The value of the [int update_count] of a producer. *)
Definition int_update_count (t : thread) : Z := to_int (update_count t).

(** The update lines 45-53 build at [update_count = k] when no arithmetic
    of these lines overflows: the arithmetic is that of the integers. *)
Definition plain_update (id : string) (k : Z) : MarketDataUpdate :=
  incremental_update {|
    incremental_instrument_id := id;
    bid_updates :=
      [price_level (add (of_int 99) (if Z.rem k 2 =? 0 then tenth else opp tenth))
                   (of_int (200 + k * 10))];
    ask_updates :=
      [price_level (sub (of_int 100) (if Z.rem k 2 =? 0 then tenth else opp tenth))
                   (of_int (150 + k * 5))]
  |}.

(** The commands the read loop has received, in order. *)
Fixpoint received (h : list event) : list SubscriptionRequest :=
  match h with
  | [] => []
  | Received r :: rest => r :: received rest
  | _ :: rest => received rest
  end.

(** The messages the thread running [Subscribe] has written with success,
    in order: what [sent] holds apart from the producers' updates. *)
Fixpoint loop_sent (h : list event) : list MarketDataUpdate :=
  match h with
  | [] => []
  | WriteEnd ReadLoop m true :: rest => m :: loop_sent rest
  | _ :: rest => loop_sent rest
  end.

(** The instruments of the SUBSCRIBE commands among [rs]. *)
Fixpoint subscribed (rs : list SubscriptionRequest) : gset string :=
  match rs with
  | [] => ∅
  | r :: rest =>
      match action r with
      | SUBSCRIBE => {[instrument_id r]} ∪ subscribed rest
      | UNSUBSCRIBE => subscribed rest
      end
  end.

(** What a read loop with threads for the instruments [known] answers to
    the commands [rs] when its writes succeed: a snapshot for a SUBSCRIBE
    of an instrument without a thread, nothing for one with a thread, the
    acknowledgement for an UNSUBSCRIBE. *)
Fixpoint answers (known : gset string) (rs : list SubscriptionRequest)
    : list MarketDataUpdate :=
  match rs with
  | [] => []
  | r :: rest =>
      match action r with
      | SUBSCRIBE =>
          if decide (instrument_id r ∈ known) then answers known rest
          else snapshot_update (instrument_id r) ::
               answers ({[instrument_id r]} ∪ known) rest
      | UNSUBSCRIBE => unsubscribe_update (instrument_id r) :: answers known rest
      end
  end.

(** The read loop's messages follow from the commands it has received: at
    [Read] every command has been answered; before and inside a [Write]
    the message being written is the one answer still due. *)
Definition answered_at (l : loop_pc) (written : list MarketDataUpdate)
    (rs : list SubscriptionRequest) (known : gset string) : Prop :=
  match l with
  | AtRead => written = answers ∅ rs /\ known = subscribed rs
  | AtWriteSnapshot id | InWriteSnapshot id =>
      written ++ [snapshot_update id] = answers ∅ rs /\
      {[id]} ∪ known = subscribed rs /\ id ∉ known
  | AtWriteAck id | InWriteAck id =>
      written ++ [unsubscribe_update id] = answers ∅ rs /\
      known = subscribed rs
  | AtSignalAll | AtJoin _ | Returned => True
  end.

Definition answered (s : state) : Prop :=
  answered_at (loop s) (loop_sent (history s)) (received (history s))
              (dom (update_threads s)).

(** SUBSCRIBE AAPL is served and its producer delivers an update before
    SUBSCRIBE MSFT arrives and is served; SUBSCRIBE AAPL arrives again. *)
Definition interleaved_run : list label :=
  active_run ++
  [ProducerTest "AAPL"; ProducerWriteBegin "AAPL"; ProducerWriteEnd "AAPL" true;
   subscribe "MSFT"; LoopWriteBegin; ProducerWake "AAPL"; LoopWriteEnd true;
   subscribe "AAPL"].

(** The updates numbered [0] to [n - 1] of the producer of [id]. *)
Definition first_updates (id : string) (n : Z) : list MarketDataUpdate :=
  map (fun k => incremental id (Z.of_nat k)) (seq 0 (Z.to_nat n)).

(** One if the producer of [id] is at line 56, having built an update it
    has not begun to write. *)
Definition pending_write (s : state) (id : string) : nat :=
  match update_threads s !! id with
  | Some t => match pc t with AtWrite => 1%nat | _ => 0%nat end
  | None => 0%nat
  end.

(** The loop test of line 39 fails for the producer of [id]. *)
Definition stopping (s : state) (id : string) : bool :=
  stop_requested s id || cancelled s.

(** A write of the producer of [id] that returned false (line 56), or the
    join of its thread (line 173). *)
Definition is_end_of (id : string) (e : event) : bool :=
  match e with
  | WriteEnd (Producer j) _ false => String.eqb id j
  | ThreadJoin j => String.eqb id j
  | _ => false
  end.

(** The join of the thread of [id], line 173. *)
Definition is_thread_join (id : string) (e : event) : bool :=
  match e with
  | ThreadJoin j => String.eqb id j
  | _ => false
  end.

(** The thread running [Subscribe] is past its read loop. *)
Definition left_read_loop (l : loop_pc) : bool :=
  match l with
  | AtSignalAll | AtJoin _ | Returned => true
  | _ => false
  end.

(** What the thread running [Subscribe] records once past its read loop. *)
Definition is_join (e : event) : bool :=
  match e with
  | ThreadJoin _ => true
  | _ => false
  end.

(** In [h], every event satisfying [q] comes after one satisfying [p]. *)
Definition precedes (p q : event -> bool) (h : list event) : Prop :=
  forall h1 e h2, h = h1 ++ e :: h2 -> q e = true -> existsb p h1 = true.

(** In [h], no event satisfying [q] comes after one satisfying [p]. *)
Definition nothing_after (p q : event -> bool) (h : list event) : Prop :=
  forall h1 e h2, h = h1 ++ e :: h2 -> p e = true -> existsb q h2 = false.

(** One pass of the loop of lines 39-63 in which the write succeeds. *)
Definition pass (id : string) : list label :=
  [ProducerTest id; ProducerWriteBegin id; ProducerWriteEnd id true;
   ProducerWake id].

(** [n] such passes one after the other. *)
Fixpoint passes (id : string) (n : nat) : list label :=
  match n with
  | O => []
  | S n' => pass id ++ passes id n'
  end.

(** SUBSCRIBE AAPL is served; the producer's first write fails. *)
Definition broken_write_run : list label :=
  active_run ++
  [ProducerTest "AAPL"; ProducerWriteBegin "AAPL"; ProducerWriteEnd "AAPL" false].

(** The instruments of [ids] not in [known], each at its first place. *)
Fixpoint fresh_ids (known : gset string) (ids : list string) : list string :=
  match ids with
  | [] => []
  | id :: rest =>
      if decide (id ∈ known) then fresh_ids known rest
      else id :: fresh_ids ({[id]} ∪ known) rest
  end.

(** The steps of the thread running [Subscribe] that serve one command
    when every write succeeds: one pass of the loop of lines 90-160. *)
Definition serving (r : SubscriptionRequest) (s : state) : list label :=
  Read (Some r) ::
  match action r with
  | SUBSCRIBE =>
      if streaming s (instrument_id r) then []
      else [LoopWriteBegin; LoopWriteEnd true]
  | UNSUBSCRIBE => [LoopWriteBegin; LoopWriteEnd true]
  end.

(** The read loop over the commands [rs], no other thread moving. *)
Fixpoint serve (rs : list SubscriptionRequest) (s : state) : option state :=
  match rs with
  | [] => Some s
  | r :: rest =>
      match exec (serving r s) s with
      | Some s' => serve rest s'
      | None => None
      end
  end.

(** What the server puts on the wire: the snapshot of a subscription, the
    acknowledgement of an unsubscription, or an update of a producer
    numbered from 0 and below [bound]. *)
Definition server_message (bound : Z) (m : MarketDataUpdate) : Prop :=
  exists id,
    m = snapshot_update id \/ m = unsubscribe_update id \/
    exists n, 0 <= n < bound /\ m = incremental id n.

(** No producer of [s] has counted past the range of [int] arithmetic. *)
Definition within_int_range (s : state) : Prop :=
  forall id t, update_threads s !! id = Some t ->
               update_count t <= max_update_count.

End Connection.

(* ===================================================================== *)
(** * Part II: properties *)
(* ===================================================================== *)

(** ** [operator<] on doubles is a strict weak ordering away from NaN *)

Module DoubleFacts.
Import Double.

Lemma ltb_rank (a b : double) :
  ltb a b = true <->
  is_nan a = false /\ is_nan b = false /\ lex_lt (rank a) (rank b).
Proof.
  unfold ltb, SFltb.
  destruct a as [sa|sa| |sa ma ea], b as [sb|sb| |sb mb eb];
    try destruct sa; try destruct sb; cbn.
  all: try change (Pos.compare_cont Eq ma mb) with (Pos.compare ma mb).
  all: try destruct (Z.compare_spec ea eb);
    try destruct (Pos.compare_spec ma mb); cbn.
  all: (split; [ intros Hlt; try discriminate Hlt; repeat split; lia
               | intros (Ha & Hb & Hl); try discriminate; try reflexivity; lia ]).
Qed.

Lemma ltb_rank_false (a b : double) :
  ltb a b = false <->
  is_nan a = true \/ is_nan b = true \/ ~ lex_lt (rank a) (rank b).
Proof.
  rewrite <- not_true_iff_false, ltb_rank.
  destruct (is_nan a), (is_nan b); intuition congruence.
Qed.

(** Turn every comparison in sight into a statement on ranks and let [lia]
    decide. *)
Ltac by_rank :=
  repeat match goal with
    | H : ltb _ _ = true |- _ => rewrite ltb_rank in H
    | H : ltb _ _ = false |- _ => rewrite ltb_rank_false in H
    | |- ltb _ _ = true => rewrite ltb_rank
    | |- ltb _ _ = false => rewrite ltb_rank_false
    end;
  repeat match goal with
    | |- context [rank ?x] =>
        let t := fresh "t" in
        let E := fresh "E" in
        remember (rank x) as t eqn:E; clear E; destruct t as [[? ?] ?]
    | H : context [rank ?x] |- _ =>
        let t := fresh "t" in
        let E := fresh "E" in
        remember (rank x) as t eqn:E; clear E; destruct t as [[? ?] ?]
    end;
  unfold lex_lt in *;
  repeat match goal with
    | |- context [is_nan ?x] => destruct (is_nan x)
    | H : context [is_nan ?x] |- _ => destruct (is_nan x)
    end;
  intuition (try discriminate; try lia).

Lemma ltb_irrefl (a : double) : ltb a a = false.
Proof. by_rank. Qed.

Lemma ltb_trans (a b c : double) :
  ltb a b = true -> ltb b c = true -> ltb a c = true.
Proof. intros Hab Hbc. by_rank. Qed.

Lemma ltb_asym (a b : double) : ltb a b = true -> ltb b a = false.
Proof. intros Hab. by_rank. Qed.

(** Equivalent keys compare alike with any third key. *)
Lemma equiv_ltb_l (a b c : double) :
  is_nan a = false -> is_nan b = false ->
  ltb a b = false -> ltb b a = false -> ltb a c = ltb b c.
Proof.
  intros Ha Hb Hab Hba.
  destruct (ltb a c) eqn:Hac, (ltb b c) eqn:Hbc; try reflexivity; by_rank.
Qed.

Lemma equiv_ltb_r (a b c : double) :
  is_nan a = false -> is_nan b = false ->
  ltb a b = false -> ltb b a = false -> ltb c a = ltb c b.
Proof.
  intros Ha Hb Hab Hba.
  destruct (ltb c a) eqn:Hca, (ltb c b) eqn:Hcb; try reflexivity; by_rank.
Qed.

(** A quantity equal to 0 is not greater than 0. *)
Lemma eqb_zero_not_positive (q : double) :
  eqb q zero = true -> positive q = false.
Proof. destruct q as [[]|[]| |[] m e]; cbn; congruence. Qed.

Lemma equiv_false (a b : double) :
  equiv a b = false <-> ltb a b = true \/ ltb b a = true.
Proof. unfold equiv. destruct (ltb a b), (ltb b a); cbn; intuition congruence. Qed.

End DoubleFacts.

(** ** The map operations on the node list *)

Module StdMapFacts.
Import Double StdMap DoubleFacts.

Lemma wf_nil : wf [].
Proof. split; constructor. Qed.

Lemma wf_cons_inv (k v : double) (m : std_map) :
  wf ((k, v) :: m) ->
  wf m /\ is_nan k = false /\ Forall (fun e => ltb k e.1 = true) m.
Proof.
  intros [Hs Hn]. apply StronglySorted_inv in Hs as [Hs Hlt].
  inversion Hn; subst. repeat split; assumption.
Qed.

Lemma wf_cons (k v : double) (m : std_map) :
  wf m -> is_nan k = false -> Forall (fun e => ltb k e.1 = true) m ->
  wf ((k, v) :: m).
Proof.
  intros [Hs Hn] Hk Hlt. split; constructor; assumption.
Qed.

(** A key below every node of the map is not found. *)
Lemma find_below (p : double) (m : std_map) :
  Forall (fun e => ltb p e.1 = true) m -> find p m = None.
Proof.
  destruct m as [|[k v] tl]; [reflexivity|].
  intros Hall. inversion Hall as [|? ? Hp _]; subst. cbn in *.
  now rewrite (ltb_asym _ _ Hp), Hp.
Qed.

Lemma Forall_above_trans (a b : double) (m : std_map) :
  ltb a b = true ->
  Forall (fun e => ltb b e.1 = true) m -> Forall (fun e => ltb a e.1 = true) m.
Proof.
  intros Hab Hall. eapply Forall_impl; [exact Hall|].
  intros e He. exact (ltb_trans _ _ _ Hab He).
Qed.

Lemma Forall_above_equiv (a b : double) (m : std_map) :
  is_nan a = false -> is_nan b = false ->
  ltb a b = false -> ltb b a = false ->
  Forall (fun e => ltb b e.1 = true) m -> Forall (fun e => ltb a e.1 = true) m.
Proof.
  intros Ha Hb Hab Hba Hall. eapply Forall_impl; [exact Hall|].
  intros e He. cbn beta in *. now rewrite (equiv_ltb_l a b e.1).
Qed.

(** *** Reading back what was written *)

Lemma find_assign_same (k v : double) (m : std_map) :
  find k (assign k v m) = Some v.
Proof.
  induction m as [|[k' v'] tl IH]; cbn.
  - now rewrite ltb_irrefl.
  - destruct (ltb k' k) eqn:Hlt; cbn.
    + now rewrite Hlt.
    + destruct (ltb k k') eqn:Hgt; cbn.
      * now rewrite ltb_irrefl.
      * now rewrite Hlt, Hgt.
Qed.

(** *** [upper_bound] and [erase] *)

Lemma ltb_nan_l (a b : double) : is_nan a = true -> ltb a b = false.
Proof. destruct a; try discriminate. reflexivity. Qed.

Lemma ltb_nan_r (a b : double) : is_nan b = true -> ltb a b = false.
Proof. destruct b; try discriminate. now destruct a as [| | |[] ? ?]. Qed.

Lemma upper_bound_above (k : double) (m : std_map) :
  Forall (fun e => ltb k e.1 = true) m -> upper_bound k m = m.
Proof.
  destruct m as [|[k' v'] tl]; [reflexivity|].
  intros Hall. inversion Hall as [|? ? Hk' Htl]; subst. cbn in *.
  now rewrite Hk'.
Qed.

Lemma Forall_upper_bound (P : double * double -> Prop) (k : double)
    (m : std_map) :
  Forall P m -> Forall P (upper_bound k m).
Proof.
  induction m as [|[k' v'] tl IH]; cbn; intros Hall; [assumption|].
  destruct (ltb k k'); [assumption|]. inversion Hall; subst. auto.
Qed.

Lemma wf_upper_bound (k : double) (m : std_map) :
  wf m -> wf (upper_bound k m).
Proof.
  induction m as [|[k' v'] tl IH]; cbn; intros Hwf; [assumption|].
  destruct (ltb k k'); [assumption|].
  apply wf_cons_inv in Hwf as (Htl & _ & _). auto.
Qed.

(** The node of an equivalent key heads the range that [erase] removes;
    the range ends right after it. *)
Lemma erase_equivalent (k k' v' : double) (tl : std_map) :
  wf ((k', v') :: tl) -> is_nan k = false ->
  ltb k' k = false -> ltb k k' = false ->
  erase k ((k', v') :: tl) = tl.
Proof.
  intros Hwf Hk Hlt Hgt.
  apply wf_cons_inv in Hwf as (Htl & Hk' & Habove).
  cbn. rewrite Hlt, Hgt. apply upper_bound_above.
  now apply (Forall_above_equiv k k').
Qed.

Lemma find_erase_same (k : double) (m : std_map) :
  wf m -> is_nan k = false -> find k (erase k m) = None.
Proof.
  intros Hwf Hk. induction m as [|[k' v'] tl IH]; [reflexivity|].
  pose proof Hwf as Hwf'.
  apply wf_cons_inv in Hwf as (Htl & Hk' & Habove).
  destruct (ltb k' k) eqn:Hlt.
  - cbn. rewrite Hlt. cbn. rewrite Hlt. now apply IH.
  - destruct (ltb k k') eqn:Hgt.
    + cbn. rewrite Hlt, Hgt. cbn. now rewrite Hlt, Hgt.
    + rewrite erase_equivalent by assumption.
      apply find_below. now apply (Forall_above_equiv k k').
Qed.

(** Erasing a key that is not there leaves the map as it is. *)
Lemma erase_absent (k : double) (m : std_map) :
  find k m = None -> erase k m = m.
Proof.
  induction m as [|[k' v'] tl IH]; cbn; [reflexivity|].
  destruct (ltb k' k).
  - intros Hf. now rewrite IH.
  - destruct (ltb k k'); [reflexivity | discriminate].
Qed.

(** *** Other keys are left alone *)

Lemma find_assign_other (p k v : double) (m : std_map) :
  wf m -> is_nan k = false -> is_nan p = false -> equiv p k = false ->
  find p (assign k v m) = find p m.
Proof.
  intros Hwf Hk Hp Hne. apply equiv_false in Hne.
  induction m as [|[k' v'] tl IH]; cbn.
  - destruct Hne as [Hpk | Hkp].
    + now rewrite (ltb_asym _ _ Hpk), Hpk.
    + now rewrite Hkp.
  - apply wf_cons_inv in Hwf as (Htl & Hk' & Habove).
    destruct (ltb k' k) eqn:Hlt; cbn.
    + destruct (ltb k' p); [now apply IH | reflexivity].
    + destruct (ltb k k') eqn:Hgt; cbn.
      * destruct Hne as [Hpk | Hkp].
        -- rewrite (ltb_asym _ _ Hpk), Hpk.
           rewrite (ltb_asym _ _ (ltb_trans _ _ _ Hpk Hgt)).
           now rewrite (ltb_trans _ _ _ Hpk Hgt).
        -- now rewrite Hkp.
      * rewrite <- (equiv_ltb_l k k' p), <- (equiv_ltb_r k k' p) by assumption.
        destruct Hne as [Hpk | Hkp].
        -- now rewrite (ltb_asym _ _ Hpk), Hpk.
        -- now rewrite Hkp.
Qed.

Lemma find_erase_other (p k : double) (m : std_map) :
  wf m -> is_nan k = false -> is_nan p = false -> equiv p k = false ->
  find p (erase k m) = find p m.
Proof.
  intros Hwf Hk Hp Hne. apply equiv_false in Hne.
  induction m as [|[k' v'] tl IH]; [reflexivity|].
  pose proof Hwf as Hwf'.
  apply wf_cons_inv in Hwf as (Htl & Hk' & Habove).
  destruct (ltb k' k) eqn:Hlt.
  - cbn. rewrite Hlt. cbn.
    destruct (ltb k' p); [now apply IH | reflexivity].
  - destruct (ltb k k') eqn:Hgt.
    + cbn. now rewrite Hlt, Hgt.
    + rewrite erase_equivalent by assumption. cbn.
      rewrite <- (equiv_ltb_l k k' p), <- (equiv_ltb_r k k' p) by assumption.
      destruct Hne as [Hpk | Hkp].
      * rewrite (ltb_asym _ _ Hpk), Hpk. apply find_below.
        apply (Forall_above_trans p k); [assumption|].
        now apply (Forall_above_equiv k k').
      * now rewrite Hkp.
Qed.

(** *** The operations keep the representation invariant *)

Lemma assign_above (a k v : double) (m : std_map) :
  ltb a k = true ->
  Forall (fun e => ltb a e.1 = true) m ->
  Forall (fun e => ltb a e.1 = true) (assign k v m).
Proof.
  intros Hak. induction m as [|[k' v'] tl IH]; cbn; intros Hall.
  - now constructor.
  - inversion Hall as [|? ? Hk' Htl]; subst; cbn in Hk'.
    destruct (ltb k' k); [|destruct (ltb k k')];
      repeat constructor; auto.
Qed.

Lemma wf_assign (k v : double) (m : std_map) :
  wf m -> is_nan k = false -> wf (assign k v m).
Proof.
  intros Hwf Hk. induction m as [|[k' v'] tl IH]; cbn.
  - apply wf_cons; [apply wf_nil | assumption | constructor].
  - pose proof Hwf as Hwf'.
    apply wf_cons_inv in Hwf as (Htl & Hk' & Habove).
    destruct (ltb k' k) eqn:Hlt.
    + apply wf_cons; [now apply IH | assumption | now apply assign_above].
    + destruct (ltb k k') eqn:Hgt.
      * apply wf_cons; [assumption | assumption |].
        constructor; [exact Hgt | now apply (Forall_above_trans k k')].
      * now apply wf_cons.
Qed.

Lemma Forall_erase (P : double * double -> Prop) (k : double) (m : std_map) :
  Forall P m -> Forall P (erase k m).
Proof.
  induction m as [|[k' v'] tl IH]; intros Hall; [assumption|].
  change (erase k ((k', v') :: tl))
    with (if ltb k' k then (k', v') :: erase k tl
          else upper_bound k ((k', v') :: tl)).
  destruct (ltb k' k).
  - inversion Hall; subst. constructor; auto.
  - now apply Forall_upper_bound.
Qed.

Lemma erase_above (a k : double) (m : std_map) :
  Forall (fun e => ltb a e.1 = true) m ->
  Forall (fun e => ltb a e.1 = true) (erase k m).
Proof. apply Forall_erase. Qed.

Lemma wf_erase (k : double) (m : std_map) : wf m -> wf (erase k m).
Proof.
  intros Hwf. induction m as [|[k' v'] tl IH]; [assumption|].
  change (erase k ((k', v') :: tl))
    with (if ltb k' k then (k', v') :: erase k tl
          else upper_bound k ((k', v') :: tl)).
  destruct (ltb k' k).
  - apply wf_cons_inv in Hwf as (Htl & Hk' & Habove).
    apply wf_cons; [now apply IH | assumption | now apply erase_above].
  - now apply wf_upper_bound.
Qed.

(** *** Quantities *)

Lemma all_positive_assign (k v : double) (m : std_map) :
  positive v = true -> all_positive m -> all_positive (assign k v m).
Proof.
  intros Hv. unfold all_positive.
  induction m as [|[k' v'] tl IH]; cbn; intros Hall.
  - now repeat constructor.
  - inversion Hall; subst.
    destruct (ltb k' k); [|destruct (ltb k k')];
      repeat constructor; auto.
Qed.

Lemma all_positive_erase (k : double) (m : std_map) :
  all_positive m -> all_positive (erase k m).
Proof. apply Forall_erase. Qed.

(** *** The nodes after an operation *)

Lemma assign_nodes (k v : double) (m : std_map) :
  Forall (fun e => e.2 = v \/ In e m) (assign k v m).
Proof.
  induction m as [|[k' v'] tl IH]; cbn [assign].
  - constructor; [now left | constructor].
  - assert (Htl : Forall (fun e => e.2 = v \/ In e ((k', v') :: tl)) tl).
    { apply Forall_forall. intros e He. right. right.
      now apply list_elem_of_In. }
    destruct (ltb k' k); [|destruct (ltb k k')].
    + constructor; [right; now left|].
      eapply Forall_impl; [exact IH|]. intros e [? | ?]; [now left|].
      right. now right.
    + constructor; [now left|]. constructor; [right; now left | exact Htl].
    + constructor; [now left | exact Htl].
Qed.

Lemma erase_nodes (k : double) (m : std_map) :
  Forall (fun e => In e m) (erase k m).
Proof.
  apply Forall_erase. apply Forall_forall. intros e He.
  now apply list_elem_of_In.
Qed.

(** Looking up a key and looking up an equivalent one is the same. *)
Lemma find_equiv (p k : double) (m : std_map) :
  is_nan p = false -> is_nan k = false -> equiv p k = true ->
  find p m = find k m.
Proof.
  intros Hp Hk He. unfold equiv in He.
  apply andb_prop in He as [Hpk Hkp].
  apply negb_true_iff in Hpk, Hkp.
  induction m as [|[k' v'] tl IH]; cbn; [reflexivity|].
  rewrite (equiv_ltb_r p k k'), (equiv_ltb_l p k k') by assumption.
  now rewrite IH.
Qed.

(** *** The maps the operations build *)

Lemma built_nil : built [].
Proof. left. apply wf_nil. Qed.

Lemma built_assign (k v : double) (m : std_map) :
  built m -> built (assign k v m).
Proof.
  intros [Hwf | (k0 & v0 & Hk0 & ->)].
  - destruct (is_nan k) eqn:Hk; [|left; now apply wf_assign].
    destruct m as [|[k' v'] tl]; cbn.
    + right. eauto.
    + rewrite (ltb_nan_r k' k Hk), (ltb_nan_l k k' Hk). left.
      apply wf_cons_inv in Hwf as (Htl & Hk' & Habove). now apply wf_cons.
  - right. cbn. rewrite (ltb_nan_l k0 k Hk0), (ltb_nan_r k k0 Hk0). eauto.
Qed.

Lemma built_erase (k : double) (m : std_map) : built m -> built (erase k m).
Proof.
  intros [Hwf | (k0 & v0 & Hk0 & ->)]; left.
  - now apply wf_erase.
  - cbn. rewrite (ltb_nan_l k0 k Hk0), (ltb_nan_r k k0 Hk0). apply wf_nil.
Qed.

(** A NaN key is found at the first node of a map without NaN keys, and
    erasing it removes every node. *)
Lemma erase_nan (k : double) (m : std_map) :
  is_nan k = true -> erase k m = [].
Proof.
  intros Hk. destruct m as [|[k' v'] tl]; [reflexivity|].
  cbn. rewrite (ltb_nan_r k' k Hk), (ltb_nan_l k k' Hk).
  induction tl as [|[k2 v2] tl IH]; cbn; [reflexivity|].
  now rewrite (ltb_nan_l k k2 Hk).
Qed.

End StdMapFacts.

(** ** The reconciler *)

Module ClientSpec.
Import Double StdMap Wire Client DoubleFacts StdMapFacts.
Import Server (price_level, snapshot_update, unsubscribe_update, incremental).
Import Scenario.

(** *** [operator[]] on the outer map *)

Lemma book_insert (id : string) (m : std_map) (books : gmap string std_map) :
  book (<[id := m]> books) id = m.
Proof. unfold book. now rewrite lookup_insert_eq. Qed.

Lemma book_absent (id : string) (books : gmap string std_map) :
  books !! id = None -> book books id = [].
Proof. intros Hid. unfold book. now rewrite Hid. Qed.

Lemma incremental_level_subscript (id : string) (books : gmap string std_map)
    (level : PriceLevel) :
  incremental_level id books level =
  subscript id (fun m => level_step m level) books.
Proof.
  unfold incremental_level, level_step, subscript.
  now destruct (positive (quantity level)).
Qed.

(** *** The loops over the levels of a message *)

(** After its loop and the call to [PrintOrderBook], a side of an
    incremental update holds, for the instrument, the levels folded into
    the book the instrument had (the empty one if it had none); the other
    instruments keep their entries. *)
Lemma incremental_side (id : string) (levels : list PriceLevel)
    (books : gmap string std_map) :
  print_argument id (fold_left (incremental_level id) levels books) =
  <[id := apply_levels levels (book books id)]> books.
Proof.
  revert books. induction levels as [|level rest IH]; intros books; cbn.
  - reflexivity.
  - rewrite IH, incremental_level_subscript. unfold subscript.
    rewrite book_insert. apply insert_insert_eq.
Qed.

Lemma snapshot_side_from (id : string) (levels : list PriceLevel)
    (m : std_map) (books : gmap string std_map) :
  print_argument id (fold_left (snapshot_level id) levels (<[id := m]> books)) =
  <[id := fold_left (fun m level => assign (price level) (quantity level) m)
                    levels m]> books.
Proof.
  revert m books. induction levels as [|level rest IH]; intros m books; cbn.
  - unfold print_argument, subscript. rewrite lookup_insert_eq. cbn.
    apply insert_insert_eq.
  - unfold snapshot_level at 2, subscript. rewrite lookup_insert_eq. cbn.
    rewrite insert_insert_eq. apply IH.
Qed.

Lemma snapshot_side (id : string) (levels : list PriceLevel)
    (books : gmap string std_map) :
  print_argument id
    (fold_left (snapshot_level id) levels (subscript id clear books)) =
  <[id := build_side levels]> books.
Proof. apply snapshot_side_from. Qed.

Lemma on_incremental_eq (u : OrderBookIncrementalUpdate) (c : MarketDataClient) :
  on_incremental u c =
  {| order_books_bids_ :=
       <[incremental_instrument_id u :=
           apply_levels (bid_updates u)
             (book (order_books_bids_ c) (incremental_instrument_id u))]>
         (order_books_bids_ c);
     order_books_asks_ :=
       <[incremental_instrument_id u :=
           apply_levels (ask_updates u)
             (book (order_books_asks_ c) (incremental_instrument_id u))]>
         (order_books_asks_ c) |}.
Proof. unfold on_incremental. cbn zeta. now rewrite !incremental_side. Qed.

Lemma on_snapshot_eq (s : OrderBookSnapshot) (c : MarketDataClient) :
  on_snapshot s c =
  {| order_books_bids_ :=
       <[snapshot_instrument_id s := build_side (bids s)]> (order_books_bids_ c);
     order_books_asks_ :=
       <[snapshot_instrument_id s := build_side (asks s)]> (order_books_asks_ c) |}.
Proof. unfold on_snapshot. cbn zeta. now rewrite !snapshot_side. Qed.

(** *** One level, then a list of levels, on one inner map *)

Lemma wf_level_step (m : std_map) (level : PriceLevel) :
  wf m -> is_nan (price level) = false -> wf (level_step m level).
Proof.
  intros Hwf Hp. unfold level_step.
  destruct (positive (quantity level)); [now apply wf_assign | now apply wf_erase].
Qed.

Lemma wf_apply_levels (levels : list PriceLevel) (m : std_map) :
  wf m -> ordered_prices levels -> wf (apply_levels levels m).
Proof.
  revert m. induction levels as [|level rest IH]; intros m Hwf Hord; cbn.
  - assumption.
  - inversion Hord; subst. apply IH; [now apply wf_level_step | assumption].
Qed.

Lemma wf_build_side (levels : list PriceLevel) :
  ordered_prices levels -> wf (build_side levels).
Proof.
  unfold build_side. generalize wf_nil. generalize (@nil (double * double)).
  induction levels as [|level rest IH]; intros m Hwf Hord; cbn.
  - assumption.
  - inversion Hord; subst. apply IH; [now apply wf_assign | assumption].
Qed.

Lemma apply_levels_app (before after : list PriceLevel) (m : std_map) :
  apply_levels (before ++ after) m = apply_levels after (apply_levels before m).
Proof. apply fold_left_app. Qed.

(** What one level leaves at its own price. *)
Lemma find_level_step (m : std_map) (level : PriceLevel) :
  wf m -> is_nan (price level) = false ->
  find (price level) (level_step m level) =
  if positive (quantity level) then Some (quantity level) else None.
Proof.
  intros Hwf Hp. unfold level_step. destruct (positive (quantity level)).
  - apply find_assign_same.
  - now apply find_erase_same.
Qed.

(** A level leaves the other prices as they were. *)
Lemma find_level_step_other (p : double) (m : std_map) (level : PriceLevel) :
  wf m -> is_nan (price level) = false -> is_nan p = false ->
  equiv p (price level) = false ->
  find p (level_step m level) = find p m.
Proof.
  intros Hwf Hk Hp Hne. unfold level_step. destruct (positive (quantity level)).
  - now apply find_assign_other.
  - now apply find_erase_other.
Qed.

Lemma find_apply_levels_other (p : double) (levels : list PriceLevel) (m : std_map) :
  wf m -> ordered_prices levels -> is_nan p = false ->
  Forall (fun level => equiv p (price level) = false) levels ->
  find p (apply_levels levels m) = find p m.
Proof.
  revert m. induction levels as [|level rest IH]; intros m Hwf Hord Hp Hne; cbn.
  - reflexivity.
  - inversion Hord; subst. inversion Hne; subst.
    rewrite IH by (try apply wf_level_step; assumption).
    now apply find_level_step_other.
Qed.

(** The last entry of a list for a price decides what is found there. *)
Lemma find_apply_levels_last (before after : list PriceLevel)
    (level : PriceLevel) (m : std_map) :
  wf m -> ordered_prices (before ++ level :: after) ->
  Forall (fun later => equiv (price level) (price later) = false) after ->
  find (price level) (apply_levels (before ++ level :: after) m) =
  if positive (quantity level) then Some (quantity level) else None.
Proof.
  intros Hwf Hord Hlater.
  apply Forall_app in Hord as [Hbefore Hrest].
  inversion Hrest as [|? ? Hp Hafter]; subst.
  rewrite apply_levels_app. cbn.
  assert (Hwf1 : wf (apply_levels before m)) by now apply wf_apply_levels.
  rewrite find_apply_levels_other
    by (try apply wf_level_step; assumption).
  now apply find_level_step.
Qed.

(** *** The representation invariant along the read loop *)

Lemma wf_book (books : gmap string std_map) (id : string) :
  (forall i m, books !! i = Some m -> wf m) -> wf (book books id).
Proof.
  intros Hwf. unfold book. destruct (books !! id) eqn:Hid; cbn.
  - now apply (Hwf id).
  - apply wf_nil.
Qed.

Lemma lookup_insert_all (P : std_map -> Prop) (id : string) (m : std_map)
    (books : gmap string std_map) :
  P m -> (forall i x, books !! i = Some x -> P x) ->
  forall i x, <[id := m]> books !! i = Some x -> P x.
Proof.
  intros Hm Hall i x. destruct (decide (id = i)) as [->|Hne].
  - rewrite lookup_insert_eq. now intros [= <-].
  - rewrite lookup_insert_ne by assumption. apply Hall.
Qed.

Lemma client_wf_process_update (c : MarketDataClient) (update : MarketDataUpdate) :
  client_wf c -> ordered_update update -> client_wf (process_update c update).
Proof.
  intros [Hb Ha] Hord. destruct update as [s|u|]; cbn in *.
  - destruct Hord as [Hob Hoa]. rewrite on_snapshot_eq.
    split; cbn; apply lookup_insert_all; auto using wf_build_side.
  - destruct Hord as [Hob Hoa]. rewrite on_incremental_eq.
    split; cbn; apply lookup_insert_all; auto using wf_apply_levels, wf_book.
  - now split.
Qed.

Lemma client_wf_read_loop (updates : list MarketDataUpdate) (c : MarketDataClient) :
  client_wf c -> Forall ordered_update updates -> client_wf (SubscribeToMarketData updates c).
Proof.
  revert c. induction updates as [|update rest IH]; intros c Hwf Hord; cbn.
  - assumption.
  - inversion Hord; subst. apply IH; [now apply client_wf_process_update | assumption].
Qed.

Lemma client_wf_empty : client_wf empty_client.
Proof. split; intros id m; cbn; rewrite lookup_empty; discriminate. Qed.

(** *** The maps the client holds, whatever it receives *)

Lemma built_level_step (m : std_map) (level : PriceLevel) :
  built m -> built (level_step m level).
Proof.
  intros Hm. unfold level_step.
  destruct (positive (quantity level)); [now apply built_assign | now apply built_erase].
Qed.

Lemma built_apply_levels (levels : list PriceLevel) (m : std_map) :
  built m -> built (apply_levels levels m).
Proof.
  revert m. induction levels as [|level rest IH]; intros m Hm; cbn; [assumption|].
  apply IH. now apply built_level_step.
Qed.

Lemma built_build_side (levels : list PriceLevel) : built (build_side levels).
Proof.
  unfold build_side. generalize built_nil. generalize (@nil (double * double)).
  induction levels as [|level rest IH]; intros m Hm; cbn; [assumption|].
  apply IH. now apply built_assign.
Qed.

Lemma built_book (books : gmap string std_map) (id : string) :
  (forall i m, books !! i = Some m -> built m) -> built (book books id).
Proof.
  intros Hall. unfold book. destruct (books !! id) eqn:Hid; cbn.
  - now apply (Hall id).
  - apply built_nil.
Qed.

(** Every side of every instrument is a map on which the list and the
    container's search agree ([built]), whatever the messages received
    carry: the representation loses nothing along the read loop. *)
Lemma sides_built (updates : list MarketDataUpdate) :
  let c := SubscribeToMarketData updates empty_client in
  (forall id m, order_books_bids_ c !! id = Some m -> built m) /\
  (forall id m, order_books_asks_ c !! id = Some m -> built m).
Proof.
  cbn zeta.
  assert (Hstart :
    (forall id m, order_books_bids_ empty_client !! id = Some m -> built m) /\
    (forall id m, order_books_asks_ empty_client !! id = Some m -> built m)).
  { split; intros id m; cbn; rewrite lookup_empty; discriminate. }
  revert Hstart. generalize empty_client.
  induction updates as [|update rest IH]; intros c Hc; [exact Hc|].
  change (SubscribeToMarketData (update :: rest) c)
    with (SubscribeToMarketData rest (process_update c update)).
  apply IH. destruct Hc as [Hb Ha].
  destruct update as [s|u|]; cbn [process_update]; [| |now split].
  - rewrite on_snapshot_eq. cbn [order_books_bids_ order_books_asks_].
    split; apply lookup_insert_all; auto using built_build_side.
  - rewrite on_incremental_eq. cbn [order_books_bids_ order_books_asks_].
    split; apply lookup_insert_all;
      auto using built_apply_levels, built_book.
Qed.

(** *** Quantities along the read loop *)

Lemma all_positive_level_step (m : std_map) (level : PriceLevel) :
  all_positive m -> all_positive (level_step m level).
Proof.
  intros Hm. unfold level_step. destruct (positive (quantity level)) eqn:Hq.
  - now apply all_positive_assign.
  - now apply all_positive_erase.
Qed.

Lemma all_positive_apply_levels (levels : list PriceLevel) (m : std_map) :
  all_positive m -> all_positive (apply_levels levels m).
Proof.
  revert m. induction levels as [|level rest IH]; intros m Hm; cbn.
  - assumption.
  - apply IH. now apply all_positive_level_step.
Qed.

Lemma all_positive_build_side (levels : list PriceLevel) :
  positive_quantities levels -> all_positive (build_side levels).
Proof.
  unfold build_side.
  assert (Hnil : all_positive []) by constructor.
  revert Hnil. generalize (@nil (double * double)).
  induction levels as [|level rest IH]; intros m Hm Hpos; cbn.
  - assumption.
  - inversion Hpos; subst. apply IH; [now apply all_positive_assign | assumption].
Qed.

Lemma all_positive_book (books : gmap string std_map) (id : string) :
  (forall i m, books !! i = Some m -> all_positive m) ->
  all_positive (book books id).
Proof.
  intros Hall. unfold book. destruct (books !! id) eqn:Hid; cbn.
  - now apply (Hall id).
  - constructor.
Qed.

Lemma no_empty_level_process_update (c : MarketDataClient)
    (update : MarketDataUpdate) :
  no_empty_level c -> snapshot_positive update ->
  no_empty_level (process_update c update).
Proof.
  intros [Hb Ha] Hpos. destruct update as [s|u|]; cbn in *.
  - destruct Hpos as [Hpb Hpa]. rewrite on_snapshot_eq.
    split; cbn; apply lookup_insert_all; auto using all_positive_build_side.
  - rewrite on_incremental_eq.
    split; cbn; apply lookup_insert_all;
      auto using all_positive_apply_levels, all_positive_book.
  - now split.
Qed.

(** *** The claims *)

Lemma apply_incremental_last (c : MarketDataClient)
    (u : OrderBookIncrementalUpdate) :
  client_wf c ->
  ordered_prices (bid_updates u) -> ordered_prices (ask_updates u) ->
  let id := incremental_instrument_id u in
  let c' := on_incremental u c in
  (forall before level after,
     bid_updates u = before ++ level :: after ->
     Forall (fun later => equiv (price level) (price later) = false) after ->
     find (price level) (book (order_books_bids_ c') id) =
     if positive (quantity level) then Some (quantity level) else None) /\
  (forall before level after,
     ask_updates u = before ++ level :: after ->
     Forall (fun later => equiv (price level) (price later) = false) after ->
     find (price level) (book (order_books_asks_ c') id) =
     if positive (quantity level) then Some (quantity level) else None).
Proof.
  intros [Hwb Hwa] Hob Hoa id c'. subst c'.
  rewrite on_incremental_eq. cbn [order_books_bids_ order_books_asks_].
  fold id. rewrite !book_insert.
  split; intros before level after Heq Hlater; rewrite Heq in *;
    apply find_apply_levels_last; auto using wf_book.
Qed.

(** C1, as stated, does not hold of a level whose price is NaN.  [operator<]
    is false of a NaN on either side, so the container takes a NaN for
    equivalent to every key.  With quantity 0 such a level removes every
    level of its side, none of which has its price, where the claim has the
    book unchanged; with a quantity greater than 0 it overwrites the
    quantity at the lowest price of the side and no level with its price
    is inserted. *)
Lemma C1_counterexample :
  book (order_books_bids_ subscribed_client) "AAPL" =
    [(of_int 99, of_int 200); (of_scaled 199 (-1), of_int 100)] /\
  book (order_books_bids_
          (process_update subscribed_client (incremental_update nan_removal)))
       "AAPL" = [] /\
  book (order_books_bids_
          (process_update subscribed_client (incremental_update nan_overwrite)))
       "AAPL" = [(of_int 99, of_int 7); (of_scaled 199 (-1), of_int 100)] /\
  book (order_books_bids_
          (process_update empty_client (incremental_update cleared_by_nan)))
       "AAPL" = [].
Proof. repeat split. Qed.

(** C1, amended.  When no price received is NaN, in the messages before or
    in the update itself, an incremental update is applied to each side of
    its instrument's book level by level, in the order of the message.  On
    the resulting side, the price of a level that no later level of the
    same list repeats is found with the level's quantity when that
    quantity is greater than 0 and is not found otherwise, so the last
    entry for a price decides.  Taken alone, a level with a quantity
    greater than 0 leaves its price present with exactly that quantity
    whatever the book held; a level with quantity 0 and a price that is
    not NaN leaves its price absent, and does not change the book at all
    when the price was absent already. *)
Theorem C1_apply_incremental (received : list MarketDataUpdate)
    (u : OrderBookIncrementalUpdate) :
  Forall ordered_update received ->
  ordered_prices (bid_updates u) -> ordered_prices (ask_updates u) ->
  let id := incremental_instrument_id u in
  let c := SubscribeToMarketData received empty_client in
  let c' := process_update c (incremental_update u) in
  (order_books_bids_ c' !! id =
     Some (apply_levels (bid_updates u) (book (order_books_bids_ c) id)) /\
   order_books_asks_ c' !! id =
     Some (apply_levels (ask_updates u) (book (order_books_asks_ c) id))) /\
  (forall m level rest,
     apply_levels (level :: rest) m = apply_levels rest (level_step m level)) /\
  (forall before level after,
     bid_updates u = before ++ level :: after ->
     Forall (fun later => equiv (price level) (price later) = false) after ->
     find (price level) (book (order_books_bids_ c') id) =
     if positive (quantity level) then Some (quantity level) else None) /\
  (forall before level after,
     ask_updates u = before ++ level :: after ->
     Forall (fun later => equiv (price level) (price later) = false) after ->
     find (price level) (book (order_books_asks_ c') id) =
     if positive (quantity level) then Some (quantity level) else None) /\
  (forall m level,
     positive (quantity level) = true ->
     find (price level) (level_step m level) = Some (quantity level)) /\
  (forall level,
     is_nan (price level) = false -> eqb (quantity level) zero = true ->
     (find (price level) (level_step (book (order_books_bids_ c) id) level) = None /\
      find (price level) (level_step (book (order_books_asks_ c) id) level) = None) /\
     (forall m, find (price level) m = None -> level_step m level = m)).
Proof.
  intros Hreceived Hob Hoa id c c'.
  assert (Hwf : client_wf c)
    by (apply client_wf_read_loop; [apply client_wf_empty | assumption]).
  destruct (apply_incremental_last c u Hwf Hob Hoa) as [Hbids Hasks].
  subst c'. cbn [process_update].
  split.
  { rewrite on_incremental_eq. cbn [order_books_bids_ order_books_asks_].
    fold id. rewrite !lookup_insert_eq. split; reflexivity. }
  split; [reflexivity|].
  split; [exact Hbids|]. split; [exact Hasks|]. split.
  - intros m level Hq. unfold level_step. rewrite Hq. apply find_assign_same.
  - intros level Hp Hq. unfold level_step.
    rewrite (eqb_zero_not_positive _ Hq).
    destruct Hwf as [Hwb Hwa]. split; [split|].
    + apply find_erase_same; auto using wf_book.
    + apply find_erase_same; auto using wf_book.
    + intros m. apply erase_absent.
Qed.

Lemma C1_apply_incremental_witness :
  find (of_scaled 199 (-1))
    (book (order_books_bids_
             (process_update (SubscribeToMarketData [snapshot_update "AAPL"] empty_client)
                (incremental_update mixed_update)))
          "AAPL")
  = Some (of_int 120).
Proof.
  assert (Hreceived : Forall ordered_update [snapshot_update "AAPL"])
    by (repeat constructor).
  assert (Hbids : ordered_prices (bid_updates mixed_update))
    by (repeat constructor).
  assert (Hasks : ordered_prices (ask_updates mixed_update))
    by (repeat constructor).
  pose proof (C1_apply_incremental [snapshot_update "AAPL"] mixed_update
                Hreceived Hbids Hasks) as (_ & _ & Hlast & _).
  exact (Hlast [price_level (of_int 99) zero;
                price_level (of_scaled 199 (-1)) (of_int 300)]
               (price_level (of_scaled 199 (-1)) (of_int 120))
               [] eq_refl (Forall_nil_2 _)).
Defined.

(** What the books look like along the way. *)
Example fixture_bids :
  order_books_bids_ subscribed_client !! "AAPL"
  = Some [(of_int 99, of_int 200); (of_scaled 199 (-1), of_int 100)].
Proof. reflexivity. Qed.

Example mixed_update_books :
  let c := process_update subscribed_client (incremental_update mixed_update) in
  order_books_bids_ c !! "AAPL" = Some [(of_scaled 199 (-1), of_int 120)] /\
  order_books_asks_ c !! "AAPL" = Some [(of_scaled 201 (-1), of_int 250)].
Proof. split; reflexivity. Qed.

Example repeated_snapshot_books :
  let c := process_update subscribed_client (snapshot repeated_snapshot) in
  order_books_bids_ c !! "MSFT"
    = Some [(of_int 98, of_int 20); (of_int 99, of_int 30)] /\
  order_books_bids_ c !! "AAPL" = order_books_bids_ subscribed_client !! "AAPL" /\
  process_update c (snapshot repeated_snapshot) = c.
Proof. repeat split. Qed.

(** C5, as stated, does not hold: an incremental update for an instrument
    the client has no book for is applied, not discarded, and leaves an
    entry for the instrument on both sides. *)
Lemma C5_counterexample :
  order_books_bids_ empty_client !! "AAPL" = None /\
  order_books_asks_ empty_client !! "AAPL" = None /\
  order_books_bids_ (process_update empty_client (incremental "AAPL" 0)) !! "AAPL"
    = Some [(add (of_int 99) Server.tenth, of_int 200)] /\
  order_books_asks_ (process_update empty_client (incremental "AAPL" 0)) !! "AAPL"
    = Some [(sub (of_int 100) Server.tenth, of_int 150)].
Proof. repeat split. Qed.

(** C5, amended.  An incremental update for an instrument without a book
    is applied to an empty book created for it: afterwards the instrument
    has an entry on each side, holding the levels of the message folded
    into the empty map; the entries of the other instruments are the ones
    the client had; and the read loop goes on with the next message. *)
Theorem C5_incremental_without_book (c : MarketDataClient)
    (u : OrderBookIncrementalUpdate) :
  order_books_bids_ c !! incremental_instrument_id u = None ->
  order_books_asks_ c !! incremental_instrument_id u = None ->
  let id := incremental_instrument_id u in
  let c' := process_update c (incremental_update u) in
  order_books_bids_ c' !! id = Some (apply_levels (bid_updates u) []) /\
  order_books_asks_ c' !! id = Some (apply_levels (ask_updates u) []) /\
  delete id (order_books_bids_ c') = order_books_bids_ c /\
  delete id (order_books_asks_ c') = order_books_asks_ c /\
  forall rest,
    SubscribeToMarketData (incremental_update u :: rest) c = SubscribeToMarketData rest c'.
Proof.
  intros Hb Ha id c'. subst c' id. cbn [process_update].
  rewrite on_incremental_eq. cbn [order_books_bids_ order_books_asks_].
  rewrite (book_absent _ _ Hb), (book_absent _ _ Ha).
  rewrite !lookup_insert_eq, !delete_insert_eq, !delete_id by assumption.
  repeat split. intros rest. cbn [SubscribeToMarketData fold_left process_update].
  now rewrite on_incremental_eq, (book_absent _ _ Hb), (book_absent _ _ Ha).
Qed.

Lemma C5_incremental_without_book_witness :
  order_books_bids_
    (process_update empty_client (incremental_update mixed_update)) !! "AAPL"
  = Some [(of_scaled 199 (-1), of_int 120)].
Proof.
  exact (proj1 (C5_incremental_without_book empty_client mixed_update
                  (lookup_empty _) (lookup_empty _))).
Defined.

(** C6, as stated, does not hold: a snapshot is stored as it comes, so a
    snapshot level with quantity 0 leaves an entry with quantity 0. *)
Lemma C6_counterexample :
  ~ no_empty_level
      (SubscribeToMarketData [snapshot zero_level_snapshot] empty_client).
Proof.
  intros [Hbids _].
  specialize (Hbids "AAPL" [(of_scaled 199 (-1), zero)] eq_refl).
  inversion Hbids as [|? ? Hq _]; subst. discriminate Hq.
Qed.

Lemma apply_levels_nodes (levels : list PriceLevel) (m : std_map) :
  Forall (fun e => positive e.2 = true \/ In e m) (apply_levels levels m).
Proof.
  revert m. induction levels as [|level rest IH]; intros m.
  - apply Forall_forall. intros e He. right. now apply list_elem_of_In.
  - change (apply_levels (level :: rest) m)
      with (apply_levels rest (level_step m level)).
    eapply Forall_impl; [exact (IH (level_step m level))|].
    intros e [Hq | Hin]; [now left|]. unfold level_step in Hin.
    destruct (positive (quantity level)) eqn:Hpos.
    + pose proof (assign_nodes (price level) (quantity level) m) as Hnodes.
      rewrite Forall_forall in Hnodes. apply list_elem_of_In in Hin.
      destruct (Hnodes e Hin) as [Hv | Hold]; [left; now rewrite Hv | now right].
    + pose proof (erase_nodes (price level) m) as Hnodes.
      rewrite Forall_forall in Hnodes. apply list_elem_of_In in Hin.
      right. exact (Hnodes e Hin).
Qed.

Lemma build_side_nodes (levels : list PriceLevel) :
  Forall (fun e => exists level, In level levels /\ e.2 = quantity level)
         (build_side levels).
Proof.
  unfold build_side.
  assert (Hgen : forall m,
    Forall (fun e => (exists level, In level levels /\ e.2 = quantity level) \/
                     In e m)
           (fold_left (fun m level => assign (price level) (quantity level) m)
                      levels m)).
  { induction levels as [|level rest IH]; intros m; cbn [fold_left].
    - apply Forall_forall. intros e He. right. now apply list_elem_of_In.
    - eapply Forall_impl; [exact (IH _)|].
      intros e [(l & Hl & Hq) | Hin].
      + left. exists l. split; [now right | exact Hq].
      + pose proof (assign_nodes (price level) (quantity level) m) as Hnodes.
        rewrite Forall_forall in Hnodes. apply list_elem_of_In in Hin.
        destruct (Hnodes e Hin) as [Hv | Hold]; [|now right].
        left. exists level. split; [now left | exact Hv]. }
  eapply Forall_impl; [exact (Hgen [])|].
  intros e [H | []]. exact H.
Qed.

(** C6, amended.  An incremental update never adds an entry whose quantity
    is not greater than 0: every entry of a side of its instrument after
    it has a quantity greater than 0 or is an entry the side held before.
    A snapshot stores the quantities it carries without testing them:
    every entry of a side of its instrument after it has the quantity of
    one of the levels the snapshot carries for that side.  Hence, when
    every level of every snapshot received has a quantity greater than 0,
    every entry of every side of every instrument has a quantity greater
    than 0 after each message, from the empty client on and from any
    client of which this holds. *)
Theorem C6_no_empty_level :
  (forall (c : MarketDataClient) (u : OrderBookIncrementalUpdate),
     let id := incremental_instrument_id u in
     let c' := process_update c (incremental_update u) in
     Forall (fun e => positive e.2 = true \/
                      In e (book (order_books_bids_ c) id))
            (book (order_books_bids_ c') id) /\
     Forall (fun e => positive e.2 = true \/
                      In e (book (order_books_asks_ c) id))
            (book (order_books_asks_ c') id)) /\
  (forall (c : MarketDataClient) (s : OrderBookSnapshot),
     let id := snapshot_instrument_id s in
     let c' := process_update c (snapshot s) in
     Forall (fun e => exists level, In level (bids s) /\ e.2 = quantity level)
            (book (order_books_bids_ c') id) /\
     Forall (fun e => exists level, In level (asks s) /\ e.2 = quantity level)
            (book (order_books_asks_ c') id)) /\
  (forall (updates : list MarketDataUpdate) (c : MarketDataClient),
     no_empty_level c -> Forall snapshot_positive updates ->
     no_empty_level (SubscribeToMarketData updates c)) /\
  (forall updates : list MarketDataUpdate,
     Forall snapshot_positive updates ->
     no_empty_level (SubscribeToMarketData updates empty_client)).
Proof.
  assert (Hloop : forall updates c,
    no_empty_level c -> Forall snapshot_positive updates ->
    no_empty_level (SubscribeToMarketData updates c)).
  { intros updates. induction updates as [|update rest IH]; intros c Hc Hpos; cbn.
    - assumption.
    - inversion Hpos; subst.
      apply IH; [now apply no_empty_level_process_update | assumption]. }
  split; [|split; [|split]].
  - intros c u id c'. subst c' id. cbn [process_update].
    rewrite on_incremental_eq. cbn [order_books_bids_ order_books_asks_].
    rewrite !book_insert. split; apply apply_levels_nodes.
  - intros c s id c'. subst c' id. cbn [process_update].
    rewrite on_snapshot_eq. cbn [order_books_bids_ order_books_asks_].
    rewrite !book_insert. split; apply build_side_nodes.
  - exact Hloop.
  - intros updates Hpos. apply Hloop; [|exact Hpos].
    split; intros id m; cbn; rewrite lookup_empty; discriminate.
Qed.

Lemma C6_no_empty_level_witness :
  no_empty_level
    (SubscribeToMarketData [snapshot_update "AAPL"; incremental_update mixed_update;
                            incremental "AAPL" 1] empty_client) /\
  order_books_bids_
    (SubscribeToMarketData [snapshot_update "AAPL"; incremental_update mixed_update;
                            incremental "AAPL" 1] empty_client) !! "AAPL" =
  Some [(add (of_int 99) (opp Server.tenth), of_int 210);
        (of_scaled 199 (-1), of_int 120)].
Proof.
  split; [|reflexivity].
  apply (proj2 (proj2 (proj2 C6_no_empty_level))).
  repeat constructor.
Defined.

Lemma find_assign_levels (p : double) (levels : list PriceLevel) (m : std_map) :
  wf m -> ordered_prices levels -> is_nan p = false ->
  find p (fold_left (fun m level => assign (price level) (quantity level) m)
            levels m) =
  match last_quantity p levels with
  | Some q => Some q
  | None => find p m
  end.
Proof.
  revert m. induction levels as [|level rest IH]; intros m Hwf Hord Hp;
    cbn [fold_left last_quantity]; [reflexivity|].
  inversion Hord as [|? ? Hlevel Hrest]; subst.
  rewrite IH by (try apply wf_assign; assumption).
  destruct (last_quantity p rest); [reflexivity|].
  destruct (equiv p (price level)) eqn:He.
  - rewrite (find_equiv p (price level)) by assumption. apply find_assign_same.
  - now apply find_assign_other.
Qed.

(** C7, as stated, does not hold of a snapshot that carries a NaN price:
    the first bid, with a NaN price, is inserted into the cleared map, and
    the second, at price 2 with quantity 2, is then taken for the same key
    and overwrites its quantity.  The side holds one entry, with the NaN
    price and quantity 2, which is neither of the snapshot's two levels. *)
Lemma C7_counterexample :
  bids nan_snapshot =
    [price_level nan (of_int 1); price_level (of_int 2) (of_int 2)] /\
  order_books_bids_ (process_update empty_client (snapshot nan_snapshot)) !! "AAPL" =
    Some [(nan, of_int 2)].
Proof. split; reflexivity. Qed.

(** C7, amended.  Applying a snapshot twice in a row gives the same client
    state as applying it once, and what a snapshot leaves on the two sides
    of its instrument does not depend on what the client held before:
    both hold for every snapshot.  When no price of the snapshot is NaN,
    each side is a map ordered by price that holds the snapshot's levels
    for that side: a price is found with the quantity of the last level
    of the snapshot that carries it, and a price that no level carries is
    not found. *)
Theorem C7_snapshot_idempotent (s : OrderBookSnapshot) (c : MarketDataClient) :
  let id := snapshot_instrument_id s in
  let c' := process_update c (snapshot s) in
  process_update c' (snapshot s) = c' /\
  (forall c0 : MarketDataClient,
     order_books_bids_ c' !! id =
       order_books_bids_ (process_update c0 (snapshot s)) !! id /\
     order_books_asks_ c' !! id =
       order_books_asks_ (process_update c0 (snapshot s)) !! id) /\
  order_books_bids_ c' !! id = Some (build_side (bids s)) /\
  order_books_asks_ c' !! id = Some (build_side (asks s)) /\
  (ordered_prices (bids s) ->
     wf (book (order_books_bids_ c') id) /\
     forall p, is_nan p = false ->
       find p (book (order_books_bids_ c') id) = last_quantity p (bids s)) /\
  (ordered_prices (asks s) ->
     wf (book (order_books_asks_ c') id) /\
     forall p, is_nan p = false ->
       find p (book (order_books_asks_ c') id) = last_quantity p (asks s)).
Proof.
  intros id c'. subst c' id. cbn [process_update]. rewrite !on_snapshot_eq.
  cbn [order_books_bids_ order_books_asks_].
  rewrite !insert_insert_eq, !lookup_insert_eq, !book_insert.
  split; [reflexivity|]. split.
  { intros c0. rewrite on_snapshot_eq. cbn [order_books_bids_ order_books_asks_].
    now rewrite !lookup_insert_eq. }
  split; [reflexivity|]. split; [reflexivity|].
  split; intros Hord; (split; [now apply wf_build_side|]); intros p Hp;
    unfold build_side; rewrite find_assign_levels by (try apply wf_nil; assumption);
    now destruct (last_quantity p _).
Qed.

Lemma C7_snapshot_idempotent_witness :
  find (of_int 99)
    (book (order_books_bids_
             (process_update subscribed_client (snapshot repeated_snapshot)))
          "MSFT") = Some (of_int 30) /\
  find (of_int 97)
    (book (order_books_bids_
             (process_update subscribed_client (snapshot repeated_snapshot)))
          "MSFT") = None.
Proof.
  assert (Hbids : ordered_prices (bids repeated_snapshot))
    by (repeat constructor).
  destruct (C7_snapshot_idempotent repeated_snapshot subscribed_client)
    as (_ & _ & _ & _ & Hb & _).
  destruct (Hb Hbids) as [_ Hfind].
  split; [exact (Hfind (of_int 99) eq_refl) | exact (Hfind (of_int 97) eq_refl)].
Defined.

(** C10.  The acknowledgement of an unsubscription, a snapshot with the
    instrument's id and no level, leaves the instrument with an entry on
    each side whose map is empty, and leaves the entries of all other
    instruments as they were. *)
Theorem C10_unsubscribe_ack (id : string) (c : MarketDataClient) :
  let c' := process_update c (unsubscribe_update id) in
  order_books_bids_ c' !! id = Some [] /\
  order_books_asks_ c' !! id = Some [] /\
  delete id (order_books_bids_ c') = delete id (order_books_bids_ c) /\
  delete id (order_books_asks_ c') = delete id (order_books_asks_ c).
Proof.
  cbn [process_update unsubscribe_update]. rewrite on_snapshot_eq.
  cbn [order_books_bids_ order_books_asks_ snapshot_instrument_id bids asks].
  rewrite !lookup_insert_eq, !delete_insert_eq. repeat split.
Qed.

End ClientSpec.

(** ** The connection *)

Module ServerSpec.
Import Wire Server Scenario.

(** *** Runs *)

Lemma exec_app (l1 l2 : list label) (s : state) :
  exec (l1 ++ l2) s =
  match exec l1 s with Some s' => exec l2 s' | None => None end.
Proof.
  revert s. induction l1 as [|l rest IH]; intros s; cbn.
  - reflexivity.
  - destruct (step l s); [apply IH | reflexivity].
Qed.

Lemma reachable_initial : reachable initial.
Proof. now exists []. Qed.

Lemma reachable_step (l : label) (s s' : state) :
  reachable s -> step l s = Some s' -> reachable s'.
Proof.
  intros [ls Hls] Hstep. exists (ls ++ [l]).
  rewrite exec_app, Hls. cbn. now rewrite Hstep.
Qed.

Lemma reachable_exec (ls : list label) (s s' : state) :
  reachable s -> exec ls s = Some s' -> reachable s'.
Proof.
  intros [ls0 Hls0] Hexec. exists (ls0 ++ ls). now rewrite exec_app, Hls0.
Qed.

(** A property that holds initially and is kept by every step holds of
    every reachable state. *)
Lemma reachable_ind (P : state -> Prop) :
  P initial ->
  (forall l s s', reachable s -> P s -> step l s = Some s' -> P s') ->
  forall s, reachable s -> P s.
Proof.
  intros Hinit Hstep s [ls Hls].
  assert (Hgen : forall ls s0 s1,
             reachable s0 -> P s0 -> exec ls s0 = Some s1 -> P s1).
  { clear ls Hls. induction ls as [|l rest IH]; intros s0 s1 Hr HP; cbn.
    - now intros [= <-].
    - destruct (step l s0) as [s0'|] eqn:Hs; [|discriminate].
      apply IH; [now apply (reachable_step l s0) | now apply (Hstep l s0)]. }
  exact (Hgen ls initial s reachable_initial Hinit Hls).
Qed.

(** *** The shape of a step *)

(** A step of a producer, or a cancellation, touches neither the program
    counter of the read loop nor the stop signals, and changes at most the
    producer's own thread, whose [std::thread] stays as joinable as it was. *)
Lemma other_step (l : label) (s s' : state) :
  is_loop_label l = false -> step l s = Some s' ->
  loop s' = loop s /\ stop_signals s' = stop_signals s /\
  (update_threads s' = update_threads s \/
   exists id t t',
     producer_of l = Some id /\
     update_threads s !! id = Some t /\ pc t <> Finished /\
     joinable t' = joinable t /\
     update_threads s' = <[id := t']> (update_threads s)).
Proof.
  intros Hl Hstep.
  destruct l as [r| |ok| | | |id|id|id ok|id|]; try discriminate Hl;
    cbn in Hstep.
  5: { injection Hstep as <-. auto. }
  all: destruct (update_threads s !! id) as [t|] eqn:Ht; [|discriminate];
    unfold StreamIncrementalUpdates in Hstep;
    destruct (pc t) eqn:Hpc; try discriminate; injection Hstep as <-;
    (split; [reflexivity|]); (split; [reflexivity|]); right;
    eexists id, t, _; cbn;
    (split; [reflexivity|]); (split; [assumption|]);
    (split; [congruence|]); (split; [|reflexivity]).
  all: try reflexivity.
  now destruct ok.
Qed.

(** *** The iteration order of [update_threads] *)

Lemma elem_of_thread_ids (ts : gmap string thread) (id : string) :
  id ∈ thread_ids ts <-> is_Some (ts !! id).
Proof.
  unfold thread_ids. rewrite merge_sort_Permutation.
  rewrite list_elem_of_fmap. split.
  - intros [[i t] [-> Hin]]. apply elem_of_map_to_list in Hin. now exists t.
  - intros [t Ht]. exists (id, t). split; [reflexivity|].
    now apply elem_of_map_to_list.
Qed.

Lemma NoDup_thread_ids (ts : gmap string thread) : NoDup (thread_ids ts).
Proof.
  unfold thread_ids. rewrite merge_sort_Permutation.
  apply NoDup_fst_map_to_list.
Qed.

(** *** The invariant *)

Lemma lookup_insert_keyed (Q : string -> thread -> Prop) (id0 : string)
    (t0 : thread) (ts : gmap string thread) :
  Q id0 t0 -> (forall id t, id0 <> id -> ts !! id = Some t -> Q id t) ->
  forall id t, <[id0 := t0]> ts !! id = Some t -> Q id t.
Proof.
  intros H0 Hall id t. destruct (decide (id0 = id)) as [->|Hne].
  - rewrite lookup_insert_eq. now intros [= <-].
  - rewrite lookup_insert_ne by assumption. now apply Hall.
Qed.

Lemma is_Some_insert_known {A} (id0 : string) (x : A) (m : gmap string A)
    (id : string) :
  is_Some (m !! id0) -> is_Some (<[id0 := x]> m !! id) -> is_Some (m !! id).
Proof.
  intros H0. destruct (decide (id0 = id)) as [->|Hne].
  - intros _. exact H0.
  - now rewrite lookup_insert_ne.
Qed.

Lemma is_Some_insert_more {A} (id0 : string) (x : A) (m : gmap string A)
    (id : string) :
  is_Some (m !! id) -> is_Some (<[id0 := x]> m !! id).
Proof.
  intros H. destruct (decide (id0 = id)) as [->|Hne].
  - rewrite lookup_insert_eq. eauto.
  - now rewrite lookup_insert_ne.
Qed.

Lemma invariant_initial : invariant initial.
Proof.
  split.
  - intros id [t Ht]. cbn in Ht. rewrite lookup_empty in Ht. discriminate.
  - intros id t Ht. cbn in Ht. rewrite lookup_empty in Ht. discriminate.
Qed.

Lemma invariant_other_step (l : label) (s s' : state) :
  is_loop_label l = false -> invariant s -> step l s = Some s' -> invariant s'.
Proof.
  intros Hl [Hsig Hinv] Hstep.
  destruct (other_step l s s' Hl Hstep) as (Hloop & Hstop & Hthreads).
  destruct Hthreads as [Hsame | (id & t & t' & _ & Ht & Hpc & Hj & Hupd)].
  - unfold invariant, threads_have_signals, all_joinable, all_signalled in *.
    now rewrite Hloop, Hstop, Hsame.
  - assert (Hsig' : threads_have_signals s').
    { intros j Hsome. unfold threads_have_signals in Hsig.
      rewrite Hstop. apply Hsig. rewrite Hupd in Hsome.
      eapply is_Some_insert_known; eauto. }
    split; [exact Hsig'|]. rewrite Hloop.
    unfold all_joinable, all_signalled in *. rewrite Hstop, Hupd.
    destruct (loop s) as [|i|i|i|i| |pending|].
    + apply lookup_insert_keyed; [|intros ? ? _; apply Hinv]. rewrite Hj. eauto.
    + destruct Hinv as [Hall Hnone]. split.
      * apply lookup_insert_keyed; [|intros ? ? _; apply Hall]. rewrite Hj. eauto.
      * rewrite lookup_insert_ne; [exact Hnone|]. congruence.
    + destruct Hinv as [Hall Hnone]. split.
      * apply lookup_insert_keyed; [|intros ? ? _; apply Hall]. rewrite Hj. eauto.
      * rewrite lookup_insert_ne; [exact Hnone|]. congruence.
    + apply lookup_insert_keyed; [|intros ? ? _; apply Hinv]. rewrite Hj. eauto.
    + apply lookup_insert_keyed; [|intros ? ? _; apply Hinv]. rewrite Hj. eauto.
    + apply lookup_insert_keyed; [|intros ? ? _; apply Hinv]. rewrite Hj. eauto.
    + destruct Hinv as (Hnd & Hall & Hjoin). repeat split; try assumption.
      apply lookup_insert_keyed; [|intros ? ? _; apply Hjoin].
      destruct (Hjoin id t Ht) as [[Hjt Hin] | [_ Hfin]]; [|contradiction].
      left. split; [congruence | assumption].
    + destruct Hinv as [Hall Hjoin]. split; [assumption|].
      destruct (Hjoin id t Ht) as [_ Hfin]. contradiction.
Qed.

Lemma streaming_false (s : state) (id : string) :
  all_joinable s -> streaming s id = false -> update_threads s !! id = None.
Proof.
  intros Hall. unfold streaming.
  destruct (update_threads s !! id) as [t|] eqn:Ht; [|reflexivity].
  intros Hj. rewrite (Hall id t Ht) in Hj. discriminate.
Qed.

Lemma invariant_on_request (r : SubscriptionRequest) (s : state) :
  loop s = AtRead -> invariant s ->
  invariant (on_request r (record (Received r) s)).
Proof.
  intros Hloop [Hsig Hinv]. rewrite Hloop in Hinv.
  unfold on_request. destruct (action r).
  - destruct (streaming _ _) eqn:Hstr; cbn [negb].
    + split; [exact Hsig|]. cbn. now rewrite Hloop.
    + split; [exact Hsig|]. cbn. split; [exact Hinv|].
      now apply (streaming_false s).
  - destruct (streaming _ _) eqn:Hstr.
    + split; cbn.
      * intros id Hsome. apply is_Some_insert_more. now apply Hsig.
      * exact Hinv.
    + split; [exact Hsig | exact Hinv].
Qed.

Lemma invariant_join_next (id : string) (rest : list string) (s s' : state) :
  loop s = AtJoin (id :: rest) -> invariant s ->
  join_next id rest s = Some s' -> invariant s'.
Proof.
  intros Hloop [Hsig Hinv]. rewrite Hloop in Hinv.
  destruct Hinv as (Hnd & Hall & Hjoin).
  apply NoDup_cons in Hnd as [Hnotin Hnd].
  unfold join_next.
  destruct (update_threads s !! id) as [t|] eqn:Ht.
  - destruct (joinable t) eqn:Hj.
    + destruct (pc t) eqn:Hpc; try discriminate. intros [= <-].
      split; cbn.
      * intros j Hsome. apply Hsig. cbn in Hsome.
        eapply is_Some_insert_known; [|exact Hsome]. eauto.
      * repeat split; try assumption.
        apply lookup_insert_keyed.
        -- right. split; reflexivity.
        -- intros j tj Hne Htj.
           destruct (Hjoin j tj Htj) as [[Hjj Hin] | Hjd]; [|now right].
           left. split; [assumption|].
           apply elem_of_cons in Hin as [->|Hin]; [congruence | assumption].
    + intros [= <-]. split; [exact Hsig|]. cbn.
      repeat split; try assumption.
      intros j tj Htj.
      destruct (Hjoin j tj Htj) as [[Hjj Hin] | Hjd]; [|now right].
      left. split; [assumption|].
      apply elem_of_cons in Hin as [->|Hin]; [|assumption].
      rewrite Ht in Htj. injection Htj as <-. congruence.
  - intros [= <-]. split; [exact Hsig|]. cbn.
    repeat split; try assumption.
    intros j tj Htj.
    destruct (Hjoin j tj Htj) as [[Hjj Hin] | Hjd]; [|now right].
    left. split; [assumption|].
    apply elem_of_cons in Hin as [->|Hin]; [|assumption]. congruence.
Qed.

Lemma invariant_loop_step (l : label) (s s' : state) :
  is_loop_label l = true -> invariant s -> step l s = Some s' -> invariant s'.
Proof.
  intros Hl Hinv Hstep.
  destruct l as [[r|]| |ok| | | |id|id|id ok|id|]; try discriminate Hl;
    cbn in Hstep; unfold Subscribe in Hstep;
    destruct (loop s) as [|i|i|i|i| |pending|] eqn:Hloop;
    try discriminate Hstep.
  - injection Hstep as <-. now apply invariant_on_request.
  - injection Hstep as <-. destruct Hinv as [Hsig Hinv].
    rewrite Hloop in Hinv. split; [exact Hsig | exact Hinv].
  - injection Hstep as <-. destruct Hinv as [Hsig Hinv].
    rewrite Hloop in Hinv. split; [exact Hsig | exact Hinv].
  - injection Hstep as <-. destruct Hinv as [Hsig Hinv].
    rewrite Hloop in Hinv. split; [exact Hsig | exact Hinv].
  - injection Hstep as <-. destruct Hinv as [Hsig Hinv].
    rewrite Hloop in Hinv. destruct Hinv as [Hall Hnone]. destruct ok.
    + split.
      * intros j Hsome. cbn in *. destruct (decide (i = j)) as [->|Hne].
        -- rewrite lookup_insert_eq. eauto.
        -- rewrite lookup_insert_ne in Hsome by assumption.
           rewrite lookup_insert_ne by assumption. now apply Hsig.
      * unfold all_joinable. cbn.
        apply lookup_insert_keyed; [reflexivity | intros ? ? _; apply Hall].
    + split; [exact Hsig | exact Hall].
  - injection Hstep as <-. destruct Hinv as [Hsig Hinv].
    rewrite Hloop in Hinv. split; [exact Hsig|]. now destruct ok.
  - injection Hstep as <-. destruct Hinv as [Hsig Hinv].
    rewrite Hloop in Hinv. split; cbn.
    + intros j Hsome. cbn in *. rewrite lookup_fmap.
      destruct (Hsig j Hsome) as [b ->]. cbn. eauto.
    + split; [apply NoDup_thread_ids|]. split.
      * intros j b. cbn. rewrite lookup_fmap.
        destruct (stop_signals s !! j); cbn; congruence.
      * intros j t Ht. left. split; [now apply (Hinv j)|].
        apply elem_of_thread_ids. eauto.
  - destruct pending as [|id rest]; [discriminate|].
    now apply (invariant_join_next id rest s).
  - destruct pending as [|id rest]; [|discriminate].
    injection Hstep as <-. destruct Hinv as [Hsig Hinv].
    rewrite Hloop in Hinv. destruct Hinv as (_ & Hall & Hjoin).
    split; [exact Hsig|]. cbn. split; [exact Hall|].
    intros j t Ht. destruct (Hjoin j t Ht) as [[_ Hin] | Hjd]; [|exact Hjd].
    now apply elem_of_nil in Hin.
Qed.

Lemma invariant_step (l : label) (s s' : state) :
  invariant s -> step l s = Some s' -> invariant s'.
Proof.
  destruct (is_loop_label l) eqn:Hl.
  - now apply invariant_loop_step.
  - now apply invariant_other_step.
Qed.

Lemma reachable_invariant (s : state) : reachable s -> invariant s.
Proof.
  apply reachable_ind; [apply invariant_initial|].
  intros l s0 s1 _. apply invariant_step.
Qed.

(** *** Counting events *)

Lemma count_app (p : event -> bool) (h h' : list event) :
  count p (h ++ h') = (count p h + count p h')%nat.
Proof. unfold count. now rewrite List.filter_app, length_app. Qed.

Lemma count_snoc (p : event -> bool) (h : list event) (e : event) :
  count p (h ++ [e]) = (count p h + if p e then 1 else 0)%nat.
Proof. rewrite count_app. unfold count. cbn. now destruct (p e). Qed.

Lemma count_producer_events (p : event -> bool) (h : list event) :
  (forall e, is_producer_event e = true -> p e = false) ->
  forallb is_producer_event h = true -> count p h = 0%nat.
Proof.
  intros Hp. unfold count. induction h as [|e rest IH]; cbn; [reflexivity|].
  intros Hall. apply andb_true_iff in Hall as [He Hrest].
  rewrite (Hp e He). now apply IH.
Qed.

Lemma other_step_history (l : label) (s s' : state) :
  is_loop_label l = false -> step l s = Some s' ->
  exists h, history s' = history s ++ h /\ forallb is_producer_event h = true.
Proof.
  intros Hl Hstep.
  destruct l as [r| |ok| | | |id|id|id ok|id|]; try discriminate Hl;
    cbn in Hstep.
  5: { injection Hstep as <-. exists []. cbn. now rewrite app_nil_r. }
  all: destruct (update_threads s !! id) as [t|] eqn:Ht; [|discriminate];
    unfold StreamIncrementalUpdates in Hstep;
    destruct (pc t) eqn:Hpc; try discriminate; injection Hstep as <-; cbn.
  - exists []. now rewrite app_nil_r.
  - now eexists [_].
  - now eexists [_].
  - exists []. now rewrite app_nil_r.
Qed.

Lemma started_insert_known (s s' : state) (id : string) (t t' : thread) :
  update_threads s !! id = Some t ->
  update_threads s' = <[id := t']> (update_threads s) ->
  forall j, started s' j = started s j.
Proof.
  intros Ht Hupd j. unfold started. rewrite Hupd.
  destruct (decide (id = j)) as [->|Hne].
  - now rewrite lookup_insert_eq, Ht.
  - now rewrite lookup_insert_ne.
Qed.

Lemma history_invariant_initial : history_invariant initial.
Proof. intros id. split; reflexivity. Qed.

Lemma history_invariant_step (l : label) (s s' : state) :
  invariant s -> history_invariant s -> step l s = Some s' ->
  history_invariant s'.
Proof.
  intros Hinv Hhist Hstep. destruct (is_loop_label l) eqn:Hl.
  - destruct l as [[r|]| |ok| | | |id|id|id ok|id|]; try discriminate Hl;
      cbn in Hstep; unfold Subscribe in Hstep;
      destruct (loop s) as [|i|i|i|i| |pending|] eqn:Hloop;
      try discriminate Hstep.
    + injection Hstep as <-. intros id. destruct (Hhist id) as [H1 H2].
      assert (Hh : history (on_request r (record (Received r) s)) =
                   history s ++ [Received r]).
      { unfold on_request. destruct (action r);
          destruct (streaming _ _); reflexivity. }
      assert (Ht : update_threads (on_request r (record (Received r) s)) =
                   update_threads s).
      { unfold on_request. destruct (action r);
          destruct (streaming _ _); reflexivity. }
      unfold started. rewrite Hh, Ht, !count_snoc. cbn -[count].
      fold (started s id). lia.
    + injection Hstep as <-. exact Hhist.
    + injection Hstep as <-. intros id. destruct (Hhist id) as [H1 H2].
      unfold started. cbn -[count]. rewrite !count_snoc. cbn -[count].
      fold (started s id). lia.
    + injection Hstep as <-. intros id. destruct (Hhist id) as [H1 H2].
      unfold started. cbn -[count]. rewrite !count_snoc. cbn -[count].
      fold (started s id). lia.
    + injection Hstep as <-. intros id. destruct (Hhist id) as [H1 H2].
      destruct Hinv as [_ Hinv]. rewrite Hloop in Hinv.
      destruct Hinv as [_ Hnone].
      destruct ok.
      * unfold started. cbn -[count]. rewrite !count_snoc. cbn -[count].
        rewrite andb_true_r.
        destruct (String.eqb_spec id i) as [->|Hne].
        -- rewrite lookup_insert_eq. unfold started in H2.
           rewrite Hnone in H2. lia.
        -- rewrite lookup_insert_ne by congruence.
           fold (started s id). lia.
      * unfold started. cbn -[count]. rewrite !count_snoc. cbn -[count].
        fold (started s id). lia.
    + injection Hstep as <-. intros id. destruct (Hhist id) as [H1 H2].
      unfold started. cbn -[count]. rewrite !count_snoc. cbn -[count].
      rewrite ?andb_false_r. fold (started s id). destruct ok; lia.
    + injection Hstep as <-. exact Hhist.
    + destruct pending as [|id rest]; [discriminate|].
      unfold join_next in Hstep.
      destruct (update_threads s !! id) as [t|] eqn:Ht.
      * destruct (joinable t).
        -- destruct (pc t); try discriminate. injection Hstep as <-.
           intros j. destruct (Hhist j) as [H1 H2].
           erewrite (started_insert_known s _ id t _ Ht); [|reflexivity].
           cbn -[count]. rewrite !count_snoc. cbn -[count]. lia.
        -- injection Hstep as <-. exact Hhist.
      * injection Hstep as <-. exact Hhist.
    + destruct pending as [|id rest]; [|discriminate].
      injection Hstep as <-. exact Hhist.
  - destruct (other_step_history l s s' Hl Hstep) as (h & Hh & Hprod).
    destruct (other_step l s s' Hl Hstep) as (_ & _ & Hthreads).
    intros id. destruct (Hhist id) as [H1 H2].
    rewrite Hh, !count_app.
    rewrite (count_producer_events (is_thread_start id) h),
            (count_producer_events (is_snapshot_sent id) h); try assumption.
    + assert (Hst : started s' id = started s id).
      { destruct Hthreads as [Hsame | (i & t & t' & _ & Ht & _ & _ & Hupd)].
        - unfold started. now rewrite Hsame.
        - now apply (started_insert_known s s' i t t'). }
      rewrite Hst. lia.
    + intros [| [|] | [|] | |]; cbn; congruence.
    + intros [| [|] | [|] | |]; cbn; congruence.
Qed.

Lemma reachable_history_invariant (s : state) :
  reachable s -> history_invariant s.
Proof.
  apply reachable_ind; [apply history_invariant_initial|].
  intros l s0 s1 Hr. apply history_invariant_step.
  now apply reachable_invariant.
Qed.

(** *** SUBSCRIBE *)

(** A SUBSCRIBE for an instrument that has an entry in [update_threads] is
    logged and does nothing else, whether or not the entry's thread is
    still running: before line 171 every entry is joinable. *)
Lemma subscribe_known_instrument (s : state) (id : string) :
  invariant s -> loop s = AtRead -> is_Some (update_threads s !! id) ->
  let r := {| action := SUBSCRIBE; instrument_id := id |} in
  step (Read (Some r)) s = Some (record (Received r) s).
Proof.
  intros [_ Hinv] Hloop [t Ht] r. rewrite Hloop in Hinv.
  cbn. unfold Subscribe. rewrite Hloop. unfold on_request. cbn.
  unfold streaming. cbn. rewrite Ht, (Hinv id t Ht). reflexivity.
Qed.

(** On one connection an instrument gets at most one producer. *)
Lemma at_most_one_start (s : state) (id : string) :
  reachable s -> (count (is_thread_start id) (history s) <= 1)%nat.
Proof.
  intros Hr. destruct (reachable_history_invariant s Hr id) as [_ ->].
  unfold started. destruct (update_threads s !! id); lia.
Qed.

(** A SUBSCRIBE for an instrument without an entry is answered by the
    snapshot, and the producer is started once the write has succeeded. *)
Lemma subscribe_new_instrument (s : state) (id : string) :
  loop s = AtRead -> update_threads s !! id = None ->
  let r := {| action := SUBSCRIBE; instrument_id := id |} in
  exists s1 s2 s3,
    step (Read (Some r)) s = Some s1 /\ loop s1 = AtWriteSnapshot id /\
    step LoopWriteBegin s1 = Some s2 /\
    step (LoopWriteEnd true) s2 = Some s3 /\
    loop s3 = AtRead /\ live s3 id = true /\
    stop_signals s3 !! id = Some false /\
    history s3 = history s ++
      [Received r;
       WriteBegin ReadLoop (snapshot_update id);
       WriteEnd ReadLoop (snapshot_update id) true;
       ThreadStart id].
Proof.
  intros Hloop Hnone r.
  assert (Hs1 : step (Read (Some r)) s =
                Some (set_loop (AtWriteSnapshot id) (record (Received r) s))).
  { cbn. unfold Subscribe. rewrite Hloop. unfold on_request, streaming. cbn.
    now rewrite Hnone. }
  eexists _, _, _. split; [exact Hs1|]. split; [reflexivity|].
  split; [reflexivity|]. split; [reflexivity|].
  split; [reflexivity|]. cbn. unfold live. cbn.
  rewrite !lookup_insert_eq. repeat split.
  now rewrite <- !app_assoc.
Qed.

(** C2 at the input on which the code departs from it.  AAPL is
    subscribed, unsubscribed, and its producer has returned; a new
    SUBSCRIBE for AAPL then finds no live producer, and the server only
    logs it: the run holds one snapshot for AAPL and one thread start, and
    no producer is live at its end. *)
Theorem C2_resubscribe_after_exit :
  exists s0 s,
    exec stopped_run initial = Some s0 /\
    loop s0 = AtRead /\ live s0 "AAPL" = false /\
    step (subscribe "AAPL") s0 = Some s /\
    loop s = AtRead /\ live s "AAPL" = false /\
    history s =
      history s0 ++ [Received {| action := SUBSCRIBE; instrument_id := "AAPL" |}] /\
    count (is_snapshot_begin "AAPL") (history s) = 1%nat /\
    count (is_thread_start "AAPL") (history s) = 1%nat.
Proof.
  eexists _, _. split; [vm_compute; reflexivity|].
  repeat split.
Qed.

(** C3.  In a reachable state in which the read loop waits for a command
    and the producer of an instrument is live, a SUBSCRIBE for that
    instrument is logged and changes nothing else: no write is begun, no
    thread is started, the producer and its stop signal are as before.
    At that point, as in every reachable state and for every instrument,
    as many snapshots have been sent as producers were started, and for
    the live instrument that number is one. *)
Theorem C3_subscribe_while_active (s : state) (id : string) :
  reachable s -> loop s = AtRead -> live s id = true ->
  let r := {| action := SUBSCRIBE; instrument_id := id |} in
  step (Read (Some r)) s = Some (record (Received r) s) /\
  step LoopWriteBegin (record (Received r) s) = None /\
  (forall j, count (is_snapshot_sent j) (history (record (Received r) s)) =
             count (is_thread_start j) (history (record (Received r) s))) /\
  count (is_snapshot_sent id) (history (record (Received r) s)) = 1%nat /\
  count (is_thread_start id) (history (record (Received r) s)) = 1%nat.
Proof.
  intros Hr Hloop Hlive r.
  assert (Hsome : is_Some (update_threads s !! id)).
  { unfold live in Hlive. destruct (update_threads s !! id); [eauto|discriminate]. }
  pose proof (subscribe_known_instrument s id (reachable_invariant s Hr)
                Hloop Hsome) as Hstep.
  split; [exact Hstep|].
  split; [cbn; unfold Subscribe; cbn; now rewrite Hloop|].
  assert (Hr' : reachable (record (Received r) s))
    by (eapply reachable_step; [exact Hr | exact Hstep]).
  pose proof (reachable_history_invariant _ Hr') as Hh.
  split; [intros j; now destruct (Hh j) as [-> _]|].
  destruct (Hh id) as [H1 H2]. rewrite <- H1, H2.
  unfold started. cbn. destruct Hsome as [t ->]. split; reflexivity.
Qed.

Lemma C3_subscribe_while_active_witness :
  exists s,
    exec active_run initial = Some s /\
    step (subscribe "AAPL") s =
      Some (record (Received {| action := SUBSCRIBE; instrument_id := "AAPL" |}) s).
Proof.
  eexists. split; [vm_compute; reflexivity|].
  apply C3_subscribe_while_active.
  - exists active_run. vm_compute. reflexivity.
  - reflexivity.
  - reflexivity.
Defined.

(** *** UNSUBSCRIBE *)

Lemma step_history_extends (l : label) (s s' : state) :
  step l s = Some s' -> exists h, history s' = history s ++ h.
Proof.
  intros Hstep. destruct (is_loop_label l) eqn:Hl.
  - destruct l as [[r|]| |ok| | | |id|id|id ok|id|]; try discriminate Hl;
      cbn in Hstep; unfold Subscribe in Hstep;
      destruct (loop s) as [|i|i|i|i| |pending|] eqn:Hloop;
      try discriminate Hstep.
    + injection Hstep as <-. exists [Received r].
      unfold on_request. destruct (action r); destruct (streaming _ _); reflexivity.
    + injection Hstep as <-. exists []. cbn. now rewrite app_nil_r.
    + injection Hstep as <-. now eexists [_].
    + injection Hstep as <-. now eexists [_].
    + injection Hstep as <-. destruct ok.
      * eexists [_; _]. cbn. now rewrite <- app_assoc.
      * now eexists [_].
    + injection Hstep as <-. now eexists [_].
    + injection Hstep as <-. exists []. cbn. now rewrite app_nil_r.
    + destruct pending as [|id rest]; [discriminate|].
      unfold join_next in Hstep.
      destruct (update_threads s !! id) as [t|].
      * destruct (joinable t).
        -- destruct (pc t); try discriminate. injection Hstep as <-.
           now eexists [_].
        -- injection Hstep as <-. exists []. cbn. now rewrite app_nil_r.
      * injection Hstep as <-. exists []. cbn. now rewrite app_nil_r.
    + destruct pending as [|id rest]; [|discriminate].
      injection Hstep as <-. exists []. cbn. now rewrite app_nil_r.
  - destruct (other_step_history l s s' Hl Hstep) as (h & Hh & _). eauto.
Qed.

Lemma exec_history_extends (ls : list label) (s s' : state) :
  exec ls s = Some s' -> exists h, history s' = history s ++ h.
Proof.
  revert s. induction ls as [|l rest IH]; intros s; cbn.
  - intros [= <-]. exists []. now rewrite app_nil_r.
  - destruct (step l s) as [s1|] eqn:Hs; [|discriminate]. intros Hrest.
    destruct (step_history_extends l s s1 Hs) as [h1 Hh1].
    destruct (IH s1 Hrest) as [h2 Hh2].
    exists (h1 ++ h2). now rewrite Hh2, Hh1, app_assoc.
Qed.

Lemma loop_events_app (h h' : list event) :
  loop_events (h ++ h') = loop_events h ++ loop_events h'.
Proof. apply List.filter_app. Qed.

Lemma loop_events_producer (h : list event) :
  forallb is_producer_event h = true -> loop_events h = [].
Proof.
  unfold loop_events. induction h as [|e rest IH]; cbn; [reflexivity|].
  intros Hall. apply andb_true_iff in Hall as [-> Hrest]. cbn. now apply IH.
Qed.

(** Among the events of the thread running [Subscribe], an UNSUBSCRIBE
    waits for its acknowledgement exactly while the thread is at line 152,
    and nothing else is written for the instrument in between. *)
Lemma scan_loop_events (s : state) :
  reachable s ->
  fold_left scan (loop_events (history s)) (Some []) = Some (waiting_of (loop s)).
Proof.
  revert s. apply reachable_ind; [reflexivity|].
  intros l s s' _ IH Hstep. destruct (is_loop_label l) eqn:Hl.
  - destruct l as [[r|]| |ok| | | |id|id|id ok|id|]; try discriminate Hl;
      cbn in Hstep; unfold Subscribe in Hstep;
      destruct (loop s) as [|i|i|i|i| |pending|] eqn:Hloop;
      try discriminate Hstep; cbn [waiting_of] in IH.
    + injection Hstep as <-.
      assert (Hh : history (on_request r (record (Received r) s)) =
                   history s ++ [Received r]).
      { unfold on_request. destruct (action r);
          destruct (streaming _ _); reflexivity. }
      rewrite Hh, loop_events_app, fold_left_app, IH.
      unfold on_request. destruct r as [[] id]; cbn.
      * destruct (streaming _ _); cbn; [now rewrite Hloop | reflexivity].
      * reflexivity.
    + injection Hstep as <-. exact IH.
    + injection Hstep as <-. cbn [history set_loop record loop].
      now rewrite loop_events_app, fold_left_app, IH.
    + injection Hstep as <-. cbn [history set_loop record loop].
      rewrite loop_events_app, fold_left_app, IH. cbn.
      now rewrite String.eqb_refl.
    + injection Hstep as <-. destruct ok.
      * cbn [history set_loop record loop start_thread set_threads
             set_stop_signals].
        now rewrite !loop_events_app, !fold_left_app, IH.
      * cbn [history set_loop record loop].
        now rewrite loop_events_app, fold_left_app, IH.
    + injection Hstep as <-. cbn [history set_loop record loop].
      rewrite loop_events_app, fold_left_app, IH. now destruct ok.
    + injection Hstep as <-. exact IH.
    + destruct pending as [|id rest]; [discriminate|].
      unfold join_next in Hstep.
      destruct (update_threads s !! id) as [t|].
      * destruct (joinable t).
        -- destruct (pc t); try discriminate. injection Hstep as <-.
           cbn [history set_loop record loop set_threads].
           now rewrite loop_events_app, fold_left_app, IH.
        -- injection Hstep as <-. exact IH.
      * injection Hstep as <-. exact IH.
    + destruct pending as [|id rest]; [|discriminate].
      injection Hstep as <-. exact IH.
  - destruct (other_step l s s' Hl Hstep) as (Hloop & _).
    destruct (other_step_history l s s' Hl Hstep) as (h & Hh & Hprod).
    rewrite Hh, loop_events_app, (loop_events_producer h Hprod), app_nil_r.
    now rewrite Hloop.
Qed.

(** At line 152 the only thing the thread running [Subscribe] can do is
    to enter [Write] with the acknowledgement. *)
Lemma at_write_ack (s : state) (id : string) :
  loop s = AtWriteAck id ->
  (forall l, is_loop_label l = true -> is_Some (step l s) -> l = LoopWriteBegin) /\
  step LoopWriteBegin s =
    Some (set_loop (InWriteAck id)
            (record (WriteBegin ReadLoop (unsubscribe_update id)) s)).
Proof.
  intros Hloop. split.
  - intros l Hl [s' Hs'].
    destruct l as [[r|]| |ok| | | |i|i|i ok|i|]; try discriminate Hl;
      cbn in Hs'; unfold Subscribe in Hs'; rewrite Hloop in Hs';
      try discriminate Hs'. reflexivity.
  - cbn. unfold Subscribe. now rewrite Hloop.
Qed.

Lemma in_write_ack (s : state) (id : string) (ok : bool) :
  loop s = InWriteAck id ->
  (forall l, is_loop_label l = true -> is_Some (step l s) ->
             exists ok', l = LoopWriteEnd ok') /\
  step (LoopWriteEnd ok) s =
    Some (set_loop (if ok then AtRead else AtSignalAll)
            (record (WriteEnd ReadLoop (unsubscribe_update id) ok) s)).
Proof.
  intros Hloop. split.
  - intros l Hl [s' Hs'].
    destruct l as [[r|]| |ok'| | | |i|i|i ok'|i|]; try discriminate Hl;
      cbn in Hs'; unfold Subscribe in Hs'; rewrite Hloop in Hs';
      try discriminate Hs'. eauto.
  - cbn. unfold Subscribe. now rewrite Hloop.
Qed.

(** From line 152 on, whatever the producers do in between, the first
    event of the thread running [Subscribe] is the write of the
    acknowledgement. *)
Lemma ack_is_next (id : string) (ls : list label) (s s' : state) :
  loop s = AtWriteAck id -> exec ls s = Some s' ->
  exists h,
    history s' = history s ++ h /\
    ((loop_events h = [] /\ loop s' = AtWriteAck id) \/
     exists h', loop_events h =
                WriteBegin ReadLoop (unsubscribe_update id) :: h').
Proof.
  revert s. induction ls as [|l rest IH]; intros s Hloop; cbn.
  - intros [= <-]. exists []. rewrite app_nil_r. auto.
  - destruct (step l s) as [s1|] eqn:Hs; [|discriminate]. intros Hrest.
    destruct (is_loop_label l) eqn:Hl.
    + destruct (at_write_ack s id Hloop) as [Honly Hbegin].
      rewrite (Honly l Hl (ex_intro _ s1 Hs)) in Hs.
      rewrite Hbegin in Hs. injection Hs as <-.
      destruct (exec_history_extends rest _ s' Hrest) as [h Hh].
      exists (WriteBegin ReadLoop (unsubscribe_update id) :: h).
      split; [now rewrite Hh; cbn; rewrite <- app_assoc|].
      right. cbn. eauto.
    + destruct (other_step l s s1 Hl Hs) as (Hl1 & _).
      destruct (other_step_history l s s1 Hl Hs) as (h1 & Hh1 & Hprod).
      destruct (IH s1 (eq_trans Hl1 Hloop) Hrest) as (h2 & Hh2 & Hnext).
      exists (h1 ++ h2). split; [now rewrite Hh2, Hh1, app_assoc|].
      rewrite loop_events_app, (loop_events_producer h1 Hprod). exact Hnext.
Qed.

(** C4, as stated, does not hold: a producer that has passed its loop test
    writes its update after the UNSUBSCRIBE has been received and before
    the acknowledgement is written, so the acknowledgement is not the
    next message for the instrument. *)
Lemma C4_counterexample :
  exists s,
    exec straggler_run initial = Some s /\
    acknowledged_first (history s) = false /\
    history s =
      [Received {| action := SUBSCRIBE; instrument_id := "AAPL" |};
       WriteBegin ReadLoop (snapshot_update "AAPL");
       WriteEnd ReadLoop (snapshot_update "AAPL") true;
       ThreadStart "AAPL";
       Received {| action := UNSUBSCRIBE; instrument_id := "AAPL" |};
       WriteBegin (Producer "AAPL") (incremental "AAPL" 0);
       WriteEnd (Producer "AAPL") (incremental "AAPL" 0) true;
       WriteBegin ReadLoop (unsubscribe_update "AAPL");
       WriteEnd ReadLoop (unsubscribe_update "AAPL") true].
Proof. eexists. split; [vm_compute; reflexivity|]. split; reflexivity. Qed.

(** C4, amended.  Whenever the read loop receives an UNSUBSCRIBE, whether
    or not the instrument has a producer and whatever the producers are
    doing: the command is taken at once; the stop signal of the instrument
    is set if and only if [update_threads] has a (joinable) entry for it,
    and no thread is joined or otherwise touched; the next thing the
    thread running [Subscribe] does, before it reads another command, is
    to write one acknowledgement, the empty snapshot with the
    instrument's id, and the call to [Write] is entered and returns
    without waiting for any producer; producers leave the read loop and
    the stop signals alone, so the only events that can come between the
    receipt and the acknowledgement are writes of producers: among the
    events of the thread running [Subscribe], in every reachable state,
    every UNSUBSCRIBE received is followed by its acknowledgement as the
    next message for its instrument. *)
Theorem C4_unsubscribe_ack (id : string) :
  let r := {| action := UNSUBSCRIBE; instrument_id := id |} in
  let ack := unsubscribe_update id in
  (forall s, loop s = AtRead ->
     exists s1,
       step (Read (Some r)) s = Some s1 /\
       loop s1 = AtWriteAck id /\
       update_threads s1 = update_threads s /\
       stop_signals s1 =
         (if streaming s id then <[id := true]> (stop_signals s)
          else stop_signals s) /\
       history s1 = history s ++ [Received r]) /\
  (forall s, loop s = AtWriteAck id ->
     (forall l, is_loop_label l = true -> is_Some (step l s) ->
                l = LoopWriteBegin) /\
     exists s2,
       step LoopWriteBegin s = Some s2 /\
       loop s2 = InWriteAck id /\
       update_threads s2 = update_threads s /\
       stop_signals s2 = stop_signals s /\
       history s2 = history s ++ [WriteBegin ReadLoop ack]) /\
  (forall s ok, loop s = InWriteAck id ->
     (forall l, is_loop_label l = true -> is_Some (step l s) ->
                exists ok', l = LoopWriteEnd ok') /\
     exists s3,
       step (LoopWriteEnd ok) s = Some s3 /\
       loop s3 = (if ok then AtRead else AtSignalAll) /\
       update_threads s3 = update_threads s /\
       stop_signals s3 = stop_signals s /\
       history s3 = history s ++ [WriteEnd ReadLoop ack ok]) /\
  (forall l s s', is_loop_label l = false -> step l s = Some s' ->
     loop s' = loop s /\ stop_signals s' = stop_signals s) /\
  (forall s ls s', loop s = AtRead -> exec (Read (Some r) :: ls) s = Some s' ->
     exists h,
       history s' = history s ++ Received r :: h /\
       ((loop_events h = [] /\ loop s' = AtWriteAck id) \/
        exists h', loop_events h = WriteBegin ReadLoop ack :: h')) /\
  (forall s, reachable s ->
     acknowledged_first (loop_events (history s)) = true).
Proof.
  intros r ack.
  assert (Hread : forall s, loop s = AtRead ->
            step (Read (Some r)) s =
            Some (set_loop (AtWriteAck id)
                    (if streaming s id
                     then set_stop_signals (<[id := true]> (stop_signals s))
                            (record (Received r) s)
                     else record (Received r) s))).
  { intros s Hloop. cbn. unfold Subscribe. rewrite Hloop.
    unfold on_request. cbn. unfold streaming. cbn.
    now destruct (update_threads s !! id) as [[[] ? ?]|]. }
  split; [|split; [|split; [|split; [|split]]]].
  - intros s Hloop. eexists. split; [now apply Hread|].
    destruct (streaming s id); repeat split.
  - intros s Hloop. destruct (at_write_ack s id Hloop) as [Honly Hbegin].
    split; [exact Honly|]. eexists. split; [exact Hbegin|]. repeat split.
  - intros s ok Hloop. destruct (in_write_ack s id ok Hloop) as [Honly Hend].
    split; [exact Honly|]. eexists. split; [exact Hend|]. repeat split.
  - intros l s s' Hl Hstep.
    destruct (other_step l s s' Hl Hstep) as (H1 & H2 & _). now split.
  - intros s ls s' Hloop. cbn [exec]. rewrite (Hread s Hloop). intros Hrest.
    eapply ack_is_next in Hrest as (h & Hh & Hnext); [|reflexivity].
    exists h. split; [|exact Hnext]. rewrite Hh.
    destruct (streaming s id); cbn; now rewrite <- app_assoc.
  - intros s Hr. unfold acknowledged_first.
    now rewrite (scan_loop_events s Hr).
Qed.

Lemma C4_unsubscribe_ack_witness :
  exists s s1,
    exec active_run initial = Some s /\
    live s "AAPL" = true /\
    step (unsubscribe "AAPL") s = Some s1 /\
    loop s1 = AtWriteAck "AAPL" /\
    stop_signals s1 !! "AAPL" = Some true.
Proof.
  assert (Hrun : exists s, exec active_run initial = Some s /\
                           loop s = AtRead /\ live s "AAPL" = true /\
                           streaming s "AAPL" = true).
  { eexists. split; [vm_compute; reflexivity|]. repeat split. }
  destruct Hrun as (s & Hs & Hloop & Hlive & Hstr).
  destruct (proj1 (C4_unsubscribe_ack "AAPL") s Hloop)
    as (s1 & Hstep & Hloop1 & _ & Hstop & _).
  exists s, s1. repeat split; try assumption.
  rewrite Hstop, Hstr. apply lookup_insert_eq.
Defined.

(** *** Writers on the shared stream *)

(** C8, as stated, does not hold: nothing orders the calls to [Write].  In
    this run the producer of AAPL has entered [Write] with its update and
    has not returned when the read loop enters [Write] with the snapshot
    for MSFT. *)
Lemma C8_counterexample :
  exists s,
    exec overlapping_run initial = Some s /\
    writing s (Producer "AAPL") = true /\
    writing s ReadLoop = true /\
    history s =
      [Received {| action := SUBSCRIBE; instrument_id := "AAPL" |};
       WriteBegin ReadLoop (snapshot_update "AAPL");
       WriteEnd ReadLoop (snapshot_update "AAPL") true;
       ThreadStart "AAPL";
       WriteBegin (Producer "AAPL") (incremental "AAPL" 0);
       Received {| action := SUBSCRIBE; instrument_id := "MSFT" |};
       WriteBegin ReadLoop (snapshot_update "MSFT")].
Proof. eexists. split; [vm_compute; reflexivity|]. repeat split. Qed.

(** C8, amended.  The writers of a connection are not serialised against
    each other: a writer that is about to call [Write] enters it whatever
    the other writers are doing, and the writes in progress stay in
    progress.  What is ordered is each writer's own sequence of writes: a
    writer inside [Write] does not enter [Write] again before the call
    has returned. *)
Theorem C8_writers_not_serialised (s : state) (w : writer) :
  (about_to_write s w = true ->
   exists s',
     step (write_begin w) s = Some s' /\
     writing s' w = true /\
     forall w', writing s w' = true -> writing s' w' = true) /\
  (writing s w = true -> step (write_begin w) s = None).
Proof.
  split.
  - destruct w as [|id]; cbn.
    + destruct (loop s) as [|i|i|i|i| |pending|] eqn:Hloop; try discriminate;
        intros _;
        (eexists; split; [reflexivity|]); (split; [reflexivity|]);
        intros [|j]; cbn; rewrite ?Hloop; try discriminate; auto.
    + destruct (update_threads s !! id) as [t|] eqn:Ht; [|discriminate].
      destruct (pc t) eqn:Hpc; try discriminate. intros _.
      eexists. split; [reflexivity|]. cbn. rewrite lookup_insert_eq. cbn.
      split; [reflexivity|].
      intros [|j]; cbn; [auto|].
      destruct (decide (id = j)) as [->|Hne].
      * now rewrite lookup_insert_eq.
      * now rewrite lookup_insert_ne.
  - destruct w as [|id]; cbn.
    + destruct (loop s); congruence.
    + destruct (update_threads s !! id) as [t|]; [|reflexivity].
      destruct (pc t); congruence.
Qed.

Lemma C8_writers_not_serialised_witness :
  exists s s',
    exec contended_run initial = Some s /\
    writing s (Producer "AAPL") = true /\
    step LoopWriteBegin s = Some s' /\
    writing s' ReadLoop = true /\
    writing s' (Producer "AAPL") = true.
Proof.
  assert (Hrun : exists s, exec contended_run initial = Some s /\
                           about_to_write s ReadLoop = true /\
                           writing s (Producer "AAPL") = true).
  { eexists. split; [vm_compute; reflexivity|]. split; reflexivity. }
  destruct Hrun as (s & Hs & Habout & Hprod).
  destruct (proj1 (C8_writers_not_serialised s ReadLoop) Habout)
    as (s' & Hstep & Hloop & Hkeep).
  exists s, s'. repeat split; try assumption.
  now apply Hkeep.
Defined.

(** *** Teardown *)

Ltac producer_moves :=
  cbn [exec step producer_of StreamIncrementalUpdates drain
       pc joinable update_count set_thread set_threads set_pc record
       update_threads stop_signals cancelled loop history stop_requested].

(** A producer whose stop signal is set runs to its end in at most four
    steps, without the read loop or the stop signals being involved. *)
Lemma drain_finishes (id : string) (t : thread) (s : state) :
  update_threads s !! id = Some t -> stop_requested s id = true ->
  exists s' t',
    exec (drain id (pc t)) s = Some s' /\
    loop s' = loop s /\ stop_signals s' = stop_signals s /\
    update_threads s' = <[id := t']> (update_threads s) /\
    pc t' = Finished /\ joinable t' = joinable t.
Proof.
  intros Ht Hstop. unfold stop_requested in Hstop.
  destruct t as [j p c]. destruct p; producer_moves.
  - rewrite Ht. producer_moves. unfold stop_requested; producer_moves; rewrite Hstop. cbn [negb andb].
    eexists _, _. repeat split.
  - rewrite Ht. producer_moves. rewrite lookup_insert_eq. producer_moves.
    rewrite lookup_insert_eq. producer_moves.
    rewrite lookup_insert_eq. producer_moves. unfold stop_requested; producer_moves; rewrite Hstop. cbn [negb andb].
    eexists _, _. split; [reflexivity|]. cbn.
    rewrite !insert_insert_eq. repeat split.
  - rewrite Ht. producer_moves. rewrite lookup_insert_eq. producer_moves.
    rewrite lookup_insert_eq. producer_moves. unfold stop_requested; producer_moves; rewrite Hstop. cbn [negb andb].
    eexists _, _. split; [reflexivity|]. cbn.
    rewrite !insert_insert_eq. repeat split.
  - rewrite Ht. producer_moves. rewrite lookup_insert_eq. producer_moves.
    unfold stop_requested; producer_moves; rewrite Hstop. cbn [negb andb].
    eexists _, _. split; [reflexivity|]. cbn.
    rewrite !insert_insert_eq. repeat split.
  - exists s, {| joinable := j; pc := Finished; update_count := c |}.
    repeat split. symmetry. now apply insert_id.
Qed.

Lemma stop_requested_signalled (s : state) (id : string) :
  threads_have_signals s -> all_signalled s ->
  is_Some (update_threads s !! id) -> stop_requested s id = true.
Proof.
  intros Hsig Hall Hsome. unfold stop_requested.
  destruct (Hsig id Hsome) as [b Hb]. rewrite Hb. cbn. now apply (Hall id).
Qed.

(** Visiting the pending entries in order, letting each producer run to
    its end before its [join()], reaches line 179. *)
Lemma join_phase_completes (ts0 : gmap string thread) (pending : list string) :
  forall s,
    loop s = AtJoin pending -> NoDup pending ->
    threads_have_signals s -> all_signalled s ->
    (forall id, id ∈ pending -> update_threads s !! id = ts0 !! id) ->
    exists s',
      exec (flat_map (drain_and_join ts0) pending ++ [LoopReturn]) s = Some s' /\
      loop s' = Returned.
Proof.
  induction pending as [|id rest IH]; intros s Hloop Hnd Hsig Hall Hsame.
  - cbn. unfold Subscribe. rewrite Hloop. eexists. split; reflexivity.
  - apply NoDup_cons in Hnd as [Hnotin Hnd].
    cbn [flat_map]. rewrite <- app_assoc, exec_app.
    assert (Hid : update_threads s !! id = ts0 !! id)
      by (apply Hsame; left).
    assert (Hskip : forall s1,
              loop s1 = AtJoin rest -> stop_signals s1 = stop_signals s ->
              (exists t1, update_threads s1 = <[id := t1]> (update_threads s) /\
                          is_Some (update_threads s !! id)) \/
              update_threads s1 = update_threads s ->
              exists s',
                exec (flat_map (drain_and_join ts0) rest ++ [LoopReturn]) s1
                  = Some s' /\ loop s' = Returned).
    { intros s1 Hl1 Hst1 Hth1. apply IH; try assumption.
      - intros j Hj. rewrite Hst1. apply Hsig.
        destruct Hth1 as [(t1 & Hth1 & Hsome) | Hth1]; rewrite Hth1 in Hj.
        + eapply is_Some_insert_known; eauto.
        + exact Hj.
      - intros j b. rewrite Hst1. apply Hall.
      - intros j Hj. rewrite <- Hsame by (now right).
        destruct Hth1 as [(t1 & Hth1 & _) | Hth1]; rewrite Hth1.
        + apply lookup_insert_ne. intros ->. contradiction.
        + reflexivity. }
    unfold drain_and_join at 1. rewrite <- Hid.
    destruct (update_threads s !! id) as [t|] eqn:Ht.
    + destruct (joinable t) eqn:Hj.
      * destruct (drain_finishes id t s Ht) as (s1 & t1 & Hrun & Hl1 & Hst1 & Hth1 & Hpc1 & Hj1).
        { apply stop_requested_signalled; eauto. }
        rewrite exec_app, Hrun. cbn [exec step producer_of].
        unfold Subscribe. rewrite Hl1, Hloop. unfold join_next.
        rewrite Hth1, lookup_insert_eq, Hj1, Hj, Hpc1.
        apply Hskip; [reflexivity | exact Hst1 |].
        left. cbn. rewrite insert_insert_eq. eauto.
      * cbn [app exec step producer_of]. unfold Subscribe. rewrite Hloop.
        unfold join_next. rewrite Ht, Hj.
        apply Hskip; [reflexivity | reflexivity | now right].
    + cbn [app exec step producer_of]. unfold Subscribe. rewrite Hloop.
      unfold join_next. rewrite Ht.
      apply Hskip; [reflexivity | reflexivity | now right].
Qed.

Lemma teardown_completes (s : state) :
  invariant s -> loop s = AtSignalAll ->
  exists s', exec (teardown_schedule s) s = Some s' /\ loop s' = Returned.
Proof.
  intros Hinv Hloop. unfold teardown_schedule. cbn [exec].
  assert (Hstep : step SignalAll s = Some (signal_all s))
    by (cbn; unfold Subscribe; now rewrite Hloop).
  rewrite Hstep.
  pose proof (invariant_step _ _ _ Hinv Hstep) as [Hsig Hinv'].
  cbn in Hinv'. destruct Hinv' as (Hnd & Hall & _).
  apply join_phase_completes; try assumption; reflexivity.
Qed.

(** C9.  In every reachable state: each way out of the read loop ([Read]
    returning false, a failed write of a snapshot or of an
    acknowledgement) leads to line 163; from there the stop signal of every
    subscription is set first and the entries of [update_threads] are then
    joined one after the other, which is completed as soon as the
    producers, finding their signal set, have returned, and they do within
    four steps each; and once [Subscribe] has returned every stop signal
    is set, every thread has been joined and no producer is live. *)
Theorem C9_teardown (s : state) :
  reachable s ->
  (loop s = AtRead ->
     step (Read None) s = Some (set_loop AtSignalAll s)) /\
  (forall id, loop s = InWriteSnapshot id \/ loop s = InWriteAck id ->
     exists s', step (LoopWriteEnd false) s = Some s' /\ loop s' = AtSignalAll) /\
  (loop s = AtSignalAll ->
     (exists s1,
        step SignalAll s = Some s1 /\ all_signalled s1 /\
        update_threads s1 = update_threads s /\
        loop s1 = AtJoin (thread_ids (update_threads s))) /\
     (exists s', exec (teardown_schedule s) s = Some s' /\ loop s' = Returned)) /\
  (forall pending, loop s = AtJoin pending -> all_signalled s) /\
  (loop s = Returned ->
     all_signalled s /\
     (forall id t, update_threads s !! id = Some t -> joined t) /\
     (forall id, live s id = false)).
Proof.
  intros Hr. pose proof (reachable_invariant s Hr) as Hinv.
  split; [|split; [|split; [|split]]].
  - intros Hloop. cbn. unfold Subscribe. now rewrite Hloop.
  - intros id [Hloop | Hloop]; cbn; unfold Subscribe; rewrite Hloop;
      eexists; split; reflexivity.
  - intros Hloop. split.
    + assert (Hstep : step SignalAll s = Some (signal_all s))
        by (cbn; unfold Subscribe; now rewrite Hloop).
      exists (signal_all s). split; [exact Hstep|].
      pose proof (invariant_step _ _ _ Hinv Hstep) as [_ Hinv'].
      cbn in Hinv'. destruct Hinv' as (_ & Hall & _).
      repeat split. exact Hall.
    + now apply teardown_completes.
  - intros pending Hloop. destruct Hinv as [_ Hinv]. rewrite Hloop in Hinv.
    now destruct Hinv as (_ & Hall & _).
  - intros Hloop. destruct Hinv as [_ Hinv]. rewrite Hloop in Hinv.
    destruct Hinv as [Hall Hjoined]. repeat split; try assumption.
    + now apply (Hjoined id t).
    + now apply (Hjoined id t).
    + intros id. unfold live.
      destruct (update_threads s !! id) as [t|] eqn:Ht; [|reflexivity].
      destruct (Hjoined id t Ht) as [_ ->]. reflexivity.
Qed.

Lemma C9_teardown_witness :
  exists s s',
    exec closing_run initial = Some s /\
    live s "AAPL" = true /\ live s "MSFT" = true /\
    exec (teardown_schedule s) s = Some s' /\
    loop s' = Returned /\
    live s' "AAPL" = false /\ live s' "MSFT" = false.
Proof.
  assert (Hrun : exists s, exec closing_run initial = Some s /\
                           loop s = AtSignalAll /\
                           live s "AAPL" = true /\ live s "MSFT" = true).
  { eexists. split; [vm_compute; reflexivity|]. repeat split. }
  destruct Hrun as (s & Hs & Hloop & Hl1 & Hl2).
  assert (Hr : reachable s) by (now exists closing_run).
  destruct (C9_teardown s Hr) as (_ & _ & Hdown & _ & _).
  destruct (Hdown Hloop) as (_ & s' & Hs' & Hloop').
  assert (Hr' : reachable s') by (now apply (reachable_exec (teardown_schedule s) s s')).
  destruct (C9_teardown s' Hr') as (_ & _ & _ & _ & Hret).
  destruct (Hret Hloop') as (_ & _ & Hdead).
  exists s, s'. repeat split; try assumption; apply Hdead.
Defined.

End ServerSpec.

(** ** Conversion of [int] to [double] *)

Module ConversionFacts.
Import Double.

Lemma digits2_pos_shift (k p : BinNums.positive) :
  Zpos (digits2_pos (Pos.iter xO p k)) = Zpos (digits2_pos p) + Zpos k.
Proof.
  revert p. induction k as [|k IH] using Pos.peano_ind; intros p.
  - cbn. lia.
  - rewrite Pos.iter_succ. cbn [digits2_pos]. rewrite Pos2Z.inj_succ, IH. lia.
Qed.

Lemma digits2_pos_bound (p : BinNums.positive) :
  Zpos p < 2 ^ 53 -> Zpos (digits2_pos p) <= 53.
Proof.
  intros Hp.
  assert (Hsize : digits2_pos p = Pos.size p)
    by (clear; induction p; cbn; congruence).
  rewrite Hsize.
  destruct (Z.le_gt_cases (Zpos (Pos.size p)) 53) as [|Hgt]; [assumption|].
  exfalso. pose proof (Pos.size_le p) as Hle.
  assert (H54 : 2 ^ 54 <= Zpos (2 ^ Pos.size p)).
  { rewrite Pos2Z.inj_pow. apply Z.pow_le_mono_r; lia. }
  assert (H2p : Zpos (2 ^ Pos.size p) <= Zpos p~0)
    by (apply Pos2Z.pos_le_pos; exact Hle).
  change (2 ^ 54) with (2 * 2 ^ 53) in H54. lia.
Qed.

(** An integer between 1 and [2^53 - 1] converts to a positive finite
    double (no rounding takes place: the mantissa is the integer shifted
    to 53 bits). *)
Lemma of_int_finite (n : Z) :
  0 < n < 2 ^ 53 -> exists m e, of_int n = S754_finite false m e.
Proof.
  intros [Hpos Hlt]. destruct n as [|p|p]; try lia.
  apply digits2_pos_bound in Hlt.
  unfold of_int, of_scaled, binary_normalize, binary_round, prec, emax.
  set (d := Zpos (digits2_pos p)) in *.
  assert (Hf : fexp 53 1024 (d + 0) = d - 53) by (unfold fexp, emin; lia).
  rewrite Hf. unfold shl_align.
  destruct (d - 53 - 0) as [|q|q] eqn:Hq; try lia.
  - unfold binary_round_aux, shr_fexp. cbn [Zdigits2 shr_record_of_loc].
    fold d. rewrite Hf. replace (d - 53 - 0) with 0 by lia.
    cbn [shr shr_m loc_of_shr_record round_nearest_even Zdigits2
         shr_record_of_loc].
    fold d. rewrite Hf. replace (d - 53 - 0) with 0 by lia. cbn [shr shr_m].
    destruct (0 <=? 1024 - 53) eqn:E; [eauto | discriminate].
  - unfold binary_round_aux, shr_fexp. cbn [Zdigits2 shr_record_of_loc].
    rewrite digits2_pos_shift. fold d.
    assert (Hf2 : fexp 53 1024 (d + Zpos q + (d - 53)) - (d - 53) = 0)
      by (unfold fexp, emin; lia).
    rewrite Hf2.
    cbn [shr shr_m loc_of_shr_record round_nearest_even Zdigits2
         shr_record_of_loc].
    rewrite digits2_pos_shift. fold d. rewrite Hf2. cbn [shr shr_m].
    destruct (d - 53 <=? 1024 - 53) eqn:E; [eauto|].
    apply Z.leb_gt in E. lia.
Qed.

Lemma positive_of_int (n : Z) : 0 < n < 2 ^ 53 -> positive (of_int n) = true.
Proof. intros Hn. destruct (of_int_finite n Hn) as (m & e & ->). reflexivity. Qed.

End ConversionFacts.

(** ** More on the reconciler: what a message touches, what is shown *)

Module ClientIOSpec.
Import Double StdMap Wire Client DoubleFacts StdMapFacts ClientSpec ClientIO.
Import Server (price_level, snapshot_update, unsubscribe_update, incremental,
               instrument_of).
Import Scenario.

(** *** Nodes and lookups *)

Lemma find_member (k v : double) (m : std_map) :
  wf m -> In (k, v) m -> find k m = Some v.
Proof.
  induction m as [|[k' v'] tl IH]; intros Hwf Hin; [contradiction|].
  apply wf_cons_inv in Hwf as (Htl & Hk' & Habove).
  destruct Hin as [[= -> ->] | Hin]; cbn.
  - now rewrite ltb_irrefl.
  - assert (Hlt : ltb k' k = true).
    { rewrite Forall_forall in Habove. apply list_elem_of_In in Hin.
      exact (Habove (k, v) Hin). }
    rewrite Hlt. now apply IH.
Qed.

Lemma find_Some_member (k v : double) (m : std_map) :
  find k m = Some v -> exists k', equiv k k' = true /\ In (k', v) m.
Proof.
  induction m as [|[k' v'] tl IH]; cbn; [discriminate|].
  destruct (ltb k' k) eqn:Hlt.
  - intros Hf. destruct (IH Hf) as (k1 & He & Hin). eauto.
  - destruct (ltb k k') eqn:Hgt; [discriminate|]. intros [= ->].
    exists k'. split; [|now left]. unfold equiv. now rewrite Hlt, Hgt.
Qed.


(** *** The printed book *)

Lemma levels_until_label_levels (side : list (double * double)) (rest : list line) :
  (match rest with Level _ _ :: _ => False | _ => True end) ->
  levels_until_label
    (map (fun e => Level (fixed2 e.1) (fixed2 e.2)) side ++ rest) =
  map shown side.
Proof.
  intros Hrest. induction side as [|[p q] tl IH]; cbn.
  - destruct rest as [|[] ?]; try reflexivity. contradiction.
  - now rewrite IH.
Qed.

Lemma after_label_levels (label : line -> bool) (side : list (double * double))
    (rest : list line) :
  (forall p q, label (Level p q) = false) ->
  after_label label
    (map (fun e => Level (fixed2 e.1) (fixed2 e.2)) side ++ rest) =
  after_label label rest.
Proof.
  intros Hlabel. induction side as [|[p q] tl IH]; cbn; [reflexivity|].
  now rewrite Hlabel.
Qed.

Lemma printed_sections (id : string) (bids asks : std_map) :
  printed_asks (PrintOrderBook id bids asks) = map shown (rev asks) /\
  printed_bids (PrintOrderBook id bids asks) = map shown (rev bids).
Proof.
  unfold printed_asks, printed_bids, PrintOrderBook, levels_from_rbegin.
  split; cbn.
  - now apply levels_until_label_levels.
  - rewrite after_label_levels by reflexivity. cbn.
    now apply levels_until_label_levels.
Qed.

Lemma printed_levels (c : MarketDataClient) (update : MarketDataUpdate)
    (id : string) :
  instrument_of update = Some id ->
  printed_asks (printed c update) =
    map shown (rev (book (order_books_asks_ (process_update c update)) id)) /\
  printed_bids (printed c update) =
    map shown (rev (book (order_books_bids_ (process_update c update)) id)).
Proof.
  destruct update as [s|u|]; cbn [instrument_of]; intros [= <-].
  - exact (printed_sections (snapshot_instrument_id s)
             (book (order_books_bids_ (on_snapshot s c)) (snapshot_instrument_id s))
             (book (order_books_asks_ (on_snapshot s c)) (snapshot_instrument_id s))).
  - exact (printed_sections (incremental_instrument_id u)
             (book (order_books_bids_ (on_incremental u c))
                   (incremental_instrument_id u))
             (book (order_books_asks_ (on_incremental u c))
                   (incremental_instrument_id u))).
Qed.

Lemma printed_nothing (c : MarketDataClient) (update : MarketDataUpdate) :
  instrument_of update = None ->
  printed_asks (printed c update) = [] /\ printed_bids (printed c update) = [].
Proof. destruct update; cbn; intros; try discriminate. now split. Qed.

(** Two decimals: 99.5 is shown as 99.50 and the double nearest to 0.1 as
    0.10; a tie goes to the even hundredth (0.125 as 0.12, 0.375 as 0.38);
    the prices 99.001 and 99.002, which are different keys, are both shown
    as 99.00. *)
Example fixed2_examples :
  fixed2 (of_scaled 199 (-1)) = Hundredths false 9950 /\
  fixed2 Server.tenth = Hundredths false 10 /\
  fixed2 (of_scaled 1 (-3)) = Hundredths false 12 /\
  fixed2 (of_scaled 3 (-3)) = Hundredths false 38 /\
  fixed2 (div (of_int 99001) (of_int 1000)) = Hundredths false 9900 /\
  fixed2 (div (of_int 99002) (of_int 1000)) = Hundredths false 9900 /\
  ltb (div (of_int 99001) (of_int 1000)) (div (of_int 99002) (of_int 1000)) = true.
Proof. repeat split; vm_compute; reflexivity. Qed.



(** X2.  When no price received is NaN, the book printed after a message
    is the stored book of the message's instrument, level for level: each
    printed line shows, with two decimals, a price and the quantity that
    [find] returns for that price; every price that [find] locates has its
    line; and there are as many lines as nodes on each side. *)
Theorem printed_book_is_stored_book (received : list MarketDataUpdate)
    (update : MarketDataUpdate) (id : string) :
  Forall ordered_update received -> ordered_update update ->
  instrument_of update = Some id ->
  let c := SubscribeToMarketData received empty_client in
  let c' := process_update c update in
  let out := printed c update in
  (forall l, In l (printed_bids out) ->
     exists p q, l = shown (p, q) /\
                 find p (book (order_books_bids_ c') id) = Some q) /\
  (forall l, In l (printed_asks out) ->
     exists p q, l = shown (p, q) /\
                 find p (book (order_books_asks_ c') id) = Some q) /\
  (forall p q, find p (book (order_books_bids_ c') id) = Some q ->
     exists p', equiv p p' = true /\ In (shown (p', q)) (printed_bids out)) /\
  (forall p q, find p (book (order_books_asks_ c') id) = Some q ->
     exists p', equiv p p' = true /\ In (shown (p', q)) (printed_asks out)) /\
  length (printed_bids out) = length (book (order_books_bids_ c') id) /\
  length (printed_asks out) = length (book (order_books_asks_ c') id).
Proof.
  intros Hreceived Hupdate Hid c c' out. subst out c'.
  pose proof (client_wf_read_loop received empty_client client_wf_empty Hreceived)
    as Hc. fold c in Hc.
  pose proof (client_wf_process_update _ _ Hc Hupdate) as [Hb Ha].
  destruct (printed_levels c update id Hid) as [-> ->].
  repeat split.
  - intros l Hin. apply in_map_iff in Hin as ([p q] & <- & Hin).
    apply in_rev in Hin. exists p, q. split; [reflexivity|].
    apply find_member; [now apply wf_book | exact Hin].
  - intros l Hin. apply in_map_iff in Hin as ([p q] & <- & Hin).
    apply in_rev in Hin. exists p, q. split; [reflexivity|].
    apply find_member; [now apply wf_book | exact Hin].
  - intros p q Hf. apply find_Some_member in Hf as (p' & He & Hin).
    exists p'. split; [exact He|]. apply in_map. now apply in_rev in Hin.
  - intros p q Hf. apply find_Some_member in Hf as (p' & He & Hin).
    exists p'. split; [exact He|]. apply in_map. now apply in_rev in Hin.
  - now rewrite length_map, length_rev.
  - now rewrite length_map, length_rev.
Qed.

Lemma printed_book_is_stored_book_witness :
  length (printed_bids
            (printed (SubscribeToMarketData [snapshot_update "AAPL"] empty_client)
                     (incremental "AAPL" 1))) =
  length (book (order_books_bids_
                  (process_update
                     (SubscribeToMarketData [snapshot_update "AAPL"] empty_client)
                     (incremental "AAPL" 1))) "AAPL").
Proof.
  assert (Hreceived : Forall ordered_update [snapshot_update "AAPL"])
    by (repeat constructor).
  assert (Hupdate : ordered_update (incremental "AAPL" 1))
    by (repeat constructor).
  exact (proj1 (proj2 (proj2 (proj2 (proj2
    (printed_book_is_stored_book [snapshot_update "AAPL"] (incremental "AAPL" 1)
       "AAPL" Hreceived Hupdate eq_refl)))))).
Defined.

(** *** The writer thread *)

(** X3.  The writer thread sends SUBSCRIBE commands for the instruments in
    the order of the list and stops at the first write that fails: its
    calls of [Write] are successes for a prefix of the list followed by at
    most one failure for the next instrument; nothing is attempted for the
    instruments after a failure, and without a failure every instrument of
    the list is sent. *)
Theorem writer_thread_stops_at_first_failure (instrument_ids : list string)
    (outcome : nat -> bool) (k : nat) :
  exists sent failed rest,
    writer_thread instrument_ids outcome k =
      map (fun id => (subscribe_request id, true)) sent ++
      map (fun id => (subscribe_request id, false)) failed /\
    instrument_ids = sent ++ failed ++ rest /\
    (length failed <= 1)%nat /\
    (failed = [] -> rest = []) /\
    (forall i, (i < length sent)%nat -> outcome (k + i)%nat = true) /\
    (failed <> [] -> outcome (k + length sent)%nat = false).
Proof.
  revert k. induction instrument_ids as [|id ids IH]; intros k.
  - exists [], [], []. cbn. repeat split; try lia; congruence.
  - cbn [writer_thread]. destruct (outcome k) eqn:Hk.
    + destruct (IH (S k))
        as (sent & failed & rest & -> & -> & Hlen & Hrest & Hok & Hfail).
      exists (id :: sent), failed, rest. cbn [map app length].
      repeat split; try assumption.
      * intros [|i] Hi; [now rewrite Nat.add_0_r|].
        replace (k + S i)%nat with (S k + i)%nat by lia. apply Hok. lia.
      * intros Hne. replace (k + S (length sent))%nat
          with (S k + length sent)%nat by lia. now apply Hfail.
    + exists [], [id], ids. cbn. repeat split; try lia; try congruence.
      intros _. now rewrite Nat.add_0_r.
Qed.

(** *** What a message touches *)

Lemma process_update_other (c : MarketDataClient) (update : MarketDataUpdate)
    (id : string) :
  instrument_of update <> Some id ->
  order_books_bids_ (process_update c update) !! id = order_books_bids_ c !! id /\
  order_books_asks_ (process_update c update) !! id = order_books_asks_ c !! id.
Proof.
  destruct update as [s|u|]; cbn [process_update instrument_of]; intros Hid.
  - rewrite on_snapshot_eq. cbn.
    rewrite !lookup_insert_ne by congruence. now split.
  - rewrite on_incremental_eq. cbn.
    rewrite !lookup_insert_ne by congruence. now split.
  - now split.
Qed.

Lemma process_update_dom (c : MarketDataClient) (update : MarketDataUpdate) :
  dom (order_books_bids_ (process_update c update)) =
    dom (order_books_bids_ c) ∪ instruments [update] /\
  dom (order_books_asks_ (process_update c update)) =
    dom (order_books_asks_ c) ∪ instruments [update].
Proof.
  unfold instruments.
  destruct update as [s|u|]; cbn [process_update omap instrument_of list_to_set].
  - rewrite on_snapshot_eq. cbn.
    rewrite !dom_insert_L, (right_id_L ∅ (∪)). split; apply (comm_L (∪)).
  - rewrite on_incremental_eq. cbn.
    rewrite !dom_insert_L, (right_id_L ∅ (∪)). split; apply (comm_L (∪)).
  - cbn. now rewrite !(right_id_L ∅ (∪)).
Qed.

Lemma instruments_cons (update : MarketDataUpdate) (updates : list MarketDataUpdate) :
  instruments (update :: updates) = instruments [update] ∪ instruments updates.
Proof.
  unfold instruments. change (update :: updates) with ([update] ++ updates).
  now rewrite omap_app, list_to_set_app_L.
Qed.

(** X4.  A run of the read loop leaves alone the books of every instrument
    that none of the messages names: their entries, present or absent, are
    the same after as before, on both sides. *)
Theorem unnamed_instruments_untouched (updates : list MarketDataUpdate)
    (c : MarketDataClient) (id : string) :
  id ∉ instruments updates ->
  order_books_bids_ (SubscribeToMarketData updates c) !! id =
    order_books_bids_ c !! id /\
  order_books_asks_ (SubscribeToMarketData updates c) !! id =
    order_books_asks_ c !! id.
Proof.
  revert c. induction updates as [|update updates IH]; intros c Hid.
  - now split.
  - rewrite instruments_cons in Hid. apply not_elem_of_union in Hid as [Hu Hrest].
    change (SubscribeToMarketData (update :: updates) c)
      with (SubscribeToMarketData updates (process_update c update)).
    destruct (IH (process_update c update) Hrest) as [-> ->].
    apply process_update_other. intros Heq. apply Hu.
    unfold instruments. cbn. rewrite Heq. cbn. apply elem_of_union_l.
    now apply elem_of_singleton.
Qed.

Lemma unnamed_instruments_untouched_witness :
  order_books_bids_
    (SubscribeToMarketData [incremental "MSFT" 0; unsubscribe_update "MSFT"]
       subscribed_client) !! "AAPL" =
  order_books_bids_ subscribed_client !! "AAPL".
Proof.
  apply unnamed_instruments_untouched.
  unfold instruments. rewrite elem_of_list_to_set. cbn.
  intros Hin. repeat (apply elem_of_cons in Hin as [Hin|Hin]; [discriminate|]).
  now apply elem_of_nil in Hin.
Defined.

(** X5.  The client never removes an instrument: after a run of the read
    loop each side has an entry for exactly the instruments it had before
    and those named by a message received, so that a client that starts
    empty has the same instruments on its bid and on its ask side. *)
Theorem instruments_only_added (updates : list MarketDataUpdate)
    (c : MarketDataClient) :
  dom (order_books_bids_ (SubscribeToMarketData updates c)) =
    dom (order_books_bids_ c) ∪ instruments updates /\
  dom (order_books_asks_ (SubscribeToMarketData updates c)) =
    dom (order_books_asks_ c) ∪ instruments updates /\
  dom (order_books_bids_ (SubscribeToMarketData updates empty_client)) =
    dom (order_books_asks_ (SubscribeToMarketData updates empty_client)).
Proof.
  assert (Hdom : forall c0,
    dom (order_books_bids_ (SubscribeToMarketData updates c0)) =
      dom (order_books_bids_ c0) ∪ instruments updates /\
    dom (order_books_asks_ (SubscribeToMarketData updates c0)) =
      dom (order_books_asks_ c0) ∪ instruments updates).
  { induction updates as [|update updates IH]; intros c0.
    - unfold instruments. cbn. now rewrite !(right_id_L ∅ (∪)).
    - change (SubscribeToMarketData (update :: updates) c0)
        with (SubscribeToMarketData updates (process_update c0 update)).
      destruct (IH (process_update c0 update)) as [-> ->].
      destruct (process_update_dom c0 update) as [-> ->].
      rewrite (instruments_cons update updates).
      now rewrite !(assoc_L (∪)). }
  destruct (Hdom c) as [Hb Ha]. repeat split; try assumption.
  destruct (Hdom empty_client) as [-> ->]. cbn. now rewrite !dom_empty_L.
Qed.

(** X6.  Messages for different instruments commute: the client ends in
    the same state whichever of the two it receives first, so that the
    order in which the server's writers interleave matters to the books
    only between messages for the same instrument. *)
Theorem different_instruments_commute (c : MarketDataClient)
    (first second : MarketDataUpdate) :
  instrument_of first <> instrument_of second ->
  process_update (process_update c first) second =
  process_update (process_update c second) first.
Proof.
  destruct first as [s1|u1|], second as [s2|u2|];
    cbn [instrument_of process_update]; intros Hne; try reflexivity;
    rewrite ?on_snapshot_eq, ?on_incremental_eq; cbn;
    unfold book; rewrite ?lookup_insert_ne by congruence;
    f_equal; apply insert_insert_ne; congruence.
Qed.

Lemma different_instruments_commute_witness :
  process_update (process_update subscribed_client (incremental "AAPL" 0))
                 (snapshot_update "MSFT") =
  process_update (process_update subscribed_client (snapshot_update "MSFT"))
                 (incremental "AAPL" 0).
Proof. apply different_instruments_commute. cbn. discriminate. Defined.

(** *** Lookups after a message *)

Lemma wf_assign_levels (levels : list PriceLevel) (m : std_map) :
  wf m -> ordered_prices levels ->
  wf (fold_left (fun m level => assign (price level) (quantity level) m) levels m).
Proof.
  revert m. induction levels as [|level rest IH]; intros m Hwf Hord; cbn.
  - assumption.
  - inversion Hord; subst. apply IH; [now apply wf_assign | assumption].
Qed.

Lemma find_assign_levels_other (p : double) (levels : list PriceLevel)
    (m : std_map) :
  wf m -> ordered_prices levels -> is_nan p = false ->
  Forall (fun level => equiv p (price level) = false) levels ->
  find p (fold_left (fun m level => assign (price level) (quantity level) m)
            levels m) = find p m.
Proof.
  revert m. induction levels as [|level rest IH]; intros m Hwf Hord Hp Hother; cbn.
  - reflexivity.
  - inversion Hord; subst. inversion Hother; subst.
    rewrite IH by (try apply wf_assign; assumption).
    now apply find_assign_other.
Qed.

Lemma find_build_side_last (before after : list PriceLevel) (level : PriceLevel) :
  ordered_prices (before ++ level :: after) ->
  Forall (fun later => equiv (price level) (price later) = false) after ->
  find (price level) (build_side (before ++ level :: after)) =
  Some (quantity level).
Proof.
  intros Hord Hlater. apply Forall_app in Hord as [Hbefore Hrest].
  inversion Hrest as [|? ? Hp Hafter]; subst.
  unfold build_side. rewrite fold_left_app. cbn [fold_left].
  assert (Hwf : wf (fold_left
            (fun m level => assign (price level) (quantity level) m) before []))
    by (apply wf_assign_levels; [apply wf_nil | assumption]).
  rewrite find_assign_levels_other by (try apply wf_assign; assumption).
  apply find_assign_same.
Qed.

(** X7.  After a snapshot (prices not NaN), whatever the client held
    before: a price of the snapshot is found with the quantity of the last
    level that names it, stored as received and without the test
    [quantity > 0] of the incremental branch; a price the snapshot does
    not name is not found. *)
Theorem snapshot_lookups (s : OrderBookSnapshot) (c : MarketDataClient) :
  ordered_prices (bids s) -> ordered_prices (asks s) ->
  let id := snapshot_instrument_id s in
  let c' := process_update c (snapshot s) in
  (forall before level after,
     bids s = before ++ level :: after ->
     Forall (fun later => equiv (price level) (price later) = false) after ->
     find (price level) (book (order_books_bids_ c') id) = Some (quantity level)) /\
  (forall before level after,
     asks s = before ++ level :: after ->
     Forall (fun later => equiv (price level) (price later) = false) after ->
     find (price level) (book (order_books_asks_ c') id) = Some (quantity level)) /\
  (forall p, is_nan p = false ->
     Forall (fun level => equiv p (price level) = false) (bids s) ->
     find p (book (order_books_bids_ c') id) = None) /\
  (forall p, is_nan p = false ->
     Forall (fun level => equiv p (price level) = false) (asks s) ->
     find p (book (order_books_asks_ c') id) = None).
Proof.
  intros Hb Ha id c'. subst c' id. cbn [process_update].
  rewrite on_snapshot_eq. cbn [order_books_bids_ order_books_asks_].
  rewrite !book_insert. repeat split.
  - intros before level after Heq Hlater. rewrite Heq in Hb |- *.
    now apply find_build_side_last.
  - intros before level after Heq Hlater. rewrite Heq in Ha |- *.
    now apply find_build_side_last.
  - intros p Hp Hother. unfold build_side.
    now rewrite find_assign_levels_other by (try apply wf_nil; assumption).
  - intros p Hp Hother. unfold build_side.
    now rewrite find_assign_levels_other by (try apply wf_nil; assumption).
Qed.

Lemma snapshot_lookups_witness :
  find (of_int 99)
    (book (order_books_bids_ (process_update subscribed_client
                                (snapshot repeated_snapshot))) "MSFT")
  = Some (of_int 30).
Proof.
  assert (Hb : ordered_prices (bids repeated_snapshot)) by (repeat constructor).
  assert (Ha : ordered_prices (asks repeated_snapshot)) by (repeat constructor).
  exact (proj1 (snapshot_lookups repeated_snapshot subscribed_client Hb Ha)
           [price_level (of_int 99) (of_int 10);
            price_level (of_int 98) (of_int 20)]
           (price_level (of_int 99) (of_int 30)) [] eq_refl (Forall_nil_2 _)).
Defined.

(** X8.  An incremental update changes only the prices it names: after any
    received history (prices not NaN), a price that is equivalent to none
    of the message's bid prices is found on the bid side with the same
    result after the message as before, and likewise on the ask side. *)
Theorem unnamed_prices_untouched (received : list MarketDataUpdate)
    (u : OrderBookIncrementalUpdate) (p : double) :
  Forall ordered_update received ->
  ordered_prices (bid_updates u) -> ordered_prices (ask_updates u) ->
  is_nan p = false ->
  let id := incremental_instrument_id u in
  let c := SubscribeToMarketData received empty_client in
  let c' := process_update c (incremental_update u) in
  (Forall (fun level => equiv p (price level) = false) (bid_updates u) ->
   find p (book (order_books_bids_ c') id) = find p (book (order_books_bids_ c) id)) /\
  (Forall (fun level => equiv p (price level) = false) (ask_updates u) ->
   find p (book (order_books_asks_ c') id) = find p (book (order_books_asks_ c) id)).
Proof.
  intros Hreceived Hb Ha Hp id c c'. subst c'. cbn [process_update].
  pose proof (client_wf_read_loop received empty_client client_wf_empty Hreceived)
    as [Hwb Hwa]. fold c in Hwb, Hwa.
  rewrite on_incremental_eq. cbn [order_books_bids_ order_books_asks_].
  fold id. rewrite !book_insert. split; intros Hother.
  - apply find_apply_levels_other; try assumption. now apply wf_book.
  - apply find_apply_levels_other; try assumption. now apply wf_book.
Qed.

Lemma unnamed_prices_untouched_witness :
  find (of_scaled 201 (-1))
    (book (order_books_asks_
             (process_update (SubscribeToMarketData [snapshot_update "AAPL"] empty_client)
                (incremental_update mixed_update))) "AAPL") =
  find (of_scaled 201 (-1))
    (book (order_books_asks_
             (SubscribeToMarketData [snapshot_update "AAPL"] empty_client)) "AAPL").
Proof.
  assert (Hreceived : Forall ordered_update [snapshot_update "AAPL"])
    by (repeat constructor).
  assert (Hb : ordered_prices (bid_updates mixed_update)) by (repeat constructor).
  assert (Ha : ordered_prices (ask_updates mixed_update)) by (repeat constructor).
  apply (unnamed_prices_untouched [snapshot_update "AAPL"] mixed_update
           (of_scaled 201 (-1)) Hreceived Hb Ha eq_refl).
  repeat constructor.
Defined.

(** *** The number of levels *)

Lemma length_assign (k v : double) (m : std_map) :
  wf m -> is_nan k = false ->
  length (assign k v m) =
  match find k m with Some _ => length m | None => S (length m) end.
Proof.
  induction m as [|[k' v'] tl IH]; intros Hwf Hk; cbn; [reflexivity|].
  apply wf_cons_inv in Hwf as (Htl & Hk' & Habove).
  destruct (ltb k' k) eqn:Hlt; cbn.
  - rewrite IH by assumption. now destruct (find k tl).
  - now destruct (ltb k k').
Qed.

Lemma length_erase (k : double) (m : std_map) :
  wf m -> is_nan k = false ->
  length (erase k m) =
  match find k m with Some _ => Nat.pred (length m) | None => length m end.
Proof.
  induction m as [|[k' v'] tl IH]; intros Hwf Hk; [reflexivity|].
  pose proof Hwf as Hwf'.
  apply wf_cons_inv in Hwf as (Htl & Hk' & Habove).
  destruct (ltb k' k) eqn:Hlt.
  - cbn. rewrite Hlt. cbn. rewrite IH by assumption.
    destruct (find k tl) eqn:Hf; [|reflexivity].
    destruct tl; [discriminate | reflexivity].
  - destruct (ltb k k') eqn:Hgt.
    + cbn. now rewrite Hlt, Hgt.
    + rewrite erase_equivalent by assumption. cbn. now rewrite Hlt, Hgt.
Qed.

(** X9.  One changed level of an incremental update changes the number of
    levels of the side by at most one, and only in the direction its
    quantity tells: with quantity > 0 a level is added when the price was
    absent and the count stays when it was present; otherwise a level is
    removed when the price was present and the count stays when it was
    absent. *)
Theorem level_count_after_update (m : std_map) (level : PriceLevel) :
  wf m -> is_nan (price level) = false ->
  length (level_step m level) =
  match find (price level) m, positive (quantity level) with
  | None, true => S (length m)
  | Some _, false => Nat.pred (length m)
  | _, _ => length m
  end.
Proof.
  intros Hwf Hp. unfold level_step.
  destruct (positive (quantity level)).
  - rewrite length_assign by assumption. now destruct (find (price level) m).
  - rewrite length_erase by assumption. now destruct (find (price level) m).
Qed.

Lemma level_count_after_update_witness :
  length (level_step (book (order_books_bids_ subscribed_client) "AAPL")
            (price_level (of_int 99) zero)) = 1%nat.
Proof.
  assert (Hwf : wf (book (order_books_bids_ subscribed_client) "AAPL")).
  { apply wf_book, (client_wf_process_update empty_client (snapshot_update "AAPL")).
    - exact client_wf_empty.
    - repeat constructor. }
  exact (level_count_after_update _ (price_level (of_int 99) zero) Hwf eq_refl).
Defined.

End ClientIOSpec.


(** ** More on the connection: producers, their numbering, their end *)

Module ConnectionSpec.
Import Double Wire Server Connection ServerSpec.
Import Scenario.

(** *** The counter and the [int] that holds it *)

Lemma to_int_range (z : Z) : -2147483648 <= to_int z <= 2147483647.
Proof.
  unfold to_int.
  pose proof (Z.mod_pos_bound (z + 2147483648) 4294967296 eq_refl). lia.
Qed.

Lemma to_int_in_range (z : Z) :
  -2147483648 <= z <= 2147483647 -> to_int z = z.
Proof. intros Hz. unfold to_int. rewrite Z.mod_small by lia. lia. Qed.

(** What is sent depends on the counter through the [int] only. *)
Lemma incremental_to_int (id : string) (n : Z) :
  incremental id (to_int n) = incremental id n.
Proof.
  unfold incremental. now rewrite (to_int_in_range (to_int n) (to_int_range n)).
Qed.

(** While the arithmetic of lines 49 and 53 fits an [int], it is the
    arithmetic of the integers. *)
Lemma incremental_in_range (id : string) (n : Z) :
  0 <= n <= max_update_count -> incremental id n = plain_update id n.
Proof.
  unfold max_update_count. intros Hn. unfold incremental, plain_update.
  rewrite (to_int_in_range n) by lia.
  rewrite (to_int_in_range (n * 10)), (to_int_in_range (n * 5)) by lia.
  now rewrite (to_int_in_range (200 + n * 10)),
              (to_int_in_range (150 + n * 5)) by lia.
Qed.

(** Past that range it is not: the first update whose bid quantity does
    not fit carries a negative quantity. *)
Example incremental_past_range :
  incremental "AAPL" (max_update_count + 1) <>
    plain_update "AAPL" (max_update_count + 1) /\
  bid_updates
    (match incremental "AAPL" (max_update_count + 1) with
     | incremental_update u => u
     | _ => {| incremental_instrument_id := ""; bid_updates := [];
               ask_updates := [] |}
     end) =
  [price_level (add (of_int 99) (opp tenth)) (of_int (-2147483646))].
Proof. split; [discriminate | reflexivity]. Qed.

(** *** Steps by cases *)

Lemma loop_step_cases (l : label) (s s' : state) :
  is_loop_label l = true -> step l s = Some s' ->
  (exists r, l = Read (Some r) /\ loop s = AtRead /\
             s' = on_request r (record (Received r) s)) \/
  (l = Read None /\ loop s = AtRead /\ s' = set_loop AtSignalAll s) \/
  (exists id, l = LoopWriteBegin /\ loop s = AtWriteSnapshot id /\
     s' = set_loop (InWriteSnapshot id)
            (record (WriteBegin ReadLoop (snapshot_update id)) s)) \/
  (exists id, l = LoopWriteBegin /\ loop s = AtWriteAck id /\
     s' = set_loop (InWriteAck id)
            (record (WriteBegin ReadLoop (unsubscribe_update id)) s)) \/
  (exists id, l = LoopWriteEnd true /\ loop s = InWriteSnapshot id /\
     s' = start_thread id
            (record (WriteEnd ReadLoop (snapshot_update id) true) s)) \/
  (exists id, l = LoopWriteEnd false /\ loop s = InWriteSnapshot id /\
     s' = set_loop AtSignalAll
            (record (WriteEnd ReadLoop (snapshot_update id) false) s)) \/
  (exists id ok, l = LoopWriteEnd ok /\ loop s = InWriteAck id /\
     s' = set_loop (if ok then AtRead else AtSignalAll)
            (record (WriteEnd ReadLoop (unsubscribe_update id) ok) s)) \/
  (l = SignalAll /\ loop s = AtSignalAll /\ s' = signal_all s) \/
  (exists id rest, l = Join /\ loop s = AtJoin (id :: rest) /\
     join_next id rest s = Some s') \/
  (l = LoopReturn /\ loop s = AtJoin [] /\ s' = set_loop Returned s).
Proof.
  intros Hl Hstep.
  destruct l as [[r|]| |ok| | | |id|id|id ok|id|]; try discriminate Hl;
    cbn in Hstep; unfold Subscribe in Hstep;
    destruct (loop s) as [|i|i|i|i| |pending|] eqn:Hloop;
    try discriminate Hstep.
  - injection Hstep as <-. left. eauto.
  - injection Hstep as <-. right. left. eauto.
  - injection Hstep as <-. do 2 right. left. eauto.
  - injection Hstep as <-. do 3 right. left. eauto.
  - injection Hstep as <-. destruct ok.
    + do 4 right. left. eauto.
    + do 5 right. left. eauto.
  - injection Hstep as <-. do 6 right. left. eauto.
  - injection Hstep as <-. do 7 right. left. eauto.
  - destruct pending as [|id rest]; [discriminate|].
    do 8 right. left. eauto.
  - destruct pending as [|id rest]; [|discriminate].
    injection Hstep as <-. do 9 right. eauto.
Qed.

Lemma producer_step_cases (l : label) (s s' : state) :
  is_loop_label l = false -> step l s = Some s' ->
  (l = Cancel /\ s' = set_cancelled s) \/
  exists id t,
    producer_of l = Some id /\ update_threads s !! id = Some t /\
    ((l = ProducerTest id /\ pc t = AtLoopTest /\
      s' = set_thread id
             (set_pc (if negb (stop_requested s id) && negb (cancelled s)
                      then AtWrite else Finished) t) s) \/
     (l = ProducerWriteBegin id /\ pc t = AtWrite /\
      s' = record (WriteBegin (Producer id) (incremental id (update_count t)))
             (set_thread id (set_pc InWrite t) s)) \/
     (l = ProducerWriteEnd id true /\ pc t = InWrite /\
      s' = record (WriteEnd (Producer id) (incremental id (update_count t)) true)
             (set_thread id {| joinable := joinable t; pc := InSleep;
                               update_count := update_count t + 1 |} s)) \/
     (l = ProducerWriteEnd id false /\ pc t = InWrite /\
      s' = record (WriteEnd (Producer id) (incremental id (update_count t)) false)
             (set_thread id (set_pc Finished t) s)) \/
     (l = ProducerWake id /\ pc t = InSleep /\
      s' = set_thread id (set_pc AtLoopTest t) s)).
Proof.
  intros Hl Hstep.
  destruct l as [r| |ok| | | |id|id|id ok|id|]; try discriminate Hl;
    cbn in Hstep.
  5: { injection Hstep as <-. now left. }
  all: right; destruct (update_threads s !! id) as [t|] eqn:Ht; [|discriminate];
    unfold StreamIncrementalUpdates in Hstep;
    destruct (pc t) eqn:Hpc; try discriminate; injection Hstep as <-;
    exists id, t; (split; [reflexivity|]); (split; [exact Ht|]).
  - left. auto.
  - right. left. auto.
  - destruct ok.
    + do 2 right. left. auto.
    + do 3 right. left. auto.
  - do 4 right. auto.
Qed.

Lemma join_next_cases (id : string) (rest : list string) (s s' : state) :
  join_next id rest s = Some s' ->
  (exists t, update_threads s !! id = Some t /\ joinable t = true /\
             pc t = Finished /\
             s' = set_loop (AtJoin rest)
                    (record (ThreadJoin id)
                       (set_thread id {| joinable := false; pc := Finished;
                                         update_count := update_count t |} s))) \/
  (streaming s id = false /\ s' = set_loop (AtJoin rest) s).
Proof.
  unfold join_next, streaming.
  destruct (update_threads s !! id) as [t|] eqn:Ht.
  - destruct (joinable t) eqn:Hj.
    + destruct (pc t) eqn:Hpc; try discriminate. intros [= <-].
      left. exists t. auto.
    + intros [= <-]. now right.
  - intros [= <-]. now right.
Qed.

(** The cases of a step, with the state after it written out. *)
Ltac step_inv Hstep :=
  let Hl := fresh "Hl" in
  match type of Hstep with
  | step ?l ?s = Some ?s' =>
      destruct (is_loop_label l) eqn:Hl;
      [ destruct (loop_step_cases l s s' Hl Hstep) as
          [(r0 & -> & Hloop & ->) | [(-> & Hloop & ->) |
           [(i0 & -> & Hloop & ->) | [(i0 & -> & Hloop & ->) |
           [(i0 & -> & Hloop & ->) | [(i0 & -> & Hloop & ->) |
           [(i0 & ok0 & -> & Hloop & ->) | [(-> & Hloop & ->) |
           [(i0 & rest0 & -> & Hloop & Hjoin) | (-> & Hloop & ->)]]]]]]]]];
        [ | | | | | | | | apply join_next_cases in Hjoin as
                            [(t0 & Ht0 & Hj0 & Hpc0 & ->) | (Hstr0 & ->)] | ]
      | destruct (producer_step_cases l s s' Hl Hstep) as
          [(-> & ->) | (i0 & t0 & _ & Ht0 &
             [(-> & Hpc0 & ->) | [(-> & Hpc0 & ->) | [(-> & Hpc0 & ->) |
              [(-> & Hpc0 & ->) | (-> & Hpc0 & ->)]]]])] ];
      clear Hl
  end.

(** The entry of [update_threads] a step has written, or another one. *)
Ltac written_or_other i id :=
  destruct (decide (i = id)) as [->|Hne];
  [ rewrite lookup_insert_eq | rewrite lookup_insert_ne by assumption ].

Lemma on_request_threads (r : SubscriptionRequest) (s : state) :
  update_threads (on_request r s) = update_threads s.
Proof.
  unfold on_request.
  destruct (action r); destruct (streaming s (instrument_id r)); reflexivity.
Qed.

Lemma on_request_history (r : SubscriptionRequest) (s : state) :
  history (on_request r s) = history s.
Proof.
  unfold on_request.
  destruct (action r); destruct (streaming s (instrument_id r)); reflexivity.
Qed.

Lemma on_request_cancelled (r : SubscriptionRequest) (s : state) :
  cancelled (on_request r s) = cancelled s.
Proof.
  unfold on_request.
  destruct (action r); destruct (streaming s (instrument_id r)); reflexivity.
Qed.

Lemma on_request_signals (r : SubscriptionRequest) (s : state) :
  stop_signals (on_request r s) =
  match action r with
  | UNSUBSCRIBE =>
      if streaming s (instrument_id r)
      then <[instrument_id r := true]> (stop_signals s)
      else stop_signals s
  | SUBSCRIBE => stop_signals s
  end.
Proof.
  unfold on_request.
  destruct (action r); destruct (streaming s (instrument_id r)); reflexivity.
Qed.

Lemma on_request_loop (r : SubscriptionRequest) (s : state) :
  loop s = AtRead -> left_read_loop (loop (on_request r s)) = false.
Proof.
  unfold on_request. intros Hloop.
  destruct (action r); destruct (streaming s (instrument_id r)); cbn;
    rewrite ?Hloop; reflexivity.
Qed.

(** *** One stop signal per thread *)

Lemma signals_have_threads (s : state) :
  reachable s ->
  forall id, is_Some (stop_signals s !! id) -> is_Some (update_threads s !! id).
Proof.
  intros Hr. induction Hr as [|l s s' Hr IH Hstep] using reachable_ind.
  - intros id [b Hb]. cbn in Hb. now rewrite lookup_empty in Hb.
  - intros id. step_inv Hstep; cbn; try exact (IH id).
    + rewrite on_request_threads, on_request_signals. cbn.
      destruct (action r0); [exact (IH id)|].
      destruct (streaming _ _) eqn:Hs; [|exact (IH id)].
      destruct (decide (instrument_id r0 = id)) as [<-|Hne].
      * intros _. unfold streaming in Hs. cbn in Hs.
        destruct (update_threads s !! instrument_id r0); [eauto | discriminate].
      * rewrite lookup_insert_ne by assumption. exact (IH id).
    + destruct (decide (i0 = id)) as [<-|Hne].
      * intros _. rewrite lookup_insert_eq. eauto.
      * rewrite !lookup_insert_ne by assumption. exact (IH id).
    + rewrite lookup_fmap. intros Hs. apply IH.
      now apply fmap_is_Some in Hs.
    + intros Hs. apply is_Some_insert_more. now apply IH.
    + intros Hs. apply is_Some_insert_more. now apply IH.
    + intros Hs. apply is_Some_insert_more. now apply IH.
    + intros Hs. apply is_Some_insert_more. now apply IH.
    + intros Hs. apply is_Some_insert_more. now apply IH.
    + intros Hs. apply is_Some_insert_more. now apply IH.
Qed.

(** *** Threads stay, counters grow *)

Lemma thread_persists (l : label) (s s' : state) (id : string) (t : thread) :
  invariant s -> step l s = Some s' -> update_threads s !! id = Some t ->
  exists t',
    update_threads s' !! id = Some t' /\
    update_count t <= update_count t' /\
    (pc t = Finished -> pc t' = Finished /\ update_count t' = update_count t).
Proof.
  intros [_ Hinv] Hstep Ht.
  step_inv Hstep; cbn; rewrite ?on_request_threads; cbn;
    try (exists t; split; [exact Ht | split; [lia | auto]]).
  1: { rewrite Hloop in Hinv. destruct Hinv as [_ Hnone].
       exists t. rewrite lookup_insert_ne by congruence.
       split; [exact Ht | split; [lia | auto]]. }
  all: destruct (decide (i0 = id)) as [->|Hne];
    [ rewrite lookup_insert_eq; eexists; split; [reflexivity|];
      rewrite Ht in Ht0; injection Ht0 as ->; cbn;
      split; [lia | auto || congruence]
    | rewrite lookup_insert_ne by assumption;
      exists t; split; [exact Ht | split; [lia | auto]] ].
Qed.

Lemma thread_persists_exec (ls : list label) (s s' : state) (id : string)
    (t : thread) :
  reachable s -> exec ls s = Some s' -> update_threads s !! id = Some t ->
  exists t',
    update_threads s' !! id = Some t' /\
    update_count t <= update_count t' /\
    (pc t = Finished -> pc t' = Finished /\ update_count t' = update_count t).
Proof.
  revert s t. induction ls as [|l ls IH]; intros s t Hr Hexec Ht.
  - injection Hexec as <-. exists t. split; [exact Ht | split; [lia | auto]].
  - cbn in Hexec. destruct (step l s) as [s1|] eqn:Hstep; [|discriminate].
    destruct (thread_persists l s s1 id t (reachable_invariant s Hr) Hstep Ht)
      as (t1 & Ht1 & Hle1 & Hfin1).
    destruct (IH s1 t1 (reachable_step l s s1 Hr Hstep) Hexec Ht1)
      as (t' & Ht' & Hle & Hfin).
    exists t'. split; [exact Ht' | split; [lia|]].
    intros Hpc. destruct (Hfin1 Hpc) as [Hpc1 Hc1].
    destruct (Hfin Hpc1) as [Hpc' Hc']. split; [exact Hpc' | lia].
Qed.

Lemma counter_not_negative (s : state) (id : string) (t : thread) :
  reachable s -> update_threads s !! id = Some t -> 0 <= update_count t.
Proof.
  intros Hr. revert id t.
  induction Hr as [|l s s' Hr IH Hstep] using reachable_ind; intros id t.
  - cbn. now rewrite lookup_empty.
  - pose proof (reachable_invariant s Hr) as [_ Hinv].
    step_inv Hstep; cbn; rewrite ?on_request_threads; cbn; try exact (IH id t).
    1: { rewrite Hloop in Hinv. destruct Hinv as [_ Hnone].
         written_or_other i0 id; [intros [= <-]; cbn; lia | exact (IH id t)]. }
    all: written_or_other i0 id; [|exact (IH id t)];
      pose proof (IH _ _ Ht0); intros [= <-]; cbn; lia.
Qed.

(** X10.  [stop_signals] and [update_threads] have the same keys in every
    state the connection reaches: a stop signal exists exactly for the
    instruments that have a thread.  An entry of [update_threads] is never
    removed while [Subscribe] runs; and as long as no producer has counted
    past the range in which lines 49 and 53 fit an [int]
    ([update_count <= 214748344]), the [int update_count] of the entry's
    producer is the number of its increments and has not decreased. *)
Theorem one_signal_per_thread (s : state) :
  reachable s ->
  dom (stop_signals s) = dom (update_threads s) /\
  forall ls s' id t,
    exec ls s = Some s' -> update_threads s !! id = Some t ->
    exists t',
      update_threads s' !! id = Some t' /\
      (within_int_range s' ->
       int_update_count t = update_count t /\
       int_update_count t' = update_count t' /\
       0 <= int_update_count t <= int_update_count t').
Proof.
  intros Hr. split.
  - apply set_eq. intros id. rewrite !elem_of_dom. split.
    + now apply signals_have_threads.
    + destruct (reachable_invariant s Hr) as [Hsig _]. apply Hsig.
  - intros ls s' id t Hexec Ht.
    destruct (thread_persists_exec ls s s' id t Hr Hexec Ht) as (t' & Ht' & Hle & _).
    exists t'. split; [exact Ht'|]. intros Hrange.
    pose proof (counter_not_negative s id t Hr Ht) as H0.
    specialize (Hrange id t' Ht'). unfold max_update_count in Hrange.
    unfold int_update_count. rewrite !to_int_in_range by lia. lia.
Qed.

Lemma one_signal_per_thread_witness :
  exists s s' t t',
    exec active_run initial = Some s /\
    exec (passes "AAPL" 2) s = Some s' /\
    update_threads s !! "AAPL" = Some t /\
    update_threads s' !! "AAPL" = Some t' /\
    dom (stop_signals s) = dom (update_threads s) /\
    int_update_count t <= int_update_count t'.
Proof.
  assert (Hrun : exists s s' t,
    exec active_run initial = Some s /\
    exec (passes "AAPL" 2) s = Some s' /\
    update_threads s !! "AAPL" = Some t /\
    update_threads s' =
      {["AAPL" := {| joinable := true; pc := AtLoopTest; update_count := 2 |}]}).
  { eexists _, _, _. split; [vm_compute; reflexivity|].
    split; [vm_compute; reflexivity|]. split; reflexivity. }
  destruct Hrun as (s & s' & t & Hs & Hs' & Ht & Hthreads).
  assert (Hr : reachable s) by (now exists active_run).
  destruct (one_signal_per_thread s Hr) as [Hdom Hlater].
  destruct (Hlater _ s' "AAPL" t Hs' Ht) as (t' & Ht' & Hcount).
  exists s, s', t, t'. repeat split; try assumption.
  apply Hcount. intros id t0. rewrite Hthreads. intros Ht0.
  apply lookup_singleton_Some in Ht0 as [_ <-]. cbn. unfold max_update_count. lia.
Defined.

(** *** The numbering of a producer's updates *)

Lemma delivered_app (id : string) (h h' : list event) :
  delivered id (h ++ h') = delivered id h ++ delivered id h'.
Proof.
  induction h as [|e h IH]; [reflexivity|].
  destruct e as [r|w m|[|j] m [|]|j|j]; cbn; try exact IH.
  destruct (String.eqb id j); cbn; now rewrite IH.
Qed.

Lemma first_updates_succ (id : string) (n : Z) :
  0 <= n -> first_updates id (n + 1) = first_updates id n ++ [incremental id n].
Proof.
  intros Hn. unfold first_updates.
  replace (Z.to_nat (n + 1)) with (S (Z.to_nat n)) by lia.
  rewrite seq_S, map_app. cbn. now rewrite Z2Nat.id by assumption.
Qed.

Lemma producer_numbering (s : state) :
  reachable s ->
  forall id,
    match update_threads s !! id with
    | Some t => 0 <= update_count t /\
                delivered id (history s) = first_updates id (update_count t)
    | None => delivered id (history s) = []
    end.
Proof.
  intros Hr. induction Hr as [|l s s' Hr IH Hstep] using reachable_ind.
  - intros id. cbn. now rewrite lookup_empty.
  - intros id. specialize (IH id).
    pose proof (reachable_invariant s Hr) as [_ Hinv].
    step_inv Hstep; cbn [history update_threads set_loop record set_cancelled
                         signal_all set_stop_signals set_thread set_threads
                         start_thread];
      rewrite ?on_request_threads, ?on_request_history;
      cbn [history update_threads record];
      rewrite ?delivered_app; cbn [delivered]; rewrite ?app_nil_r;
      try exact IH.
    + rewrite Hloop in Hinv. destruct Hinv as [_ Hnone].
      destruct (decide (i0 = id)) as [->|Hne].
      * rewrite lookup_insert_eq. rewrite Hnone in IH. cbn. split; [lia | exact IH].
      * now rewrite lookup_insert_ne by assumption.
    + written_or_other i0 id; [rewrite Ht0 in IH|]; exact IH.
    + written_or_other i0 id; [rewrite Ht0 in IH|]; exact IH.
    + written_or_other i0 id; [rewrite Ht0 in IH|]; exact IH.
    + written_or_other i0 id.
      * rewrite Ht0 in IH. destruct IH as [Hc Hd].
        rewrite String.eqb_refl. cbn [update_count].
        rewrite first_updates_succ by assumption. rewrite Hd. split; [lia | reflexivity].
      * apply String.eqb_neq in Hne. rewrite String.eqb_sym in Hne.
        rewrite Hne, app_nil_r. exact IH.
    + written_or_other i0 id; [rewrite Ht0 in IH|]; exact IH.
    + written_or_other i0 id; [rewrite Ht0 in IH|]; exact IH.
Qed.

(** X11.  As long as no producer has counted past the range in which
    lines 49 and 53 fit an [int] ([update_count <= 214748344]), the
    updates a producer has delivered are numbered from 0 without a gap or
    a repetition: the messages for which the producer's [Write] returned
    true are, in order, the updates that lines 45-53 build for
    [update_count] = 0, 1, ... up to the present value of the [int], which
    is their number; an instrument without a thread has had no update
    delivered. *)
Theorem producer_updates_numbered (s : state) (id : string) :
  reachable s -> within_int_range s ->
  (forall t, update_threads s !! id = Some t ->
     int_update_count t = update_count t /\
     0 <= int_update_count t /\
     delivered id (history s) =
       map (fun k => plain_update id (Z.of_nat k))
           (seq 0 (Z.to_nat (int_update_count t))) /\
     Z.of_nat (length (delivered id (history s))) = int_update_count t) /\
  (update_threads s !! id = None -> delivered id (history s) = []).
Proof.
  intros Hr Hrange. pose proof (producer_numbering s Hr id) as Hnum. split.
  - intros t Ht. rewrite Ht in Hnum. destruct Hnum as [Hc Hd].
    specialize (Hrange id t Ht).
    assert (Hint : int_update_count t = update_count t).
    { unfold int_update_count. apply to_int_in_range.
      unfold max_update_count in Hrange. lia. }
    rewrite Hint, Hd. unfold first_updates.
    split; [reflexivity|]. split; [assumption|]. split.
    + apply map_ext_in. intros k Hk. apply in_seq in Hk.
      apply incremental_in_range. lia.
    + rewrite length_map, length_seq. lia.
  - intros Hnone. now rewrite Hnone in Hnum.
Qed.

Lemma producer_updates_numbered_witness :
  exists s,
    exec straggler_run initial = Some s /\
    delivered "AAPL" (history s) = [plain_update "AAPL" 0].
Proof.
  assert (Hrun : exists s, exec straggler_run initial = Some s /\
                           update_threads s =
                             {["AAPL" := {| joinable := true; pc := InSleep;
                                            update_count := 1 |}]}).
  { eexists. split; [vm_compute; reflexivity|]. reflexivity. }
  destruct Hrun as (s & Hs & Hthreads). exists s. split; [exact Hs|].
  assert (Hr : reachable s) by (now exists straggler_run).
  assert (Hrange : within_int_range s).
  { intros id t. rewrite Hthreads. intros Ht.
    apply lookup_singleton_Some in Ht as [_ <-]. cbn.
    unfold max_update_count. lia. }
  assert (Ht : update_threads s !! "AAPL" =
               Some {| joinable := true; pc := InSleep; update_count := 1 |})
    by (now rewrite Hthreads).
  destruct (proj1 (producer_updates_numbered s "AAPL" Hr Hrange) _ Ht)
    as (_ & _ & -> & _).
  reflexivity.
Defined.

(** *** A producer that is not told to stop *)

Lemma pass_delivers (id : string) (t : thread) (s : state) :
  update_threads s !! id = Some t -> pc t = AtLoopTest ->
  stopping s id = false ->
  exec (pass id) s =
  Some {| loop := loop s;
          update_threads :=
            <[id := {| joinable := joinable t; pc := AtLoopTest;
                       update_count := update_count t + 1 |}]> (update_threads s);
          stop_signals := stop_signals s;
          cancelled := cancelled s;
          history := history s ++
            [WriteBegin (Producer id) (incremental id (update_count t));
             WriteEnd (Producer id) (incremental id (update_count t)) true] |}.
Proof.
  intros Ht Hpc Hstop. unfold stopping in Hstop.
  apply orb_false_elim in Hstop as [Hsig Hcan].
  destruct t as [j p c]. cbn in Hpc. subst p. unfold pass. producer_moves.
  rewrite Ht. producer_moves. unfold stop_requested in Hsig |- *.
  producer_moves. rewrite Hsig, Hcan. cbn [negb andb].
  rewrite lookup_insert_eq. producer_moves.
  rewrite lookup_insert_eq. producer_moves.
  rewrite lookup_insert_eq. producer_moves.
  unfold set_thread, set_threads, record, set_pc. producer_moves.
  rewrite !insert_insert_eq, <- app_assoc, Hcan. reflexivity.
Qed.

Lemma passes_deliver (n : nat) (id : string) (t : thread) (s : state) :
  update_threads s !! id = Some t -> pc t = AtLoopTest ->
  stopping s id = false ->
  exists s' t',
    exec (passes id n) s = Some s' /\
    update_threads s' !! id = Some t' /\
    pc t' = AtLoopTest /\
    update_count t' = update_count t + Z.of_nat n /\
    delivered id (history s') =
      delivered id (history s) ++
      map (fun k => incremental id (update_count t + Z.of_nat k)) (seq 0 n) /\
    loop s' = loop s /\ stop_signals s' = stop_signals s /\
    stopping s' id = false.
Proof.
  revert s t. induction n as [|n IH]; intros s t Ht Hpc Hstop.
  - exists s, t. cbn. rewrite app_nil_r, Z.add_0_r. auto 10.
  - cbn [passes]. rewrite exec_app, (pass_delivers id t s Ht Hpc Hstop).
    edestruct IH as (s' & t' & Hexec & Ht' & Hpc' & Hc' & Hd' & Hloop' & Hsig' & Hstop');
      [ | | | exists s', t'; split; [exact Hexec|] ].
    + cbn. apply lookup_insert_eq.
    + reflexivity.
    + exact Hstop.
    + split; [exact Ht'|]. split; [exact Hpc'|].
      cbn in Hc', Hd', Hloop', Hsig'. split; [lia|].
      split; [|auto].
      rewrite Hd', delivered_app. cbn [delivered]. rewrite String.eqb_refl.
      rewrite <- app_assoc. f_equal. cbn [seq map app]. rewrite Z.add_0_r.
      f_equal. rewrite <- seq_shift, map_map. apply map_ext. intros k.
      f_equal. lia.
Qed.

(** X12.  A producer at its loop test whose stop signal is clear, on a
    context that is not cancelled, and whose writes succeed, goes round its
    loop as often as its counter stays in the range in which lines 49 and
    53 fit an [int] ([update_count <= 214748344]): [n] such passes deliver
    the next [n] updates, those that lines 45-53 build for the values of
    the [int] from the present one on, leave the producer at its loop test
    with the [int] advanced by [n], and touch neither the read loop nor
    the stop signals. *)
Theorem producer_keeps_streaming (n : nat) (id : string) (t : thread) (s : state) :
  update_threads s !! id = Some t -> pc t = AtLoopTest ->
  stopping s id = false ->
  0 <= update_count t -> update_count t + Z.of_nat n <= max_update_count ->
  exists s' t',
    exec (passes id n) s = Some s' /\
    update_threads s' !! id = Some t' /\
    pc t' = AtLoopTest /\
    int_update_count t = update_count t /\
    int_update_count t' = int_update_count t + Z.of_nat n /\
    delivered id (history s') =
      delivered id (history s) ++
      map (fun k => plain_update id (int_update_count t + Z.of_nat k)) (seq 0 n) /\
    loop s' = loop s /\ stop_signals s' = stop_signals s /\
    stopping s' id = false.
Proof.
  intros Ht Hpc Hstop H0 Hmax.
  destruct (passes_deliver n id t s Ht Hpc Hstop)
    as (s' & t' & Hexec & Ht' & Hpc' & Hc' & Hd' & Hloop' & Hsig' & Hstop').
  assert (Hint : int_update_count t = update_count t).
  { unfold int_update_count. apply to_int_in_range.
    unfold max_update_count in Hmax. lia. }
  assert (Hint' : int_update_count t' = update_count t').
  { unfold int_update_count. apply to_int_in_range.
    unfold max_update_count in Hmax. lia. }
  exists s', t'. rewrite Hint', Hint.
  repeat split; try assumption.
  rewrite Hd'. f_equal. apply map_ext_in. intros k Hk. apply in_seq in Hk.
  apply incremental_in_range. lia.
Qed.

Lemma producer_keeps_streaming_witness :
  exists s s',
    exec active_run initial = Some s /\
    exec (passes "AAPL" 3) s = Some s' /\
    delivered "AAPL" (history s') =
      [plain_update "AAPL" 0; plain_update "AAPL" 1; plain_update "AAPL" 2].
Proof.
  assert (Hrun : exists s t, exec active_run initial = Some s /\
                             update_threads s !! "AAPL" = Some t /\
                             pc t = AtLoopTest /\ update_count t = 0 /\
                             stopping s "AAPL" = false /\
                             delivered "AAPL" (history s) = []).
  { eexists _, _. split; [vm_compute; reflexivity|]. repeat split. }
  destruct Hrun as (s & t & Hs & Ht & Hpc & Hc & Hstop & Hd).
  assert (H0 : 0 <= update_count t) by lia.
  assert (Hmax : update_count t + Z.of_nat 3 <= max_update_count)
    by (rewrite Hc; unfold max_update_count; lia).
  destruct (producer_keeps_streaming 3 "AAPL" t s Ht Hpc Hstop H0 Hmax)
    as (s' & t' & Hexec & _ & _ & Hint & _ & Hd' & _).
  exists s, s'. split; [exact Hs|]. split; [exact Hexec|].
  rewrite Hd', Hd, Hint, Hc. reflexivity.
Defined.

(** *** What a step adds to the history *)

Lemma step_events (l : label) (s s' : state) :
  step l s = Some s' ->
  exists h,
    history s' = history s ++ h /\
    ((length h <= 1)%nat \/
     exists i, h = [WriteEnd ReadLoop (snapshot_update i) true; ThreadStart i]) /\
    forall id, existsb (of_producer id) h = true ->
      exists t, update_threads s !! id = Some t /\
                (pc t = AtWrite \/ pc t = InWrite).
Proof.
  intros Hstep.
  step_inv Hstep; cbn [history set_loop record set_cancelled signal_all
                       set_stop_signals set_thread set_threads start_thread];
    rewrite ?on_request_history; cbn [history record];
    try (exists []; rewrite app_nil_r; split; [reflexivity|];
         split; [left; cbn; lia | cbn; discriminate]);
    try (eexists [_]; split; [reflexivity|];
         split; [left; cbn; lia | cbn; try discriminate]).
  - eexists [_; _]. rewrite <- app_assoc. split; [reflexivity|].
    split; [right; eauto | cbn; discriminate].
  - intros id. rewrite orb_false_r. intros ->%String.eqb_eq. eauto.
  - intros id. rewrite orb_false_r. intros ->%String.eqb_eq. eauto.
  - intros id. rewrite orb_false_r. intros ->%String.eqb_eq. eauto.
Qed.

Lemma existsb_count (p : event -> bool) (h : list event) :
  existsb p h = true <-> (0 < count p h)%nat.
Proof.
  unfold count. induction h as [|e h IH]; cbn.
  - split; [discriminate | lia].
  - destruct (p e); cbn; [split; [lia | reflexivity] | exact IH].
Qed.

Lemma precedes_app (p q : event -> bool) (h h' : list event) :
  precedes p q h ->
  (existsb q h' = true -> existsb p h = true) ->
  precedes p q (h ++ h').
Proof.
  intros Hh Hnew h1 e h2 Heq Hq.
  apply app_eq_app in Heq as [l [[-> Hl] | [-> Hl]]].
  - destruct l as [|e' l'].
    + cbn in Hl. rewrite app_nil_r in Hnew. apply Hnew. rewrite <- Hl. cbn.
      now rewrite Hq.
    + injection Hl as <- _. now apply (Hh h1 e l').
  - rewrite existsb_app. rewrite Hnew; [reflexivity|].
    rewrite Hl, existsb_app. cbn. rewrite Hq. now rewrite orb_true_r.
Qed.

Lemma nothing_after_app (p q : event -> bool) (h h' : list event) :
  nothing_after p q h ->
  (existsb p h = true -> existsb q h' = false) ->
  ((length h' <= 1)%nat \/ existsb p h' = false) ->
  nothing_after p q (h ++ h').
Proof.
  intros Hh Hnew Hin h1 e h2 Heq Hp.
  apply app_eq_app in Heq as [l [[-> Hl] | [-> Hl]]].
  - destruct l as [|e' l'].
    + cbn in Hl. subst h'. destruct Hin as [Hlen | Hno].
      * destruct h2; [reflexivity | cbn in Hlen; lia].
      * cbn in Hno. now rewrite Hp in Hno.
    + injection Hl as <- ->. rewrite existsb_app.
      rewrite (Hh h1 e l' eq_refl Hp). cbn. apply Hnew.
      rewrite existsb_app. cbn. rewrite Hp. now rewrite orb_true_r.
  - subst h'. destruct Hin as [Hlen | Hno].
    + rewrite length_app in Hlen. cbn in Hlen.
      destruct h2; [reflexivity | cbn in Hlen; lia].
    + rewrite existsb_app in Hno. cbn in Hno. rewrite Hp in Hno.
      now rewrite orb_true_r in Hno.
Qed.

(** *** A snapshot comes first *)

Lemma thread_started (s : state) (id : string) :
  reachable s -> is_Some (update_threads s !! id) ->
  existsb (is_snapshot_sent id) (history s) = true.
Proof.
  intros Hr [t Ht]. apply existsb_count.
  destruct (reachable_history_invariant s Hr id) as [H1 H2].
  unfold started in H2. rewrite Ht in H2. lia.
Qed.

(** X13.  On a connection no update of a producer is written before the
    snapshot of its instrument has been sent: in the history of every
    state the connection reaches, each write of the producer of an
    instrument, begun or returned, comes after a write of the full
    snapshot for that instrument that returned true. *)
Theorem snapshot_before_updates (s : state) (id : string) :
  reachable s ->
  precedes (is_snapshot_sent id) (of_producer id) (history s).
Proof.
  intros Hr. induction Hr as [|l s s' Hr IH Hstep] using reachable_ind.
  - intros h1 e h2 Heq. destruct h1; discriminate Heq.
  - destruct (step_events l s s' Hstep) as (h & -> & _ & Hprod).
    apply precedes_app; [exact IH|].
    intros Hq. destruct (Hprod id Hq) as (t & Ht & _).
    apply thread_started; [exact Hr | eauto].
Qed.

Lemma snapshot_before_updates_witness :
  exists s,
    exec straggler_run initial = Some s /\
    precedes (is_snapshot_sent "AAPL") (of_producer "AAPL") (history s).
Proof.
  assert (Hrun : exists s, exec straggler_run initial = Some s)
    by (eexists; vm_compute; reflexivity).
  destruct Hrun as (s & Hs). exists s. split; [exact Hs|].
  apply snapshot_before_updates. now exists straggler_run.
Defined.

(** *** The end of a producer *)

Lemma ended_is_finished (s : state) (id : string) :
  reachable s -> existsb (is_end_of id) (history s) = true ->
  exists t, update_threads s !! id = Some t /\ pc t = Finished.
Proof.
  intros Hr. induction Hr as [|l s s' Hr IH Hstep] using reachable_ind.
  - discriminate.
  - pose proof (reachable_invariant s Hr) as Hinv.
    assert (Hold : existsb (is_end_of id) (history s) = true ->
                   exists t, update_threads s' !! id = Some t /\ pc t = Finished).
    { intros He. destruct (IH He) as (t & Ht & Hpc).
      destruct (thread_persists l s s' id t Hinv Hstep Ht) as (t' & Ht' & _ & Hfin).
      exists t'. split; [exact Ht' | now apply Hfin]. }
    step_inv Hstep; cbn [history update_threads set_loop record set_cancelled
                         signal_all set_stop_signals set_thread set_threads
                         start_thread] in *;
      rewrite ?on_request_history, ?on_request_threads in *;
      cbn [history update_threads record] in *;
      rewrite ?existsb_app; cbn [existsb is_end_of]; rewrite ?orb_false_r;
      try exact Hold.
    + intros [He | He%String.eqb_eq]%orb_prop; [now apply Hold|]. subst i0.
      rewrite lookup_insert_eq. eauto.
    + intros [He | He%String.eqb_eq]%orb_prop; [now apply Hold|]. subst i0.
      rewrite lookup_insert_eq. eauto.
Qed.

(** X14.  A producer writes nothing after its end: in the history of every
    state the connection reaches, no write of the producer of an
    instrument, begun or returned, comes after a write of that producer
    that returned false (the [break] of line 58) or after the [join()] of
    its thread. *)
Theorem nothing_after_the_end (s : state) (id : string) :
  reachable s ->
  nothing_after (is_end_of id) (of_producer id) (history s).
Proof.
  intros Hr. induction Hr as [|l s s' Hr IH Hstep] using reachable_ind.
  - intros h1 e h2 Heq. destruct h1; discriminate Heq.
  - destruct (step_events l s s' Hstep) as (h & -> & Hlen & Hprod).
    apply nothing_after_app; [exact IH | |].
    + intros He. destruct (existsb (of_producer id) h) eqn:Hq; [|reflexivity].
      destruct (Hprod id Hq) as (t & Ht & Hpc).
      destruct (ended_is_finished s id Hr He) as (t' & Ht' & Hfin).
      rewrite Ht in Ht'. injection Ht' as <-.
      destruct Hpc as [Hpc | Hpc]; rewrite Hpc in Hfin; discriminate.
    + destruct Hlen as [Hlen | (i & ->)]; [now left | now right].
Qed.

Lemma nothing_after_the_end_witness :
  exists s,
    exec broken_write_run initial = Some s /\
    existsb (is_end_of "AAPL") (history s) = true /\
    nothing_after (is_end_of "AAPL") (of_producer "AAPL") (history s).
Proof.
  assert (Hrun : exists s, exec broken_write_run initial = Some s /\
                           existsb (is_end_of "AAPL") (history s) = true).
  { eexists. split; [vm_compute; reflexivity | reflexivity]. }
  destruct Hrun as (s & Hs & Hend). exists s.
  split; [exact Hs|]. split; [exact Hend|].
  apply nothing_after_the_end. now exists broken_write_run.
Defined.

(** *** Once told to stop *)

Lemma stopping_step (l : label) (s s' : state) (id : string) :
  reachable s -> step l s = Some s' ->
  stopping s id = true -> stopping s' id = true.
Proof.
  intros Hr Hstep. unfold stopping, stop_requested.
  destruct (cancelled s) eqn:Hcan.
  - intros _.
    assert (Hc : cancelled s' = true).
    { step_inv Hstep; cbn; rewrite ?on_request_cancelled; cbn; assumption
        || reflexivity. }
    rewrite Hc. apply orb_true_r.
  - rewrite orb_false_r. intros Hsig.
    apply orb_true_iff. left.
    pose proof (reachable_invariant s Hr) as [_ Hinv].
    step_inv Hstep; cbn; rewrite ?on_request_signals; cbn; try exact Hsig.
    + destruct (action r0); [exact Hsig|].
      destruct (streaming _ _); [|exact Hsig].
      destruct (decide (instrument_id r0 = id)) as [->|Hne].
      * now rewrite lookup_insert_eq.
      * now rewrite lookup_insert_ne by assumption.
    + rewrite Hloop in Hinv. destruct Hinv as [_ Hnone].
      destruct (decide (i0 = id)) as [->|Hne].
      * exfalso. destruct (stop_signals s !! id) as [b|] eqn:Hb; [|discriminate].
        destruct (signals_have_threads s Hr id) as [t Ht]; [now rewrite Hb|].
        rewrite Ht in Hnone. discriminate.
      * now rewrite lookup_insert_ne by assumption.
    + rewrite lookup_fmap.
      destruct (stop_signals s !! id); [reflexivity | discriminate].
Qed.

Lemma straggler_step (l : label) (s s' : state) (id : string) :
  step l s = Some s' -> stopping s id = true ->
  (count (is_begin_of id) (history s') + pending_write s' id <=
   count (is_begin_of id) (history s) + pending_write s id)%nat.
Proof.
  intros Hstep Hstop. unfold pending_write, stopping in *.
  step_inv Hstep; cbn -[count];
    rewrite ?on_request_threads, ?on_request_history; cbn -[count];
    rewrite ?count_snoc; cbn -[count]; try lia.
  - written_or_other i0 id; cbn; lia.
  - written_or_other i0 id; [rewrite Ht0, Hpc0; cbn|]; lia.
  - written_or_other i0 id; [|lia].
    rewrite Ht0, Hpc0, <- negb_orb, Hstop. cbn. lia.
  - written_or_other i0 id.
    + rewrite Ht0, Hpc0, String.eqb_refl. cbn. lia.
    + apply String.eqb_neq in Hne. rewrite String.eqb_sym in Hne.
      rewrite Hne. lia.
  - written_or_other i0 id; [rewrite Ht0, Hpc0; cbn|]; lia.
  - written_or_other i0 id; [rewrite Ht0, Hpc0; cbn|]; lia.
  - written_or_other i0 id; [rewrite Ht0, Hpc0; cbn|]; lia.
Qed.

(** X15.  A stop is final and lets through at most one more update: from a
    state the connection reaches in which the loop test of line 39 fails
    for an instrument (its stop signal is set or the context is
    cancelled), the test fails in every later state, and the producer of
    the instrument begins at most one more write, none at all unless it
    had already passed the test and not yet called [Write]. *)
Theorem stop_is_final (ls : list label) (s s' : state) (id : string) :
  reachable s -> stopping s id = true -> exec ls s = Some s' ->
  stopping s' id = true /\
  (count (is_begin_of id) (history s') + pending_write s' id <=
   count (is_begin_of id) (history s) + pending_write s id)%nat /\
  (count (is_begin_of id) (history s') <=
   count (is_begin_of id) (history s) + 1)%nat.
Proof.
  intros Hr Hstop Hexec.
  assert (H : stopping s' id = true /\
    (count (is_begin_of id) (history s') + pending_write s' id <=
     count (is_begin_of id) (history s) + pending_write s id)%nat).
  { revert s Hr Hstop Hexec. induction ls as [|l ls IH]; intros s Hr Hstop Hexec.
    - injection Hexec as <-. split; [exact Hstop | lia].
    - cbn in Hexec. destruct (step l s) as [s1|] eqn:Hstep; [|discriminate].
      pose proof (stopping_step l s s1 id Hr Hstep Hstop) as Hstop1.
      pose proof (straggler_step l s s1 id Hstep Hstop) as Hle1.
      destruct (IH s1 (reachable_step l s s1 Hr Hstep) Hstop1 Hexec) as [Hs' Hle].
      split; [exact Hs' | lia]. }
  destruct H as [Hs' Hle]. split; [exact Hs'|]. split; [exact Hle|].
  assert (pending_write s id <= 1)%nat; [|lia].
  unfold pending_write. destruct (update_threads s !! id) as [t|]; [|lia].
  destruct (pc t); lia.
Qed.

Lemma stop_is_final_witness :
  exists s s',
    exec [subscribe "AAPL"; LoopWriteBegin; LoopWriteEnd true;
          ProducerTest "AAPL"; unsubscribe "AAPL"] initial = Some s /\
    exec [ProducerWriteBegin "AAPL"; ProducerWriteEnd "AAPL" true;
          LoopWriteBegin; LoopWriteEnd true; ProducerWake "AAPL";
          ProducerTest "AAPL"] s = Some s' /\
    count (is_begin_of "AAPL") (history s) = 0%nat /\
    count (is_begin_of "AAPL") (history s') = 1%nat /\
    stopping s' "AAPL" = true.
Proof.
  assert (Hrun : exists s s',
    exec [subscribe "AAPL"; LoopWriteBegin; LoopWriteEnd true;
          ProducerTest "AAPL"; unsubscribe "AAPL"] initial = Some s /\
    exec [ProducerWriteBegin "AAPL"; ProducerWriteEnd "AAPL" true;
          LoopWriteBegin; LoopWriteEnd true; ProducerWake "AAPL";
          ProducerTest "AAPL"] s = Some s' /\
    stopping s "AAPL" = true /\
    count (is_begin_of "AAPL") (history s) = 0%nat /\
    count (is_begin_of "AAPL") (history s') = 1%nat).
  { eexists _, _. split; [vm_compute; reflexivity|].
    split; [vm_compute; reflexivity|]. repeat split. }
  destruct Hrun as (s & s' & Hs & Hs' & Hstop & Hc & Hc').
  exists s, s'. repeat split; try assumption.
  assert (Hr : reachable s) by (eexists; exact Hs).
  exact (proj1 (stop_is_final _ s s' "AAPL" Hr Hstop Hs')).
Defined.

(** *** Past the read loop *)

Lemma past_read_loop_step (l : label) (s s' : state) :
  step l s = Some s' -> left_read_loop (loop s) = true ->
  left_read_loop (loop s') = true /\
  dom (update_threads s') = dom (update_threads s) /\
  exists h, history s' = history s ++ h /\
            forallb (fun e => is_producer_event e || is_join e) h = true.
Proof.
  intros Hstep Hleft.
  step_inv Hstep; try (rewrite Hloop in Hleft; discriminate Hleft);
    cbn [loop history update_threads set_loop record set_cancelled signal_all
         set_stop_signals set_thread set_threads left_read_loop];
    (split; [assumption || reflexivity|]);
    (split; [reflexivity || (apply dom_insert_lookup_L; eauto)|]);
    try (exists []; now rewrite app_nil_r);
    try (eexists [_]; split; reflexivity).
Qed.

(** X16.  Once the thread running [Subscribe] has left its read loop (the
    peer closed the stream, or a write of a snapshot or an acknowledgement
    failed), it reads no further command, writes nothing and starts no
    thread: whatever happens afterwards, it stays past the loop, the
    instruments with a thread are the same, and the history grows only by
    writes of producers and joins. *)
Theorem nothing_served_past_read_loop (ls : list label) (s s' : state) :
  left_read_loop (loop s) = true -> exec ls s = Some s' ->
  left_read_loop (loop s') = true /\
  dom (update_threads s') = dom (update_threads s) /\
  exists h, history s' = history s ++ h /\
            forallb (fun e => is_producer_event e || is_join e) h = true.
Proof.
  revert s. induction ls as [|l ls IH]; intros s Hleft Hexec.
  - injection Hexec as <-. split; [exact Hleft|]. split; [reflexivity|].
    exists []. now rewrite app_nil_r.
  - cbn in Hexec. destruct (step l s) as [s1|] eqn:Hstep; [|discriminate].
    destruct (past_read_loop_step l s s1 Hstep Hleft)
      as (Hleft1 & Hdom1 & h1 & Hh1 & Hp1).
    destruct (IH s1 Hleft1 Hexec) as (Hleft' & Hdom' & h' & Hh' & Hp').
    split; [exact Hleft'|]. split; [congruence|].
    exists (h1 ++ h'). split.
    + rewrite Hh', Hh1. now rewrite app_assoc.
    + rewrite forallb_app, Hp1, Hp'. reflexivity.
Qed.

Lemma nothing_served_past_read_loop_witness :
  exists s s',
    exec closing_run initial = Some s /\
    exec (teardown_schedule s) s = Some s' /\
    dom (update_threads s') = dom (update_threads s).
Proof.
  assert (Hrun : exists s s',
    exec closing_run initial = Some s /\
    exec (teardown_schedule s) s = Some s' /\
    left_read_loop (loop s) = true).
  { eexists _, _. split; [vm_compute; reflexivity|].
    split; [vm_compute; reflexivity | reflexivity]. }
  destruct Hrun as (s & s' & Hs & Hs' & Hleft).
  exists s, s'. split; [exact Hs|]. split; [exact Hs'|].
  exact (proj1 (proj2 (nothing_served_past_read_loop _ s s' Hleft Hs'))).
Defined.

(** *** What is put on the wire *)

Lemma sent_app (h h' : list event) : sent (h ++ h') = sent h ++ sent h'.
Proof.
  induction h as [|e h IH]; [reflexivity|].
  destruct e as [r|w m|w m [|]|j|j]; cbn; now rewrite ?IH.
Qed.

Lemma sent_messages (s : state) :
  reachable s ->
  Forall (fun m => exists id,
            m = snapshot_update id \/ m = unsubscribe_update id \/
            exists t n, update_threads s !! id = Some t /\
                        0 <= n < update_count t /\ m = incremental id n)
         (sent (history s)).
Proof.
  intros Hr. induction Hr as [|l s s' Hr IH Hstep] using reachable_ind.
  - constructor.
  - pose proof (reachable_invariant s Hr) as Hinv.
    assert (Hold : Forall (fun m => exists id,
              m = snapshot_update id \/ m = unsubscribe_update id \/
              exists t n, update_threads s' !! id = Some t /\
                          0 <= n < update_count t /\ m = incremental id n)
           (sent (history s))).
    { eapply Forall_impl; [exact IH|]. intros m (id & Hm). exists id.
      destruct Hm as [Hm | [Hm | (t & n & Ht & Hn & Hm)]]; auto.
      destruct (thread_persists l s s' id t Hinv Hstep Ht) as (t' & Ht' & Hle & _).
      right. right. exists t', n. split; [exact Ht' | split; [lia | exact Hm]]. }
    clear IH.
    step_inv Hstep; cbn [history set_loop record set_cancelled signal_all
                         set_stop_signals set_thread set_threads start_thread];
      rewrite ?on_request_history; cbn [history record];
      rewrite ?sent_app; cbn [sent]; rewrite ?app_nil_r;
      try exact Hold; (apply Forall_app; split; [exact Hold|]);
      repeat constructor; eauto.
    + destruct ok0; repeat constructor; eauto.
    + exists i0. right. right. eexists _, (update_count t0). cbn.
      rewrite lookup_insert_eq. split; [reflexivity|]. cbn.
      pose proof (producer_numbering s Hr i0) as Hnum. rewrite Ht0 in Hnum.
      split; [lia | reflexivity].
Qed.

(** *** Joins *)

Lemma joins_counted (s : state) :
  reachable s ->
  forall id,
    count (is_thread_join id) (history s) =
    match update_threads s !! id with
    | Some t => if joinable t then 0%nat else 1%nat
    | None => 0%nat
    end.
Proof.
  intros Hr. induction Hr as [|l s s' Hr IH Hstep] using reachable_ind.
  - intros id. cbn. now rewrite lookup_empty.
  - intros id. specialize (IH id).
    pose proof (reachable_invariant s Hr) as [_ Hinv].
    step_inv Hstep; cbn -[count];
      rewrite ?on_request_threads, ?on_request_history; cbn -[count];
      rewrite ?count_snoc; cbn -[count]; rewrite ?Nat.add_0_r; try exact IH.
    + rewrite Hloop in Hinv. destruct Hinv as [_ Hnone].
      destruct (decide (i0 = id)) as [->|Hne].
      * rewrite lookup_insert_eq. now rewrite Hnone in IH.
      * now rewrite lookup_insert_ne by assumption.
    + destruct (decide (i0 = id)) as [->|Hne].
      * rewrite lookup_insert_eq, String.eqb_refl. rewrite Ht0, Hj0 in IH.
        cbn. lia.
      * rewrite lookup_insert_ne by assumption.
        apply String.eqb_neq in Hne. rewrite String.eqb_sym in Hne.
        rewrite Hne. lia.
    + written_or_other i0 id; [rewrite Ht0 in IH|]; exact IH.
    + written_or_other i0 id; [rewrite Ht0 in IH|]; exact IH.
    + written_or_other i0 id; [rewrite Ht0 in IH|]; exact IH.
    + written_or_other i0 id; [rewrite Ht0 in IH|]; exact IH.
    + written_or_other i0 id; [rewrite Ht0 in IH|]; exact IH.
Qed.

(** X17.  Every thread is joined at most once and only after it was
    started, and by the time [Subscribe] returns every thread that was
    started has been joined exactly once: in the history of every state
    the connection reaches, the joins of an instrument's thread number at
    most its starts, which number at most one, and the two are equal once
    line 179 is reached. *)
Theorem joins_match_starts (s : state) (id : string) :
  reachable s ->
  (count (is_thread_join id) (history s) <=
   count (is_thread_start id) (history s))%nat /\
  (count (is_thread_start id) (history s) <= 1)%nat /\
  (loop s = Returned ->
   count (is_thread_join id) (history s) =
   count (is_thread_start id) (history s)).
Proof.
  intros Hr. pose proof (joins_counted s Hr id) as Hj.
  destruct (reachable_history_invariant s Hr id) as [_ Hs].
  pose proof (reachable_invariant s Hr) as [_ Hinv].
  unfold started in Hs. rewrite Hj, Hs.
  destruct (update_threads s !! id) as [t|] eqn:Ht.
  - repeat split; try (destruct (joinable t); lia).
    intros Hloop. rewrite Hloop in Hinv. destruct Hinv as [_ Hjoined].
    destruct (Hjoined id t Ht) as [-> _]. reflexivity.
  - repeat split; lia.
Qed.

Lemma joins_match_starts_witness :
  exists s s',
    exec closing_run initial = Some s /\
    exec (teardown_schedule s) s = Some s' /\
    count (is_thread_join "MSFT") (history s') = 1%nat.
Proof.
  assert (Hrun : exists s s',
    exec closing_run initial = Some s /\
    exec (teardown_schedule s) s = Some s' /\
    loop s' = Returned /\
    count (is_thread_start "MSFT") (history s') = 1%nat).
  { eexists _, _. split; [vm_compute; reflexivity|].
    split; [vm_compute; reflexivity|]. split; reflexivity. }
  destruct Hrun as (s & s' & Hs & Hs' & Hloop & Hstart).
  exists s, s'. split; [exact Hs|]. split; [exact Hs'|].
  assert (Hr : reachable s').
  { apply (reachable_exec (teardown_schedule s) s s'); [|exact Hs'].
    now exists closing_run. }
  destruct (joins_match_starts s' "MSFT" Hr) as (_ & _ & Heq).
  now rewrite (Heq Hloop).
Defined.

(** *** The answers of the read loop *)

Lemma received_app (h h' : list event) :
  received (h ++ h') = received h ++ received h'.
Proof.
  induction h as [|e h IH]; [reflexivity|].
  destruct e; cbn; now rewrite ?IH.
Qed.

Lemma loop_sent_app (h h' : list event) :
  loop_sent (h ++ h') = loop_sent h ++ loop_sent h'.
Proof.
  induction h as [|e h IH]; [reflexivity|].
  destruct e as [r|w m|[|j] m [|]|j|j]; cbn; now rewrite ?IH.
Qed.

Lemma subscribed_snoc (rs : list SubscriptionRequest) (r : SubscriptionRequest) :
  subscribed (rs ++ [r]) =
  match action r with
  | SUBSCRIBE => {[instrument_id r]} ∪ subscribed rs
  | UNSUBSCRIBE => subscribed rs
  end.
Proof.
  induction rs as [|r0 rs IH]; cbn.
  - now destruct (action r).
  - rewrite IH. destruct (action r0), (action r); try reflexivity.
    rewrite !(assoc_L (∪)). f_equal. apply (comm_L (∪)).
Qed.

Lemma answers_snoc (rs : list SubscriptionRequest) (r : SubscriptionRequest)
    (known : gset string) :
  answers known (rs ++ [r]) =
  answers known rs ++
  match action r with
  | SUBSCRIBE =>
      if decide (instrument_id r ∈ known ∪ subscribed rs) then []
      else [snapshot_update (instrument_id r)]
  | UNSUBSCRIBE => [unsubscribe_update (instrument_id r)]
  end.
Proof.
  revert known. induction rs as [|r0 rs IH]; intros known; cbn.
  - destruct (action r); [|reflexivity].
    apply decide_ext. rewrite elem_of_union, elem_of_empty. tauto.
  - destruct (action r0) eqn:Ha0.
    + destruct (decide (instrument_id r0 ∈ known)) as [Hin|Hnot].
      * rewrite IH. f_equal. destruct (action r); [|reflexivity].
        apply decide_ext. rewrite !elem_of_union, elem_of_singleton.
        split; [tauto | intros [? | [-> | ?]]; auto].
      * cbn. rewrite IH. do 2 f_equal. destruct (action r); [|reflexivity].
        apply decide_ext. rewrite !elem_of_union, elem_of_singleton. tauto.
    + cbn. now rewrite IH.
Qed.

Lemma answered_same (s s' : state) :
  loop s' = loop s -> history s' = history s \/
    (exists e, history s' = history s ++ [e] /\ is_producer_event e = true) ->
  dom (update_threads s') = dom (update_threads s) ->
  answered s -> answered s'.
Proof.
  unfold answered. intros -> Hh ->.
  destruct Hh as [-> | (e & -> & He)]; [auto|].
  rewrite received_app, loop_sent_app.
  destruct e as [r|[|j] m|[|j] m ok|j|j]; try discriminate He; cbn;
    try (destruct ok); now rewrite !app_nil_r.
Qed.

Lemma answered_reachable (s : state) : reachable s -> answered s.
Proof.
  intros Hr. induction Hr as [|l s s' Hr IH Hstep] using reachable_ind.
  - unfold answered. cbn. now rewrite dom_empty_L.
  - pose proof (reachable_invariant s Hr) as [_ Hinv].
    step_inv Hstep.
    + (* a command is read *)
      unfold answered in *. rewrite Hloop in IH, Hinv. destruct IH as [Hsent Hknown].
      rewrite on_request_threads, on_request_history.
      cbn [history update_threads record].
      rewrite received_app, loop_sent_app. cbn [received loop_sent].
      rewrite app_nil_r.
      unfold on_request. change (streaming (record _ s)) with (streaming s).
      destruct (action r0) eqn:Haction.
      * destruct (streaming s (instrument_id r0)) eqn:Hstr; cbn [negb loop set_loop].
        -- assert (Hin : instrument_id r0 ∈ dom (update_threads s)).
           { apply elem_of_dom. unfold streaming in Hstr.
             destruct (update_threads s !! instrument_id r0); [eauto | discriminate]. }
           cbn [loop record]. rewrite Hloop. cbn [answered_at].
           rewrite answers_snoc, subscribed_snoc, Haction, (left_id_L ∅ (∪)).
           rewrite <- Hknown, decide_True, app_nil_r by assumption.
           split; [assumption|]. symmetry. apply subseteq_union_1_L.
           now apply singleton_subseteq_l.
        -- pose proof (streaming_false s _ Hinv Hstr) as Hnone.
           apply not_elem_of_dom in Hnone. cbn [answered_at].
           rewrite answers_snoc, subscribed_snoc, Haction, (left_id_L ∅ (∪)).
           rewrite <- Hknown, decide_False by assumption.
           rewrite Hsent. auto.
      * assert (Hl : loop (set_loop (AtWriteAck (instrument_id r0))
                    (if streaming s (instrument_id r0)
                     then set_stop_signals
                            (<[instrument_id r0 := true]>
                               (stop_signals (record (Received r0) s)))
                            (record (Received r0) s)
                     else record (Received r0) s)) = AtWriteAck (instrument_id r0))
          by reflexivity.
        rewrite Hl. cbn [answered_at].
        rewrite answers_snoc, subscribed_snoc, Haction, Hsent. auto.
    + exact I.
    + unfold answered in *. rewrite Hloop in IH. cbn in *.
      now rewrite received_app, loop_sent_app, !app_nil_r.
    + unfold answered in *. rewrite Hloop in IH. cbn in *.
      now rewrite received_app, loop_sent_app, !app_nil_r.
    + (* the snapshot is written: the thread is started *)
      unfold answered in *. rewrite Hloop in IH. destruct IH as (Hsent & Hknown & Hnew).
      cbn [loop history update_threads start_thread set_loop set_threads
           set_stop_signals record answered_at].
      rewrite !received_app, !loop_sent_app. cbn [received loop_sent].
      rewrite !app_nil_r, dom_insert_L. auto.
    + exact I.
    + unfold answered in *. rewrite Hloop in IH. destruct IH as (Hsent & Hknown).
      destruct ok0; [|exact I]. cbn.
      rewrite received_app, loop_sent_app. cbn. now rewrite app_nil_r.
    + exact I.
    + exact I.
    + exact I.
    + exact I.
    + apply (answered_same s); [reflexivity | now left | reflexivity | exact IH].
    + apply (answered_same s); [reflexivity | now left | | exact IH].
      cbn. apply dom_insert_lookup_L. eauto.
    + apply (answered_same s);
        [reflexivity | right; eexists; split; reflexivity | | exact IH].
      cbn. apply dom_insert_lookup_L. eauto.
    + apply (answered_same s);
        [reflexivity | right; eexists; split; reflexivity | | exact IH].
      cbn. apply dom_insert_lookup_L. eauto.
    + apply (answered_same s);
        [reflexivity | right; eexists; split; reflexivity | | exact IH].
      cbn. apply dom_insert_lookup_L. eauto.
    + apply (answered_same s); [reflexivity | now left | | exact IH].
      cbn. apply dom_insert_lookup_L. eauto.
Qed.

End ConnectionSpec.

(** ** Client and server together *)

Module EndToEnd.
Import Double StdMap Wire Client ClientIO Server Connection.
Import DoubleFacts StdMapFacts ClientSpec ConversionFacts.
Import ServerSpec ConnectionSpec Scenario.

Lemma incremental_prices_ordered (n : Z) :
  is_nan (add (of_int 99) (if Z.rem n 2 =? 0 then tenth else opp tenth)) = false /\
  is_nan (sub (of_int 100) (if Z.rem n 2 =? 0 then tenth else opp tenth)) = false.
Proof. destruct (Z.rem n 2 =? 0); split; vm_compute; reflexivity. Qed.

Lemma incremental_quantities_positive (n : Z) :
  0 <= n <= max_update_count ->
  positive (of_int (200 + n * 10)) = true /\
  positive (of_int (150 + n * 5)) = true.
Proof.
  unfold max_update_count. intros Hn.
  split; apply positive_of_int; change (2 ^ 53) with 9007199254740992; lia.
Qed.

Lemma server_message_sound (m : MarketDataUpdate) :
  server_message (max_update_count + 1) m ->
  ordered_update m /\ all_levels_positive m.
Proof.
  intros (id & [-> | [-> | (n & Hn & ->)]]).
  - split; split; repeat constructor.
  - split; split; constructor.
  - destruct (incremental_prices_ordered n) as [Hb Ha].
    destruct (incremental_quantities_positive n) as [Hqb Hqa]; [lia|].
    rewrite incremental_in_range by lia. unfold plain_update.
    split; split; repeat constructor; assumption.
Qed.

Lemma no_empty_level_read_loop (updates : list MarketDataUpdate)
    (c : MarketDataClient) :
  no_empty_level c -> Forall snapshot_positive updates ->
  no_empty_level (SubscribeToMarketData updates c).
Proof.
  revert c. induction updates as [|update updates IH]; intros c Hc Hpos.
  - exact Hc.
  - inversion Hpos; subst.
    change (SubscribeToMarketData (update :: updates) c)
      with (SubscribeToMarketData updates (process_update c update)).
    apply IH; [|assumption]. now apply no_empty_level_process_update.
Qed.

Lemma no_empty_level_empty : no_empty_level empty_client.
Proof. split; intros id m; cbn; rewrite lookup_empty; discriminate. Qed.

(** X18.  What the server sends keeps the client's books sound.  While no
    producer has counted past the range in which lines 49 and 53 fit an
    [int], every message the server has sent on a connection has prices
    that are not NaN and quantities [> 0] on every level it carries, so
    that no update of a producer ever removes a level; a client fed these
    messages, in the order in which they were sent, holds maps ordered by
    price in which every quantity is [> 0]. *)
Theorem server_messages_keep_books_sound (s : state) :
  reachable s -> within_int_range s ->
  Forall (fun m => ordered_update m /\ all_levels_positive m) (sent (history s)) /\
  client_wf (SubscribeToMarketData (sent (history s)) empty_client) /\
  no_empty_level (SubscribeToMarketData (sent (history s)) empty_client).
Proof.
  intros Hr Hrange.
  assert (Hsound : Forall (fun m => ordered_update m /\ all_levels_positive m)
                     (sent (history s))).
  { eapply Forall_impl; [exact (sent_messages s Hr)|].
    intros m (id & Hm). apply server_message_sound. exists id.
    destruct Hm as [Hm | [Hm | (t & n & Ht & Hn & Hm)]]; auto.
    right. right. exists n. split; [|exact Hm].
    specialize (Hrange id t Ht). lia. }
  split; [exact Hsound|]. split.
  - apply client_wf_read_loop; [exact client_wf_empty|].
    eapply Forall_impl; [exact Hsound|]. now intros m [Ho _].
  - apply no_empty_level_read_loop; [exact no_empty_level_empty|].
    eapply Forall_impl; [exact Hsound|]. intros m [_ Hp].
    destruct m; cbn in *; auto.
Qed.

Lemma server_messages_keep_books_sound_witness :
  exists s,
    exec straggler_run initial = Some s /\
    no_empty_level (SubscribeToMarketData (sent (history s)) empty_client).
Proof.
  assert (Hrun : exists s, exec straggler_run initial = Some s /\
                           update_threads s =
                             {["AAPL" := {| joinable := true; pc := InSleep;
                                            update_count := 1 |}]}).
  { eexists. split; [vm_compute; reflexivity|]. reflexivity. }
  destruct Hrun as (s & Hs & Hthreads). exists s. split; [exact Hs|].
  apply server_messages_keep_books_sound.
  - now exists straggler_run.
  - intros id t. rewrite Hthreads. intros Ht.
    apply lookup_singleton_Some in Ht as [_ <-]. cbn. unfold max_update_count. lia.
Defined.

(** X19.  An update that reaches the client after the acknowledgement of
    an unsubscription fills the emptied book again: processing the
    acknowledgement for an instrument and then an update of that
    instrument's producer leaves the instrument with exactly one bid and
    one ask, those of the update. *)
Theorem late_update_refills_book (id : string) (n : Z) (c : MarketDataClient) :
  0 <= n <= max_update_count ->
  let c' := SubscribeToMarketData [unsubscribe_update id; incremental id n] c in
  order_books_bids_ c' !! id =
    Some [(add (of_int 99) (if Z.rem n 2 =? 0 then tenth else opp tenth),
           of_int (200 + n * 10))] /\
  order_books_asks_ c' !! id =
    Some [(sub (of_int 100) (if Z.rem n 2 =? 0 then tenth else opp tenth),
           of_int (150 + n * 5))].
Proof.
  intros Hn c'. subst c'.
  destruct (incremental_quantities_positive n Hn) as [Hqb Hqa].
  rewrite (incremental_in_range id n Hn).
  unfold SubscribeToMarketData, unsubscribe_update, plain_update.
  cbn [fold_left process_update].
  rewrite on_incremental_eq, on_snapshot_eq.
  cbn [order_books_bids_ order_books_asks_ incremental_instrument_id
       snapshot_instrument_id bid_updates ask_updates bids asks].
  rewrite !lookup_insert_eq, !book_insert.
  unfold build_side, apply_levels, level_step, price_level.
  cbn [fold_left price quantity]. rewrite Hqb, Hqa. split; reflexivity.
Qed.

Lemma late_update_refills_book_witness :
  order_books_bids_
    (SubscribeToMarketData [unsubscribe_update "AAPL"; incremental "AAPL" 0]
       subscribed_client) !! "AAPL" =
  Some [(add (of_int 99) tenth, of_int 200)].
Proof.
  apply (late_update_refills_book "AAPL" 0 subscribed_client).
  unfold max_update_count. lia.
Defined.

(** *** Subscriptions *)

Lemma writer_thread_all_sent (instrument_ids : list string) (k : nat) :
  map fst (writer_thread instrument_ids (fun _ => true) k) =
  map subscribe_request instrument_ids.
Proof.
  revert k. induction instrument_ids as [|id ids IH]; intros k; cbn;
    [reflexivity | now rewrite IH].
Qed.

Lemma serve_subscribe (id : string) (s : state) :
  reachable s -> loop s = AtRead ->
  exists s',
    exec (serving (subscribe_request id) s) s = Some s' /\
    loop s' = AtRead /\
    dom (update_threads s') = {[id]} ∪ dom (update_threads s) /\
    sent (history s') =
      sent (history s) ++
      (if decide (id ∈ dom (update_threads s)) then [] else [snapshot_update id]) /\
    received (history s') = received (history s) ++ [subscribe_request id].
Proof.
  intros Hr Hloop. pose proof (reachable_invariant s Hr) as [_ Hinv].
  rewrite Hloop in Hinv. unfold serving, subscribe_request. cbn [action instrument_id].
  destruct (streaming s id) eqn:Hstr.
  - assert (Hin : id ∈ dom (update_threads s)).
    { apply elem_of_dom. unfold streaming in Hstr.
      destruct (update_threads s !! id); [eauto | discriminate]. }
    cbn [exec step producer_of Subscribe]. rewrite Hloop.
    unfold on_request. cbn [action instrument_id].
    change (streaming (record _ s) id) with (streaming s id). rewrite Hstr.
    cbn [negb]. eexists. split; [reflexivity|]. split; [exact Hloop|].
    cbn [update_threads history record]. rewrite sent_app, received_app.
    cbn [sent received].
    rewrite decide_True by assumption. split; [|split; reflexivity].
    apply set_eq. intros j. rewrite elem_of_union, elem_of_singleton.
    split; [auto | intros [-> | Hj]; assumption].
  - pose proof (streaming_false s id Hinv Hstr) as Hnone.
    cbn [exec step producer_of Subscribe]. rewrite Hloop.
    unfold on_request. cbn [action instrument_id].
    change (streaming (record _ s) id) with (streaming s id). rewrite Hstr.
    cbn [negb loop set_loop]. cbn [exec step producer_of Subscribe loop set_loop].
    eexists. split; [reflexivity|]. split; [reflexivity|].
    cbn [update_threads history record set_loop start_thread set_threads
         set_stop_signals].
    rewrite dom_insert_L. split; [reflexivity|].
    rewrite decide_False by (now apply not_elem_of_dom).
    rewrite !sent_app, !received_app. cbn [sent received app].
    rewrite !app_nil_r. split; reflexivity.
Qed.

Lemma serve_subscriptions (ids : list string) (s : state) :
  reachable s -> loop s = AtRead ->
  exists s',
    serve (map subscribe_request ids) s = Some s' /\
    reachable s' /\ loop s' = AtRead /\
    dom (update_threads s') = dom (update_threads s) ∪ list_to_set ids /\
    sent (history s') =
      sent (history s) ++
      map snapshot_update (fresh_ids (dom (update_threads s)) ids) /\
    received (history s') = received (history s) ++ map subscribe_request ids.
Proof.
  revert s. induction ids as [|id ids IH]; intros s Hr Hloop.
  - exists s. cbn. rewrite !app_nil_r, (right_id_L ∅ (∪)). auto 10.
  - destruct (serve_subscribe id s Hr Hloop)
      as (s1 & Hexec & Hloop1 & Hdom1 & Hsent1 & Hrs1).
    assert (Hr1 : reachable s1) by exact (reachable_exec _ s s1 Hr Hexec).
    destruct (IH s1 Hr1 Hloop1)
      as (s' & Hserve & Hr' & Hloop' & Hdom' & Hsent' & Hrs').
    exists s'. cbn [map serve]. rewrite Hexec.
    split; [exact Hserve|]. split; [exact Hr'|]. split; [exact Hloop'|].
    split; [|split; [|now rewrite Hrs', Hrs1, <- app_assoc]].
    + rewrite Hdom', Hdom1. cbn [list_to_set].
      rewrite (comm_L (∪) {[id]}), <- (assoc_L (∪)). reflexivity.
    + rewrite Hsent', Hsent1, Hdom1. cbn [fresh_ids].
      destruct (decide (id ∈ dom (update_threads s))) as [Hin|Hnot].
      * rewrite app_nil_r.
        replace ({[id]} ∪ dom (update_threads s)) with (dom (update_threads s));
          [reflexivity|].
        apply set_eq. intros j. rewrite elem_of_union, elem_of_singleton.
        split; [auto | intros [-> | Hj]; assumption].
      * now rewrite <- app_assoc.
Qed.

Lemma fresh_ids_spec (ids : list string) (known : gset string) :
  NoDup (fresh_ids known ids) /\
  forall id, id ∈ fresh_ids known ids <-> id ∈ ids /\ id ∉ known.
Proof.
  revert known. induction ids as [|i ids IH]; intros known; cbn [fresh_ids].
  - split; [constructor|]. intros id. rewrite elem_of_nil.
    split; [contradiction | now intros [? _]].
  - destruct (decide (i ∈ known)) as [Hin|Hnot].
    + destruct (IH known) as [Hnd Hiff]. split; [exact Hnd|].
      intros id. rewrite Hiff, elem_of_cons. split.
      * intros [? ?]. auto.
      * intros [[-> | ?] ?]; [contradiction | auto].
    + destruct (IH ({[i]} ∪ known)) as [Hnd Hiff]. split.
      * constructor; [|exact Hnd]. rewrite Hiff, elem_of_union, elem_of_singleton.
        intros [_ Hno]. apply Hno. now left.
      * intros id. rewrite !elem_of_cons, Hiff, elem_of_union, elem_of_singleton.
        split.
        -- intros [-> | [? Hno]]; [auto|]. split; [auto|]. intros ?. apply Hno. auto.
        -- intros [[-> | ?] Hno]; [auto|].
           destruct (decide (id = i)) as [->|Hne]; [auto|].
           right. split; [assumption|]. intros [? | ?]; contradiction.
Qed.

Lemma answers_subscribe (ids : list string) (known : gset string) :
  answers known (map subscribe_request ids) =
  map snapshot_update (fresh_ids known ids).
Proof.
  revert known. induction ids as [|id ids IH]; intros known; cbn;
    [reflexivity|].
  destruct (decide (id ∈ known)); cbn; now rewrite IH.
Qed.

Lemma subscribed_subscribe (ids : list string) :
  subscribed (map subscribe_request ids) = list_to_set ids.
Proof. induction ids as [|id ids IH]; cbn; [reflexivity | now rewrite IH]. Qed.

(** X20.  Subscriptions end to end.  Whatever the producers do in between,
    whenever the read loop of a connection is waiting for a command the
    messages it has itself written are the answers to the commands it has
    received: a snapshot for a SUBSCRIBE of an instrument without a
    thread, nothing for one with a thread, the acknowledgement for an
    UNSUBSCRIBE.  So when the commands received are those the client's
    writer thread sends for a list of instruments (every write
    succeeding), the read loop has written one snapshot for each distinct
    instrument, in the order of first mention, and a repeated instrument
    is not answered a second time; there is a thread for exactly the
    instruments of the list, and such a run exists.  The updates of the
    producers come in between these messages on the wire. *)
Theorem subscriptions_served_once (instrument_ids : list string) :
  (forall s, reachable s -> loop s = AtRead ->
     loop_sent (history s) = answers ∅ (received (history s))) /\
  (forall s, reachable s -> loop s = AtRead ->
     received (history s) =
       map fst (writer_thread instrument_ids (fun _ => true) 0) ->
     loop_sent (history s) =
       map snapshot_update (fresh_ids ∅ instrument_ids) /\
     dom (update_threads s) = list_to_set instrument_ids) /\
  (exists s, reachable s /\ loop s = AtRead /\
     received (history s) =
       map fst (writer_thread instrument_ids (fun _ => true) 0)) /\
  NoDup (fresh_ids ∅ instrument_ids) /\
  (forall id, id ∈ fresh_ids ∅ instrument_ids <-> id ∈ instrument_ids).
Proof.
  assert (Hanswered : forall s, reachable s -> loop s = AtRead ->
    loop_sent (history s) = answers ∅ (received (history s)) /\
    dom (update_threads s) = subscribed (received (history s))).
  { intros s Hr Hloop. pose proof (answered_reachable s Hr) as Ha.
    unfold answered in Ha. now rewrite Hloop in Ha. }
  split; [intros s Hr Hloop; now apply Hanswered|].
  split.
  { intros s Hr Hloop Hrs. destruct (Hanswered s Hr Hloop) as [-> ->].
    rewrite Hrs, writer_thread_all_sent.
    now rewrite answers_subscribe, subscribed_subscribe. }
  split.
  { destruct (serve_subscriptions instrument_ids initial reachable_initial eq_refl)
      as (s & Hserve & Hr & Hloop & _ & _ & Hrs).
    exists s. rewrite writer_thread_all_sent. auto. }
  destruct (fresh_ids_spec instrument_ids ∅) as [Hnd Hiff].
  split; [exact Hnd|]. intros id. rewrite Hiff. split; [tauto|].
  intros Hin. split; [exact Hin | apply not_elem_of_empty].
Qed.

Lemma subscriptions_served_once_witness :
  exists s,
    exec interleaved_run initial = Some s /\
    sent (history s) =
      [snapshot_update "AAPL"; incremental "AAPL" 0; snapshot_update "MSFT"] /\
    loop_sent (history s) = [snapshot_update "AAPL"; snapshot_update "MSFT"].
Proof.
  assert (Hrun : exists s,
    exec interleaved_run initial = Some s /\ loop s = AtRead /\
    received (history s) =
      map fst (writer_thread ["AAPL"; "MSFT"; "AAPL"] (fun _ => true) 0) /\
    sent (history s) =
      [snapshot_update "AAPL"; incremental "AAPL" 0; snapshot_update "MSFT"]).
  { eexists. split; [vm_compute; reflexivity|]. repeat split. }
  destruct Hrun as (s & Hs & Hloop & Hrs & Hsent).
  exists s. split; [exact Hs|]. split; [exact Hsent|].
  assert (Hr : reachable s) by (now exists interleaved_run).
  destruct (subscriptions_served_once ["AAPL"; "MSFT"; "AAPL"])
    as (_ & Hserved & _).
  now destruct (Hserved s Hr Hloop Hrs) as [-> _].
Defined.

(** X21.  Unsubscription end to end.  [UnsubscribeFromMarketData] writes
    nothing while the client has no stream; otherwise the one command it
    writes, served by a read loop that is waiting for a command, is
    answered by the acknowledgement as the only message of the read loop,
    leaves the threads as they are, makes the loop test of the
    instrument's producer fail when there is one and creates no stop
    signal when there is none; a client that has received what was sent up
    to and including the acknowledgement holds the empty book for the
    instrument. *)
Theorem unsubscribe_round_trip (stream_ : bool) (id : string) (s : state)
    (c : MarketDataClient) :
  reachable s -> loop s = AtRead ->
  match UnsubscribeFromMarketData stream_ id with
  | None => stream_ = false
  | Some r =>
      stream_ = true /\
      exists s',
        serve [r] s = Some s' /\ loop s' = AtRead /\
        update_threads s' = update_threads s /\
        sent (history s') = sent (history s) ++ [unsubscribe_update id] /\
        (is_Some (update_threads s !! id) -> stopping s' id = true) /\
        (update_threads s !! id = None -> stop_signals s' = stop_signals s) /\
        book (order_books_bids_ (SubscribeToMarketData (sent (history s')) c)) id = [] /\
        book (order_books_asks_ (SubscribeToMarketData (sent (history s')) c)) id = []
  end.
Proof.
  intros Hr Hloop. destruct stream_; cbn [UnsubscribeFromMarketData]; [|reflexivity].
  split; [reflexivity|].
  pose proof (reachable_invariant s Hr) as [_ Hinv]. rewrite Hloop in Hinv.
  unfold serve, serving. cbn [action instrument_id exec step producer_of Subscribe].
  rewrite Hloop. unfold on_request. cbn [action instrument_id].
  change (streaming (record _ s) id) with (streaming s id).
  destruct (streaming s id) eqn:Hstr;
    cbn [exec step producer_of Subscribe loop set_loop set_stop_signals record];
    (eexists; split; [reflexivity|]; split; [reflexivity|]; split; [reflexivity|]);
    cbn [history set_loop record set_stop_signals stop_signals];
    rewrite !sent_app; cbn [sent app]; rewrite !app_nil_r;
    (split; [reflexivity|]).
  - split; [|split].
    + intros _. unfold stopping, stop_requested. cbn.
      now rewrite lookup_insert_eq.
    + intros Hnone. unfold streaming in Hstr. now rewrite Hnone in Hstr.
    + unfold SubscribeToMarketData. rewrite fold_left_app. cbn [fold_left].
      unfold unsubscribe_update. cbn [process_update]. rewrite on_snapshot_eq.
      cbn. now rewrite !book_insert.
  - split; [|split].
    + intros [t Ht]. rewrite (streaming_false s id Hinv Hstr) in Ht. discriminate.
    + reflexivity.
    + unfold SubscribeToMarketData. rewrite fold_left_app. cbn [fold_left].
      unfold unsubscribe_update. cbn [process_update]. rewrite on_snapshot_eq.
      cbn. now rewrite !book_insert.
Qed.

Lemma unsubscribe_round_trip_witness :
  exists s s',
    exec active_run initial = Some s /\
    serve [{| action := UNSUBSCRIBE; instrument_id := "AAPL" |}] s = Some s' /\
    sent (history s') = [snapshot_update "AAPL"; unsubscribe_update "AAPL"].
Proof.
  assert (Hrun : exists s, exec active_run initial = Some s /\ loop s = AtRead /\
                           sent (history s) = [snapshot_update "AAPL"]).
  { eexists. split; [vm_compute; reflexivity|]. split; reflexivity. }
  destruct Hrun as (s & Hs & Hloop & Hsent).
  assert (Hr : reachable s) by (now exists active_run).
  destruct (unsubscribe_round_trip true "AAPL" s empty_client Hr Hloop)
    as (_ & s' & Hserve & _ & _ & Hsent' & _).
  exists s, s'. split; [exact Hs|]. split; [exact Hserve|].
  now rewrite Hsent', Hsent.
Defined.

(** *** The levels of the snapshot *)

Lemma incremental_leaves_price (p : double) (id j : string) (n : Z)
    (c : MarketDataClient) :
  client_wf c -> is_nan p = false ->
  equiv p (add (of_int 99) tenth) = false ->
  equiv p (add (of_int 99) (opp tenth)) = false ->
  equiv p (sub (of_int 100) tenth) = false ->
  equiv p (sub (of_int 100) (opp tenth)) = false ->
  let c' := process_update c (incremental j n) in
  find p (book (order_books_bids_ c') id) = find p (book (order_books_bids_ c) id) /\
  find p (book (order_books_asks_ c') id) = find p (book (order_books_asks_ c) id).
Proof.
  intros [Hwb Hwa] Hp Hb1 Hb2 Ha1 Ha2 c'. subst c'.
  destruct (incremental_prices_ordered (to_int n)) as [Hnb Hna].
  unfold incremental in *. cbn [process_update]. rewrite on_incremental_eq.
  cbn [order_books_bids_ order_books_asks_ incremental_instrument_id
       bid_updates ask_updates].
  destruct (decide (j = id)) as [->|Hne].
  - rewrite !book_insert.
    split; apply find_apply_levels_other; try assumption;
      try (now apply wf_book); repeat constructor; cbn [price price_level];
      try assumption; destruct (Z.rem (to_int n) 2 =? 0); assumption.
  - unfold book. now rewrite !lookup_insert_ne by assumption.
Qed.

(** X22.  The producers never touch the levels of the snapshot: their
    updates name the prices 99.0 +- 0.1 and 100.0 -+ 0.1 only, none of
    which is a price of the snapshot, so that a client that has received
    the snapshot of an instrument and then any number of producer updates,
    for that or any other instrument, still finds the four levels of the
    snapshot with the quantities the snapshot gave them. *)
Theorem snapshot_levels_survive_updates (id : string)
    (updates : list MarketDataUpdate) :
  Forall (fun m => exists j n, m = incremental j n) updates ->
  let c := SubscribeToMarketData (snapshot_update id :: updates) empty_client in
  find (of_scaled 199 (-1)) (book (order_books_bids_ c) id) = Some (of_int 100) /\
  find (of_int 99) (book (order_books_bids_ c) id) = Some (of_int 200) /\
  find (of_int 100) (book (order_books_asks_ c) id) = Some (of_int 150) /\
  find (of_scaled 201 (-1)) (book (order_books_asks_ c) id) = Some (of_int 250).
Proof.
  intros Hupdates c. subst c.
  change (SubscribeToMarketData (snapshot_update id :: updates) empty_client)
    with (SubscribeToMarketData updates
            (process_update empty_client (snapshot_update id))).
  assert (Hwf : client_wf (process_update empty_client (snapshot_update id))).
  { apply client_wf_process_update; [exact client_wf_empty|].
    split; repeat constructor. }
  assert (Hstart :
    find (of_scaled 199 (-1))
      (book (order_books_bids_ (process_update empty_client (snapshot_update id))) id)
      = Some (of_int 100) /\
    find (of_int 99)
      (book (order_books_bids_ (process_update empty_client (snapshot_update id))) id)
      = Some (of_int 200) /\
    find (of_int 100)
      (book (order_books_asks_ (process_update empty_client (snapshot_update id))) id)
      = Some (of_int 150) /\
    find (of_scaled 201 (-1))
      (book (order_books_asks_ (process_update empty_client (snapshot_update id))) id)
      = Some (of_int 250)).
  { unfold snapshot_update. cbn [process_update]. rewrite on_snapshot_eq.
    cbn [order_books_bids_ order_books_asks_ snapshot_instrument_id bids asks].
    rewrite !book_insert. repeat split; vm_compute; reflexivity. }
  revert Hwf Hstart. generalize (process_update empty_client (snapshot_update id)).
  induction Hupdates as [|m updates (j & n & ->) Hrest IH];
    intros c Hwf Hstart; [exact Hstart|].
  change (SubscribeToMarketData (incremental j n :: updates) c)
    with (SubscribeToMarketData updates (process_update c (incremental j n))).
  destruct Hstart as (H1 & H2 & H3 & H4).
  apply IH.
  - apply client_wf_process_update; [exact Hwf|].
    destruct (incremental_prices_ordered (to_int n)) as [Hnb Hna].
    split; repeat constructor; assumption.
  - repeat split.
    + rewrite <- H1.
      apply (incremental_leaves_price (of_scaled 199 (-1)) id j n c Hwf);
        vm_compute; reflexivity.
    + rewrite <- H2.
      apply (incremental_leaves_price (of_int 99) id j n c Hwf);
        vm_compute; reflexivity.
    + rewrite <- H3.
      apply (incremental_leaves_price (of_int 100) id j n c Hwf);
        vm_compute; reflexivity.
    + rewrite <- H4.
      apply (incremental_leaves_price (of_scaled 201 (-1)) id j n c Hwf);
        vm_compute; reflexivity.
Qed.

Lemma snapshot_levels_survive_updates_witness :
  find (of_int 99)
    (book (order_books_bids_
             (SubscribeToMarketData
                [snapshot_update "AAPL"; incremental "AAPL" 0;
                 incremental "MSFT" 0; incremental "AAPL" 1] empty_client))
          "AAPL") = Some (of_int 200).
Proof.
  apply (snapshot_levels_survive_updates "AAPL"
           [incremental "AAPL" 0; incremental "MSFT" 0; incremental "AAPL" 1]).
  repeat constructor; eexists _, _; reflexivity.
Defined.

End EndToEnd.
